(** * The lotto draw cache of [src/app/api/lotto/route.ts]

    A shallow embedding of the route handler: the upstream client
    ([fetchJson]), the draw fetcher with its retry loop ([fetchDrawOnce],
    [fetchDraw]), the latest-draw locator ([findLatestDraw]), the worker
    pool ([fetchRange]), the cache coordinator ([updateCache]) and the
    served read ([buildRanking], [GET]).

    - Numbers are integers ([Z]); a value read from a reply is a [jsnum],
      which also has NaN.  The draw numbers and time stamps the handler
      computes stay far below 2^53, so no rounding is modelled.
    - An asynchronous function is a tree of awaits ([Async]).  [run]
      awaits one on its own; the worker pool interleaves several.
    - The process state ([State]) is the global cache object, the clock
      and a log of what the process did.  The log is how statements count
      requests, waits, locator runs and syncs.
    - What the upstream answers, how much time an await takes and which
      suspended worker is resumed next are an [Environment]; statements
      quantify over it.
    - The workers that a rejected range fetch leaves running stay in the
      state ([strays]); the steps they take afterwards are [idle_run].
    - [JSON.parse] and the coercions of strings and objects to numbers
      and strings are parameters ([Builtins]). *)

(** The recommendation page of [src/app/page.tsx] is embedded after the
    route: its ranking ([buildRankingFromCounts]), its four ways of
    picking six numbers and the colour of a ball. *)

From stdpp Require Import gmap strings list.
From stdpp Require Import sorting.
From Stdlib Require Import ZArith Lia.

Local Open Scope Z_scope.

(** ** JavaScript values *)

(** A double, as far as the handler can tell values apart: NaN, an
    integer, or any other value (fractional or infinite). *)
Inductive jsnum : Type :=
| NaN
| Int (z : Z)
| NonInt.

Local Unset Elimination Schemes.
Inductive jsval : Type :=
| JUndefined
| JNull
| JBool (b : bool)
| JNum (n : jsnum)
| JStr (s : string)
| JArr (items : list jsval)
| JObj (fields : list (string * jsval)).
Local Set Elimination Schemes.

(** A string of UTF-16 code units (the body of a response). *)
Abbreviation text := (list N).

(** The built-ins whose full definition lives in the language standard. *)
Class Builtins := {
  JSON_parse : text -> option jsval;      (* None: SyntaxError *)
  StringToNumber : string -> jsnum;       (* ToNumber on a string *)
  ObjectToNumber : jsval -> jsnum;        (* ToNumber on an array or object *)
  ToString : jsval -> string              (* String(v) on a non-string *)
}.

Definition isNaN (n : jsnum) : bool :=
  match n with NaN => true | _ => false end.

Section Coercions.
Context `{Builtins}.

Definition Number (v : jsval) : jsnum :=
  match v with
  | JUndefined => NaN
  | JNull => Int 0
  | JBool true => Int 1
  | JBool false => Int 0
  | JNum n => n
  | JStr s => StringToNumber s
  | JArr _ | JObj _ => ObjectToNumber v
  end.

Definition String_ (v : jsval) : string :=
  match v with
  | JStr s => s
  | _ => ToString v
  end.
End Coercions.

Fixpoint assoc (key : string) (fields : list (string * jsval)) : jsval :=
  match fields with
  | [] => JUndefined
  | (k, v) :: rest => if String.eqb k key then v else assoc key rest
  end.

(** [data.key] for the property names the handler reads, on a value that
    is neither null nor undefined. *)
Definition prop (data : jsval) (key : string) : jsval :=
  match data with
  | JObj fields => assoc key fields
  | _ => JUndefined
  end.

(** [v === "success"] *)
Definition is_success (v : jsval) : bool :=
  match v with
  | JStr s => String.eqb s "success"
  | _ => false
  end.

(** ** Exceptions *)

Inductive exn : Type :=
| HtmlResponseError
| AbortError                 (* fetch rejected: timeout abort, network *)
| HttpError (status : Z)     (* new Error(`HTTP ${status}`) *)
| SyntaxError                (* JSON.parse on an application/json body *)
| NonJsonError               (* new Error("Non-JSON response") *)
| TypeError.

Definition name (e : exn) : string :=
  match e with
  | HtmlResponseError => "HtmlResponseError"
  | AbortError => "AbortError"
  | HttpError _ => "Error"
  | SyntaxError => "SyntaxError"
  | NonJsonError => "Error"
  | TypeError => "TypeError"
  end.

Inductive Outcome (A : Type) : Type :=
| Returned (a : A)
| Thrown (e : exn).
Arguments Returned {A} a.
Arguments Thrown {A} e.

(** ** Domain records and constants *)

Record Draw := {
  drwNo : jsnum;
  drwNoDate : string;
  numbers : list jsnum;
  bonus : jsnum
}.

Definition CACHE_TTL_MS : Z := 1000 * 60 * 60 * 12.
Definition MAX_DRAW_GUESS : Z := 10000.
Definition CONCURRENCY : nat := 6.
Definition RETRIES : Z := 2.
Definition BLOCK_TTL_MS : Z := 1000 * 60 * 15.

(** ** The upstream *)

Inductive Response : Type :=
| Rejected                               (* the fetch promise rejects *)
| Truncated                              (* a 2xx reply whose body cannot be read *)
| Reply (ok : bool) (status : Z)
        (jsonType : bool)                (* content-type includes application/json *)
        (raw : text).

(** ** Asynchronous computations

    A computation either settles or is suspended on one upstream request
    or on one timer. *)
Inductive Async (A : Type) : Type :=
| Resolve (a : A)
| Reject (e : exn)
| AwaitFetch (no : Z) (k : Response -> Async A)
| AwaitTimeout (ms : Z) (k : Async A).
Arguments Resolve {A} a.
Arguments Reject {A} e.
Arguments AwaitFetch {A} no k.
Arguments AwaitTimeout {A} ms k.

Fixpoint bind {A B} (m : Async A) (f : A -> Async B) : Async B :=
  match m with
  | Resolve a => f a
  | Reject e => Reject e
  | AwaitFetch no k => AwaitFetch no (fun r => bind (k r) f)
  | AwaitTimeout ms k => AwaitTimeout ms (bind k f)
  end.

(** [try { m } catch (error) { h error }] *)
Fixpoint catch {A} (m : Async A) (h : exn -> Async A) : Async A :=
  match m with
  | Resolve a => Resolve a
  | Reject e => h e
  | AwaitFetch no k => AwaitFetch no (fun r => catch (k r) h)
  | AwaitTimeout ms k => AwaitTimeout ms (catch k h)
  end.

Definition settle {A} (o : Outcome A) : Async A :=
  match o with
  | Returned a => Resolve a
  | Thrown e => Reject e
  end.

Notation "'let!' x ':=' m 'in' k" := (bind m (fun x => k))
  (at level 10, x pattern, m at level 100, k at level 200,
   format "'[v' 'let!'  x  ':='  m  'in' '/' k ']'").

(** ** Upstream client: [fetchJson] *)

Definition is_whitespace (c : N) : bool :=
  bool_decide (c ∈ [9; 10; 11; 12; 13; 32; 160; 5760; 8232; 8233; 8239;
                    8287; 12288; 65279]%N)
  || ((8192 <=? c) && (c <=? 8202))%N.

Fixpoint trimStart (s : text) : text :=
  match s with
  | c :: rest => if is_whitespace c then trimStart rest else s
  | [] => []
  end.

Definition trim (s : text) : text := rev (trimStart (rev (trimStart s))).

(** [trimmed.startsWith("<")] *)
Definition startsWith_lt (s : text) : bool :=
  match s with
  | c :: _ => (c =? 60)%N
  | [] => false
  end.

Section Fetcher.
Context `{Builtins}.

(** What [fetchJson] makes of the response, lines 61-77. *)
Definition readJson (r : Response) : Outcome jsval :=
  match r with
  | Rejected | Truncated => Thrown AbortError
  | Reply ok status jsonType raw =>
      if negb ok then Thrown (HttpError status)
      else if startsWith_lt (trim raw) then Thrown HtmlResponseError
      else match JSON_parse raw with
           | Some data => Returned data
           | None => Thrown (if jsonType then SyntaxError else NonJsonError)
           end
  end.

Definition fetchJson (no : Z) : Async jsval :=
  AwaitFetch no (fun r => settle (readJson r)).

(** Lines 85-105 of [fetchDrawOnce]. *)
Definition parseDraw (data : jsval) : Outcome (option Draw) :=
  match data with
  | JUndefined | JNull => Thrown TypeError
  | _ =>
      if negb (is_success (prop data "returnValue")) then Returned None
      else
        let numbers := [ Number (prop data "drwtNo1");
                         Number (prop data "drwtNo2");
                         Number (prop data "drwtNo3");
                         Number (prop data "drwtNo4");
                         Number (prop data "drwtNo5");
                         Number (prop data "drwtNo6") ] in
        let bonus := Number (prop data "bnusNo") in
        if existsb isNaN numbers || isNaN bonus then Returned None
        else Returned (Some {| drwNo := Number (prop data "drwNo");
                               drwNoDate := String_ (prop data "drwNoDate");
                               numbers := numbers;
                               bonus := bonus |})
  end.

Definition fetchDrawOnce (no : Z) : Async (option Draw) :=
  let! data := fetchJson no in
  settle (parseDraw data).

(** The retry loop of [fetchDraw], entered at [attempt] with [left]
    iterations to go. *)
Fixpoint fetchDraw_loop (left : nat) (attempt : Z) (no : Z)
  : Async (option Draw) :=
  match left with
  | O => Resolve None
  | S left' =>
      catch (fetchDrawOnce no) (fun error =>
        if String.eqb (name error) "HtmlResponseError" then Reject error
        else AwaitTimeout (250 * (attempt + 1))
                          (fetchDraw_loop left' (attempt + 1) no))
  end.

Definition fetchDraw (no : Z) : Async (option Draw) :=
  fetchDraw_loop (Z.to_nat (RETRIES + 1)) 0 no.

(** One attempt, as decided by the response it receives. *)
Definition attempt (r : Response) : Outcome (option Draw) :=
  match readJson r with
  | Returned data => parseDraw data
  | Thrown e => Thrown e
  end.
End Fetcher.

(** ** The cache and the process state *)

(** An attempt whose failure sends [fetchDraw] into another round. *)
Definition retried (o : Outcome (option Draw)) : bool :=
  match o with
  | Thrown e => negb (String.eqb (name e) "HtmlResponseError")
  | Returned _ => false
  end.

Record Cache := {
  updatedAt : Z;
  latest : Z;
  draws : gmap Z Draw;
  inFlight : option nat;          (* handle of the pending sync promise *)
  blockedUntil : option Z;
  missing : option (list Z)
}.

Definition set_updatedAt (t : Z) (c : Cache) : Cache :=
  {| updatedAt := t; latest := latest c; draws := draws c;
     inFlight := inFlight c; blockedUntil := blockedUntil c;
     missing := missing c |}.
Definition set_latest (n : Z) (c : Cache) : Cache :=
  {| updatedAt := updatedAt c; latest := n; draws := draws c;
     inFlight := inFlight c; blockedUntil := blockedUntil c;
     missing := missing c |}.
Definition set_draws (d : gmap Z Draw) (c : Cache) : Cache :=
  {| updatedAt := updatedAt c; latest := latest c; draws := d;
     inFlight := inFlight c; blockedUntil := blockedUntil c;
     missing := missing c |}.
Definition set_inFlight (p : option nat) (c : Cache) : Cache :=
  {| updatedAt := updatedAt c; latest := latest c; draws := draws c;
     inFlight := p; blockedUntil := blockedUntil c;
     missing := missing c |}.
Definition set_blockedUntil (b : option Z) (c : Cache) : Cache :=
  {| updatedAt := updatedAt c; latest := latest c; draws := draws c;
     inFlight := inFlight c; blockedUntil := b;
     missing := missing c |}.
Definition set_missing (m : option (list Z)) (c : Cache) : Cache :=
  {| updatedAt := updatedAt c; latest := latest c; draws := draws c;
     inFlight := inFlight c; blockedUntil := blockedUntil c;
     missing := m |}.

(** What the process has done so far, newest first. *)
Inductive Event : Type :=
| Request (no : Z)       (* one upstream GET *)
| Sleep (ms : Z)         (* one setTimeout wait *)
| Locate                 (* findLatestDraw entered *)
| SyncStart.             (* the sync body of updateCache entered *)

(** A worker of a range fetch (see [fetchRange] below): done, or
    suspended inside the [fetchDraw] call for the number it claimed. *)
Inductive Worker : Type :=
| Finished
| Awaiting (no : Z) (p : Async (option Draw)).

Record Pool := {
  current : Z;
  workers : list Worker;
  collected : list Z               (* the [missing] array *)
}.

(** Workers that a rejected range fetch has left running: nothing
    cancels them when [Promise.all] rejects.  They share the counter of
    their pool and fetch up to [stray_end]. *)
Record Stray := { stray_end : Z; stray_pool : Pool }.

Record State := {
  lottoCache : option Cache;     (* globalThis.__lottoCache *)
  now : Z;                       (* what Date.now() reads *)
  log : list Event;
  strays : list Stray            (* workers nobody waits for any more *)
}.

Definition with_cache (c : Cache) (st : State) : State :=
  {| lottoCache := Some c; now := now st; log := log st;
     strays := strays st |}.
Definition record (e : Event) (st : State) : State :=
  {| lottoCache := lottoCache st; now := now st; log := e :: log st;
     strays := strays st |}.
Definition advance (ms : Z) (st : State) : State :=
  {| lottoCache := lottoCache st; now := now st + ms; log := log st;
     strays := strays st |}.

(** What [k] failed attempts leave in the log, oldest first, when the
    first of them is attempt number [a]. *)
Fixpoint retry_trace (no : Z) (a : Z) (k : nat) : list Event :=
  match k with
  | O => []
  | S k' => Request no :: Sleep (250 * (a + 1)) :: retry_trace no (a + 1) k'
  end.

Definition is_request (e : Event) : bool :=
  match e with Request _ => true | _ => false end.
Definition requests (l : list Event) : nat := length (filter is_request l).

(** The world outside the process: what the upstream answers to its i-th
    request, how long the i-th await takes, and which pending worker of a
    pool is resumed at each step. *)
Class Environment := {
  upstream : nat -> Z -> Response;
  elapsed : nat -> Z;
  schedule : nat -> nat
}.

Definition M (A : Type) : Type := State -> Outcome A * State.

Definition mbind {A B} (m : M A) (f : A -> M B) : M B :=
  fun st => match m st with
            | (Returned a, st') => f a st'
            | (Thrown e, st') => (Thrown e, st')
            end.

Notation "'let*' x ':=' m 'in' k" := (mbind m (fun x => k))
  (at level 10, x pattern, m at level 100, k at level 200,
   format "'[v' 'let*'  x  ':='  m  'in' '/' k ']'").

Section Runtime.
Context `{Environment}.

Definition do_fetch (no : Z) (st : State) : Response * State :=
  (upstream (requests (log st)) no,
   advance (elapsed (length (log st))) (record (Request no) st)).

Definition do_sleep (ms : Z) (st : State) : State :=
  advance (elapsed (length (log st))) (record (Sleep ms) st).

(** Awaiting a computation with nothing else running. *)
Fixpoint run {A} (p : Async A) : M A :=
  fun st =>
    match p with
    | Resolve a => (Returned a, st)
    | Reject e => (Thrown e, st)
    | AwaitFetch no k => let '(r, st') := do_fetch no st in run (k r) st'
    | AwaitTimeout ms k => run k (do_sleep ms st)
    end.
End Runtime.

Definition freshCache : Cache :=
  {| updatedAt := 0; latest := 0; draws := ∅;
     inFlight := None; blockedUntil := None; missing := None |}.

(** The cache object [getCache()] hands out in state [st]. *)
Definition theCache (st : State) : Cache :=
  match lottoCache st with
  | Some c => c
  | None => freshCache
  end.

Definition getCache : M Cache :=
  fun st => (Returned (theCache st), with_cache (theCache st) st).

(** A write through the shared cache object. *)
Definition modify (f : Cache -> Cache) (st : State) : State :=
  with_cache (f (theCache st)) st.

(** ** Latest-draw locator: [findLatestDraw] *)

Section Locator.
Context `{Builtins}.

(** Lines 133-142; [fuel] bounds the iterations. *)
Fixpoint searchDown (fuel : nat) (low high : Z) : Async Z :=
  match fuel with
  | O => Resolve (Z.max 1 high)
  | S fuel' =>
      if low <=? high then
        let mid := (low + high) / 2 in
        let! midDraw := fetchDraw mid in
        if midDraw is Some _ then searchDown fuel' (mid + 1) high
        else searchDown fuel' low (mid - 1)
      else Resolve (Z.max 1 high)
  end.

(** Lines 160-170. *)
Fixpoint bisect (fuel : nat) (low high : Z) : Async Z :=
  match fuel with
  | O => Resolve low
  | S fuel' =>
      if low + 1 <? high then
        let mid := (low + high) / 2 in
        let! midDraw := fetchDraw mid in
        if midDraw is Some _ then bisect fuel' mid high
        else bisect fuel' low mid
      else Resolve low
  end.

Definition bisect_fuel (low high : Z) : nat := Z.to_nat (high - low).

(** Lines 147-158, followed by the bisection it falls into. *)
Fixpoint grow (fuel : nat) (low high : Z) : Async Z :=
  match fuel with
  | O => bisect (bisect_fuel low high) low high
  | S fuel' =>
      if high <=? MAX_DRAW_GUESS then
        let! highDraw := fetchDraw high in
        if highDraw is Some _ then
          let low' := high in
          let high' := Z.min (high * 2) MAX_DRAW_GUESS in
          if low' =? MAX_DRAW_GUESS then Resolve low'
          else grow fuel' low' high'
        else bisect (bisect_fuel low high) low high
      else bisect (bisect_fuel low high) low high
  end.

Definition locate (probe : Z) : Async Z :=
  let! draw := fetchDraw probe in
  if draw is Some _ then
    let high := Z.min (probe * 2) MAX_DRAW_GUESS in
    grow (S (Z.to_nat (MAX_DRAW_GUESS - high))) probe high
  else
    searchDown (Z.to_nat probe) 1 probe.

Context `{Environment}.

Definition findLatestDraw : M Z :=
  let* cache := getCache in
  let probe := if 0 <? latest cache then latest cache else 1100 in
  fun st => run (locate probe) (record Locate st).
End Locator.

(** ** Bounded range fetcher: [fetchRange]

    Six workers share the counter [current].  A worker is either done or
    suspended inside the [fetchDraw] call for the number it claimed.  One
    step of the pool resumes one suspended worker, chosen by the
    schedule, and runs it to its next await: it performs the request or
    the wait its [fetchDraw] is suspended on or, when that call has
    settled, records the outcome and claims the next number.  The answer
    to a request is fixed when its worker is resumed on it.  When a
    worker rejects, [Promise.all] rejects with it.  Nothing cancels the
    other workers: those still suspended stay in the process
    ([abandon]) and go on fetching and storing draws ([stray_step])
    while the process does whatever comes next. *)

Definition is_live (w : Worker) : bool :=
  match w with Awaiting _ _ => true | Finished => false end.

(** Positions of the workers that are still suspended. *)
Fixpoint live_from (i : nat) (ws : list Worker) : list nat :=
  match ws with
  | [] => []
  | w :: rest =>
      if is_live w then i :: live_from (S i) rest else live_from (S i) rest
  end.
Definition live (ws : list Worker) : list nat := live_from 0 ws.

Section RangeFetcher.
Context `{Builtins}.

(** Lines 182-187: take the next number, or leave the loop. *)
Definition claim (end_ : Z) (cur : Z) : Z * Worker :=
  let no := cur in
  if no >? end_ then (cur, Finished)
  else (cur + 1, Awaiting no (fetchDraw no)).

(** [Array.from({ length: CONCURRENCY }, ...)]: every worker runs up to
    its first await as it is created. *)
Fixpoint spawn (n : nat) (end_ : Z) (cur : Z) : Z * list Worker :=
  match n with
  | O => (cur, [])
  | S n' =>
      let '(cur', w) := claim end_ cur in
      let '(cur'', ws) := spawn n' end_ cur' in
      (cur'', w :: ws)
  end.

Context `{Environment}.

(** Resume worker [i], suspended on [no] with [p] left to run.  Either
    the pool carries on, or the worker (and with it [Promise.all])
    rejects. *)
Definition resume (end_ : Z) (i : nat) (no : Z) (p : Async (option Draw))
           (pl : Pool) (st : State) : exn + Pool * State :=
  match p with
  | Resolve draw =>
      let '(cur', w) := claim end_ (current pl) in
      let ws := <[i := w]> (workers pl) in
      match draw with
      | Some d =>
          inr ({| current := cur'; workers := ws;
                  collected := collected pl |},
               modify (fun c => set_draws (<[no := d]> (draws c)) c) st)
      | None =>
          inr ({| current := cur'; workers := ws;
                  collected := collected pl ++ [no] |}, st)
      end
  | Reject e => inl e
  | AwaitFetch n k =>
      let '(r, st') := do_fetch n st in
      inr ({| current := current pl;
              workers := <[i := Awaiting no (k r)]> (workers pl);
              collected := collected pl |}, st')
  | AwaitTimeout ms k =>
      inr ({| current := current pl;
              workers := <[i := Awaiting no k]> (workers pl);
              collected := collected pl |}, do_sleep ms st)
  end.

(** [Promise.all] rejects on worker [i]: the range fetch is over for its
    caller, the workers of [pl] that are still suspended stay behind. *)
Definition abandon (end_ : Z) (i : nat) (pl : Pool) (st : State) : State :=
  let rest := {| current := current pl;
                 workers := <[i := Finished]> (workers pl);
                 collected := collected pl |} in
  if bool_decide (live (workers rest) = []) then st
  else {| lottoCache := lottoCache st; now := now st; log := log st;
          strays := strays st
                    ++ [{| stray_end := end_; stray_pool := rest |}] |}.

(** The pool until [Promise.all] settles.  [origin] and [step] index the
    schedule; [fuel] bounds the steps. *)
Fixpoint pool_run (fuel : nat) (origin step : nat) (end_ : Z)
         (pl : Pool) (st : State) : Outcome (list Z) * State :=
  match fuel with
  | O => (Returned (collected pl), st)
  | S fuel' =>
      let alive := live (workers pl) in
      match alive !! (schedule (origin + step) `mod` length alive)%nat with
      | None => (Returned (collected pl), st)
      | Some i =>
          match workers pl !! i with
          | Some (Awaiting no p) =>
              match resume end_ i no p pl st with
              | inl e => (Thrown e, abandon end_ i pl st)
              | inr (pl', st') => pool_run fuel' origin (S step) end_ pl' st'
              end
          | _ => (Returned (collected pl), st)
          end
      end
  end.

(** Steps a range of [n] numbers can take: three requests, three waits
    and one bookkeeping step each. *)
Definition pool_fuel (start end_ : Z) : nat :=
  (7 * Z.to_nat (end_ - start + 1))%nat.

Definition fetchRange (start end_ : Z) (missing_ : list Z) : M (list Z) :=
  fun st =>
    let '(cur, ws) := spawn CONCURRENCY end_ start in
    pool_run (pool_fuel start end_) (length (log st)) 0 end_
             {| current := cur; workers := ws; collected := missing_ |} st.
End RangeFetcher.

(** ** Leftover workers

    The workers of a rejected range fetch run on in the background.  A
    step resumes one of them exactly as a step of the pool does, except
    that nobody waits for it: a leftover worker that rejects just ends.
    What they request is logged with the requests of the process, what
    they fetch goes into the same [cache.draws]; their [missing] array is
    no longer read by anyone, so it is not followed.  The functions of a
    call ([findLatestDraw], [fetchRange], [updateCache], [GET]) describe
    the steps of the call itself, and [idle_run] the steps leftover
    workers take before or after it.  A call reads nothing of what they
    write: [draws] is read by [buildRanking] only, in one synchronous
    piece.  What is stated of a call without the assumption that
    [strays] is empty is what holds whichever draws are added to
    [draws] meanwhile and whatever the upstream answers; what depends on
    nobody else writing is stated under that assumption. *)

Definition with_strays (ss : list Stray) (st : State) : State :=
  {| lottoCache := lottoCache st; now := now st; log := log st;
     strays := ss |}.

Section Strays.
Context `{Builtins} `{Environment}.

Definition stray_resume (end_ : Z) (i : nat) (no : Z)
           (p : Async (option Draw)) (pl : Pool) (st : State) : Pool * State :=
  match resume end_ i no p pl st with
  | inl _ => ({| current := current pl;
                 workers := <[i := Finished]> (workers pl);
                 collected := collected pl |}, st)
  | inr (pl', st') => (pl', st')
  end.

(** Pool [j] of the leftover ones has made a step; a pool with no worker
    left suspended is forgotten. *)
Definition put_stray (j : nat) (s : Stray) (ss : list Stray) : list Stray :=
  if bool_decide (live (workers (stray_pool s)) = []) then delete j ss
  else <[j := s]> ss.

(** One step in the background: of the leftover pool number [pick.1],
    the suspended worker number [pick.2] is resumed. *)
Definition stray_step (pick : nat * nat) (st : State) : State :=
  match strays st !! pick.1 with
  | None => st
  | Some s =>
      let alive := live (workers (stray_pool s)) in
      match alive !! (pick.2 `mod` length alive)%nat with
      | None => st
      | Some i =>
          match workers (stray_pool s) !! i with
          | Some (Awaiting no p) =>
              let '(pl', st') :=
                stray_resume (stray_end s) i no p (stray_pool s) st in
              with_strays
                (put_stray pick.1
                   {| stray_end := stray_end s; stray_pool := pl' |}
                   (strays st))
                st'
          | _ => st
          end
      end
  end.

(** The leftover workers take the steps [picks], in that order. *)
Definition idle_run (picks : list (nat * nat)) (st : State) : State :=
  foldl (fun s pick => stray_step pick s) st picks.
End Strays.

(** ** Cache coordinator: [updateCache] *)

(** The result of a call that may hand back somebody else's promise. *)
Inductive Served (A : Type) : Type :=
| Done (a : A)
| Joined (handle : nat).
Arguments Done {A} a.
Arguments Joined {A} handle.

Definition is_SyncStart (e : Event) : bool :=
  match e with SyncStart => true | _ => false end.
Definition is_Locate (e : Event) : bool :=
  match e with Locate => true | _ => false end.
Definition syncs (l : list Event) : nat := length (filter is_SyncStart l).
Definition locates (l : list Event) : nat := length (filter is_Locate l).

(** [cache.blockedUntil && Date.now() < cache.blockedUntil] *)
Definition blocked (b : option Z) (t : Z) : bool :=
  match b with
  | Some until => negb (until =? 0) && (t <? until)
  | None => false
  end.

Section Coordinator.
Context `{Builtins} `{Environment}.

(** The body of the async function stored in [cache.inFlight],
    lines 205-230. *)
Definition sync : M Cache :=
  fun st0 =>
    let st := record SyncStart st0 in
    let cache := theCache st in
    if blocked (blockedUntil cache) (now st) then
      let st' := modify (set_updatedAt (now st)) st in
      (Returned (theCache st'), st')
    else
      match findLatestDraw st with
      | (Thrown error, st1) =>
          if String.eqb (name error) "HtmlResponseError" then
            let st2 :=
              modify (set_blockedUntil (Some (now st1 + BLOCK_TTL_MS))) st1 in
            let st3 := modify (set_updatedAt (now st2)) st2 in
            (Returned (theCache st3), st3)
          else (Thrown error, st1)
      | (Returned latest_, st1) =>
          let missing_ : list Z := [] in
          let start :=
            if 0 <? latest (theCache st1) then latest (theCache st1) + 1
            else 1 in
          let ranged :=
            if start <=? latest_ then fetchRange start latest_ missing_ st1
            else (Returned missing_, st1) in
          match ranged with
          | (Thrown error, st2) => (Thrown error, st2)
          | (Returned missing_, st2) =>
              let st3 := modify (set_latest latest_) st2 in
              let st4 := modify (set_updatedAt (now st3)) st3 in
              let st5 := modify (set_missing (Some missing_)) st4 in
              (Returned (theCache st5), st5)
          end
      end.

(** [cache.inFlight = (async () => { ... })()]: the slot holds the
    handle of the sync being started. *)
Definition entered (st : State) : State :=
  modify (set_inFlight (Some (syncs (log st)))) st.

Definition updateCache : M (Served Cache) :=
  fun st0 =>
    let '(_, st) := getCache st0 in
    match inFlight (theCache st) with
    | Some handle => (Returned (Joined handle), st)
    | None =>
        let '(result, st2) := sync (entered st) in
        (* finally *)
        let st3 := modify (set_inFlight None) st2 in
        match result with
        | Returned _ => (Returned (Done (theCache st3)), st3)
        | Thrown error => (Thrown error, st3)
        end
    end.

(** The locator run of the sync that [updateCache] starts in [st]. *)
Definition located (st : State) : Outcome Z * State :=
  findLatestDraw (record SyncStart (entered (with_cache (theCache st) st))).
End Coordinator.

(** ** Served read: [buildRanking] and [GET] *)

Record RankingItem := { num : Z; count : Z }.

Record Ranking := {
  r_counts : list RankingItem;
  r_ranking : list RankingItem;
  r_top6 : list Z;
  r_next6 : list Z;
  r_top18 : list Z;
  r_hasData : bool
}.

Record Body := {
  body_updatedAt : Z;
  latestDraw : Z;
  latestDate : option string;
  totalDraws : nat;
  includeBonus : bool;
  counts : list RankingItem;
  ranking : list RankingItem;
  top6 : list Z;
  next6 : list Z;
  top18 : list Z;
  hasData : bool;
  missingDraws : list Z;
  apiBlockedUntil : option Z
}.

(** [counts[n - 1].count += 1]; an index with no element throws. *)
Definition tally (cs : list RankingItem) (n : jsnum)
  : Outcome (list RankingItem) :=
  match n with
  | Int z =>
      if 0 <=? z - 1 then
        match cs !! Z.to_nat (z - 1) with
        | Some item =>
            Returned (<[Z.to_nat (z - 1) :=
                        {| num := num item; count := count item + 1 |}]> cs)
        | None => Thrown TypeError
        end
      else Thrown TypeError
  | _ => Thrown TypeError
  end.

Fixpoint tally_all (cs : list RankingItem) (ns : list jsnum)
  : Outcome (list RankingItem) :=
  match ns with
  | [] => Returned cs
  | n :: rest =>
      match tally cs n with
      | Returned cs' => tally_all cs' rest
      | Thrown e => Thrown e
      end
  end.

Fixpoint tally_draws (bonus_too : bool) (cs : list RankingItem)
         (ds : list Draw) : Outcome (list RankingItem) :=
  match ds with
  | [] => Returned cs
  | d :: rest =>
      match tally_all cs (numbers d ++ (if bonus_too then [bonus d] else [])) with
      | Returned cs' => tally_draws bonus_too cs' rest
      | Thrown e => Thrown e
      end
  end.

(** The comparator of line 254. *)
Definition compare_items (a b : RankingItem) : Z :=
  if negb (count b =? count a) then count b - count a else num a - num b.

Fixpoint insert_sorted (x : RankingItem) (l : list RankingItem)
  : list RankingItem :=
  match l with
  | [] => [x]
  | y :: rest =>
      if compare_items x y <=? 0 then x :: l else y :: insert_sorted x rest
  end.

(** [Array.prototype.sort] with that comparator (a stable sort). *)
Definition sort_items (l : list RankingItem) : list RankingItem :=
  foldr insert_sorted [] l.

Definition buildRanking (ds : list Draw) (bonus_too : bool) : Outcome Ranking :=
  let zero := map (fun i => {| num := Z.of_nat i + 1; count := 0 |}) (seq 0 45) in
  match tally_draws bonus_too zero ds with
  | Thrown e => Thrown e
  | Returned cs =>
      let rk := sort_items cs in
      let maxCount := match rk with item :: _ => count item | [] => 0 end in
      Returned {| r_counts := cs;
                  r_ranking := rk;
                  r_top6 := map num (take 6 rk);
                  r_next6 := map num (take 6 (drop 6 rk));
                  r_top18 := map num (take 18 rk);
                  r_hasData := 0 <? maxCount |}
  end.

(** Lines 280-303: the body served from [readyCache].  [updatedAt] is
    served as the time stamp it formats.  The draws are visited in key
    order; the tallies do not depend on the order. *)
Definition respond (bonus_too : bool) (readyCache : Cache) : Outcome Body :=
  let missing_ := default [] (missing readyCache) in
  match buildRanking (map snd (map_to_list (draws readyCache))) bonus_too with
  | Thrown e => Thrown e
  | Returned r =>
      let latestDraw_ := draws readyCache !! latest readyCache in
      Returned {| body_updatedAt := updatedAt readyCache;
                  latestDraw := latest readyCache;
                  latestDate := drwNoDate <$> latestDraw_;
                  totalDraws := size (draws readyCache);
                  includeBonus := bonus_too;
                  counts := r_counts r;
                  ranking := r_ranking r;
                  top6 := r_top6 r;
                  next6 := r_next6 r;
                  top18 := r_top18 r;
                  hasData := r_hasData r;
                  missingDraws := missing_;
                  apiBlockedUntil := blockedUntil readyCache |}
  end.

Section Endpoint.
Context `{Builtins} `{Environment}.

(** Lines 277-279: the cache the response is built from. *)
Definition readyCache : M (Served Cache) :=
  fun st0 =>
    let '(_, st) := getCache st0 in
    let cache := theCache st in
    let isFresh := now st - updatedAt cache <? CACHE_TTL_MS in
    if isFresh then (Returned (Done cache), st) else updateCache st.

Definition GET (bonus_too : bool) : M (Served Body) :=
  fun st =>
    match readyCache st with
    | (Thrown e, st') => (Thrown e, st')
    | (Returned (Joined handle), st') => (Returned (Joined handle), st')
    | (Returned (Done ready), st') =>
        match respond bonus_too ready with
        | Thrown e => (Thrown e, st')
        | Returned body => (Returned (Done body), st')
        end
    end.
End Endpoint.

(** ** Concurrent callers

    Requests are handled on one thread: a handler runs until it awaits.
    A caller that finds the cache stale either starts the sync or is
    handed the pending promise; all of them resume when it settles.

    An arriving caller reads [updatedAt] and [inFlight] only, and a sync
    writes [updatedAt] in its last synchronous stretch, so what a caller
    does on arrival does not depend on how far the sync has got.  The
    server therefore keeps the outcome of the pending sync aside
    ([pending]) and makes its writes visible when it settles. *)

Record Caller := { caller_id : nat; caller_bonus : bool }.

Record Server := {
  process : State;
  pending : option (Outcome Cache * State);     (* how the sync will settle *)
  waiting : list Caller;
  replies : list (nat * Outcome Body)
}.

Definition at_time (t : Z) (st : State) : State :=
  {| lottoCache := lottoCache st; now := t; log := log st;
     strays := strays st |}.

(** What a caller suspended on the sync receives when it settles. *)
Definition deliver (result : Outcome Cache) (st : State) (c : Caller)
  : nat * Outcome Body :=
  (caller_id c,
   match result with
   | Returned _ => respond (caller_bonus c) (theCache st)
   | Thrown e => Thrown e
   end).

Section Callers.
Context `{Builtins} `{Environment}.

(** A request arrives at time [t] and runs to its first await: it is
    answered at once from a fresh cache, joins the pending sync
    (line 201), or starts one (line 204). *)
Definition arrive (c : Caller) (t : Z) (srv : Server) : Server :=
  let st := (getCache (at_time t (process srv))).2 in
  let cache := theCache st in
  if t - updatedAt cache <? CACHE_TTL_MS then
    {| process := if pending srv is Some _ then process srv else st;
       pending := pending srv;
       waiting := waiting srv;
       replies := replies srv
                  ++ [(caller_id c, respond (caller_bonus c) cache)] |}
  else
    match inFlight cache with
    | Some _ =>
        {| process := process srv; pending := pending srv;
           waiting := waiting srv ++ [c]; replies := replies srv |}
    | None =>
        {| process := entered st; pending := Some (sync (entered st));
           waiting := waiting srv ++ [c]; replies := replies srv |}
    end.

(** The pending sync settles: its writes become visible, the owner's
    [finally] clears the slot, every suspended caller resumes. *)
Definition settled (srv : Server) : Server :=
  match pending srv with
  | None => srv
  | Some (result, st2) =>
      let st3 := modify (set_inFlight None) st2 in
      {| process := st3; pending := None; waiting := [];
         replies := replies srv ++ map (deliver result st3) (waiting srv) |}
  end.

End Callers.

Definition idle (srv : Server) : Prop :=
  pending srv = None /\ waiting srv = [] /\
  inFlight (theCache (process srv)) = None.

Definition stale_at (srv : Server) (t : Z) : Prop :=
  CACHE_TTL_MS <= t - updatedAt (theCache (process srv)).

(** ** Statement vocabulary *)

Definition in_1_45 (n : jsnum) : Prop := exists z, n = Int z /\ 1 <= z <= 45.

(** A draw as the data model describes it. *)
Definition well_formed (d : Draw) : Prop :=
  length (numbers d) = 6%nat /\ NoDup (numbers d) /\
  Forall in_1_45 (numbers d) /\ in_1_45 (bonus d) /\
  (exists z, drwNo d = Int z /\ 0 < z).

Definition number_fields (data : jsval) : list jsval :=
  [prop data "drwtNo1"; prop data "drwtNo2"; prop data "drwtNo3";
   prop data "drwtNo4"; prop data "drwtNo5"; prop data "drwtNo6"].

(** Draws 1..N exist: every request for one of them is answered with a
    draw, every other request with a well-formed refusal. *)
Definition exists_upto `{Builtins} `{Environment} (N : Z) : Prop :=
  forall i n,
    if decide (n <= N) then exists d, attempt (upstream i n) = Returned (Some d)
    else attempt (upstream i n) = Returned None.

(** The cache invariant of the data model. *)
Definition accounted (c : Cache) : Prop :=
  (forall n, 1 <= n <= latest c ->
     is_Some (draws c !! n) \/ n ∈ default [] (missing c)) /\
  (forall n, is_Some (draws c !! n) -> n <= latest c).

Definition zero_counts : list RankingItem :=
  map (fun n => {| num := n; count := 0 |}) (seqZ 1 45).

(** [p] settles after at most [d] awaits. *)
Fixpoint within {A} (d : nat) (p : Async A) {struct p} : Prop :=
  match p with
  | Resolve _ | Reject _ => True
  | AwaitFetch _ k =>
      match d with O => False | S d' => forall r, within d' (k r) end
  | AwaitTimeout _ k =>
      match d with O => False | S d' => within d' k end
  end.

(** The steps a worker can still take before it next claims a number. *)
Inductive cost : Worker -> nat -> Prop :=
| cost_finished : cost Finished 0
| cost_awaiting no p d : within d p -> cost (Awaiting no p) (S d).

(** ** The pool invariant

    For a range fetch over [start, end_] started from cache [c0] with
    [m0] already in the missing array: where every claimed number is. *)

Section PoolState.
Variables (start end_ : Z) (c0 : Cache) (m0 : list Z).

Definition claimed (pl : Pool) (n : Z) : Prop :=
  start <= n < current pl /\ n <= end_.
Definition held (pl : Pool) (n : Z) : Prop :=
  exists i p, workers pl !! i = Some (Awaiting n p).
Definition stored (st : State) (n : Z) : Prop :=
  is_Some (draws (theCache st) !! n).
Definition known (n : Z) : Prop := is_Some (draws c0 !! n).

Record pool_inv (fresh : list Z) (pl : Pool) (st : State) : Prop := {
  inv_collected : collected pl = m0 ++ fresh;
  inv_current : start <= current pl;
  inv_finished : forall i, workers pl !! i = Some Finished -> end_ < current pl;
  inv_frame : theCache st = set_draws (draws (theCache st)) c0;
  inv_kept : forall n, known n -> stored st n;
  inv_keys : forall n, stored st n -> known n \/ claimed pl n;
  inv_covered : forall n,
    claimed pl n -> held pl n \/ stored st n \/ n ∈ fresh;
  inv_pending : forall i n p,
    workers pl !! i = Some (Awaiting n p) ->
    claimed pl n /\ (n ∉ fresh) /\ (stored st n -> known n) /\
    forall j q, workers pl !! j = Some (Awaiting n q) -> j = i;
  inv_nodup : NoDup fresh;
  inv_fresh : forall n, n ∈ fresh -> claimed pl n /\ (stored st n -> known n)
}.

Definition potential (ds : list nat) (pl : Pool) : nat :=
  (sum_list ds + 7 * Z.to_nat (end_ - current pl + 1))%nat.

End PoolState.

Section Paths.
Context `{Builtins} `{Environment}.

(** The ways through [updateCache] when no sync is pending. *)
Inductive Path (st : State) : Outcome (Served Cache) -> State -> Prop :=
| path_blocked st' :
    blocked (blockedUntil (theCache st)) (now st) = true ->
    theCache st' = set_updatedAt (now st) (theCache st) ->
    now st' = now st -> log st' = SyncStart :: log st ->
    Path st (Returned (Done (theCache st'))) st'
| path_walled e st1 st' :
    blocked (blockedUntil (theCache st)) (now st) = false ->
    located st = (Thrown e, st1) ->
    String.eqb (name e) "HtmlResponseError" = true ->
    theCache st' =
      set_updatedAt (now st1)
        (set_blockedUntil (Some (now st1 + BLOCK_TTL_MS)) (theCache st)) ->
    now st' = now st1 -> log st' = log st1 ->
    Path st (Returned (Done (theCache st'))) st'
| path_failed e st1 st' :
    blocked (blockedUntil (theCache st)) (now st) = false ->
    located st = (Thrown e, st1) ->
    String.eqb (name e) "HtmlResponseError" = false ->
    Path st (Thrown e) st'
| path_current L st1 st' :
    blocked (blockedUntil (theCache st)) (now st) = false ->
    located st = (Returned L, st1) ->
    L < (if 0 <? latest (theCache st) then latest (theCache st) + 1 else 1) ->
    theCache st' =
      set_missing (Some [])
        (set_updatedAt (now st1) (set_latest L (theCache st))) ->
    now st' = now st1 -> log st' = log st1 ->
    Path st (Returned (Done (theCache st'))) st'
| path_ranged L st1 m st2 st' :
    blocked (blockedUntil (theCache st)) (now st) = false ->
    located st = (Returned L, st1) ->
    (if 0 <? latest (theCache st) then latest (theCache st) + 1 else 1) <= L ->
    theCache st1 = set_inFlight (inFlight (theCache st1)) (theCache st) ->
    fetchRange
      (if 0 <? latest (theCache st) then latest (theCache st) + 1 else 1)
      L [] st1 = (Returned m, st2) ->
    theCache st' =
      set_missing (Some m)
        (set_updatedAt (now st2)
           (set_latest L (set_draws (draws (theCache st2)) (theCache st)))) ->
    now st' = now st2 -> log st' = log st2 ->
    Path st (Returned (Done (theCache st'))) st'
| path_aborted L st1 e st2 st' :
    blocked (blockedUntil (theCache st)) (now st) = false ->
    located st = (Returned L, st1) ->
    fetchRange
      (if 0 <? latest (theCache st) then latest (theCache st) + 1 else 1)
      L [] st1 = (Thrown e, st2) ->
    Path st (Thrown e) st'.

End Paths.

(** Events that start neither a sync nor a locator run. *)
Definition quiet (more : list Event) : Prop :=
  syncs more = 0%nat /\ locates more = 0%nat.


(** ** Sample upstream bodies and environments *)

Definition units (s : string) : text :=
  map (fun a => Ascii.N_of_ascii a) (String.list_ascii_of_string s).
Definition quoted (s : string) : text := 34%N :: units s ++ [34%N].
Definition member (k : string) (v : text) : text :=
  quoted k ++ units ":" ++ v.
Fixpoint joined (parts : list text) : text :=
  match parts with
  | [] => []
  | [x] => x
  | x :: rest => x ++ units "," ++ joined rest
  end.
Definition object (ms : list text) : text :=
  units "{" ++ joined ms ++ units "}".

(** The reply for a draw that does not exist yet. *)
Definition fail_body : text := object [member "returnValue" (quoted "fail")].
Definition fail_value : jsval := JObj [("returnValue", JStr "fail")].

(** The reply for draw 1. *)
Definition draw_body : text :=
  object [member "returnValue" (quoted "success"); member "drwNo" (units "1");
          member "drwNoDate" (quoted "2002-12-07");
          member "drwtNo1" (units "10"); member "drwtNo2" (units "23");
          member "drwtNo3" (units "29"); member "drwtNo4" (units "33");
          member "drwtNo5" (units "37"); member "drwtNo6" (units "40");
          member "bnusNo" (units "16")].
Definition draw_value : jsval :=
  JObj [("returnValue", JStr "success"); ("drwNo", JNum (Int 1));
        ("drwNoDate", JStr "2002-12-07");
        ("drwtNo1", JNum (Int 10)); ("drwtNo2", JNum (Int 23));
        ("drwtNo3", JNum (Int 29)); ("drwtNo4", JNum (Int 33));
        ("drwtNo5", JNum (Int 37)); ("drwtNo6", JNum (Int 40));
        ("bnusNo", JNum (Int 16))].

(** A reply that says success but repeats a number, leaves the range
    1..45 and carries no draw number. *)
Definition odd_body : text :=
  object [member "returnValue" (quoted "success");
          member "drwtNo1" (units "7"); member "drwtNo2" (units "7");
          member "drwtNo3" (units "7"); member "drwtNo4" (units "7");
          member "drwtNo5" (units "7"); member "drwtNo6" (units "99");
          member "bnusNo" (units "0")].
Definition odd_value : jsval :=
  JObj [("returnValue", JStr "success");
        ("drwtNo1", JNum (Int 7)); ("drwtNo2", JNum (Int 7));
        ("drwtNo3", JNum (Int 7)); ("drwtNo4", JNum (Int 7));
        ("drwtNo5", JNum (Int 7)); ("drwtNo6", JNum (Int 99));
        ("bnusNo", JNum (Int 0))].

(** An interstitial page served instead of data. *)
Definition html_body : text := units "  <!DOCTYPE html><html></html>".

Fixpoint lookup_body (table : list (text * jsval)) (raw : text)
  : option jsval :=
  match table with
  | [] => None
  | (b, v) :: rest =>
      if bool_decide (raw = b) then Some v else lookup_body rest raw
  end.

(** [JSON.parse] on the sample bodies; the coercions of strings and
    objects are not exercised by them. *)
Definition sample_builtins : Builtins :=
  {| JSON_parse := lookup_body [(fail_body, fail_value);
                                (draw_body, draw_value);
                                (odd_body, odd_value)];
     StringToNumber := fun _ => NaN;
     ObjectToNumber := fun _ => NaN;
     ToString := fun _ => "undefined"%string |}.

Definition ok_json (raw : text) : Response := Reply true 200 true raw.
Definition ok_html : Response := Reply true 200 false html_body.

(** Draws 1..N exist, every request is answered, workers finish in
    order. *)
Definition upto (N : Z) : Environment :=
  {| upstream := fun _ n =>
       if n <=? N then ok_json draw_body else ok_json fail_body;
     elapsed := fun _ => 1;
     schedule := fun _ => 0%nat |}.

(** The upstream answers every request with the interstitial page. *)
Definition walled : Environment :=
  {| upstream := fun _ _ => ok_html;
     elapsed := fun _ => 1;
     schedule := fun _ => 0%nat |}.

(** Every request is answered with the odd reply. *)
Definition odd_upstream : Environment :=
  {| upstream := fun _ _ => ok_json odd_body;
     elapsed := fun _ => 1;
     schedule := fun _ => 0%nat |}.

(** Draws 1..N exist, but the request for draw [bad] is answered as
    [sick] says. *)
Definition upto_except (N bad : Z) (sick : Response) : Environment :=
  {| upstream := fun _ n =>
       if n =? bad then sick
       else if n <=? N then ok_json draw_body else ok_json fail_body;
     elapsed := fun _ => 1;
     schedule := fun _ => 0%nat |}.

(** A process that has not served anything yet. *)
Definition boot (t : Z) : State :=
  {| lottoCache := None; now := t; log := []; strays := [] |}.

Definition http_500 : Response := Reply false 500 false [].

(** A clock reading at which a new process finds its cache stale. *)
Definition t0 : Z := 1700000000000.

(** Draws 1..N exist and are answered with the odd reply. *)
Definition odd_upto (N : Z) : Environment :=
  {| upstream := fun _ n =>
       if n <=? N then ok_json odd_body else ok_json fail_body;
     elapsed := fun _ => 1;
     schedule := fun _ => 0%nat |}.

(** Draws 1..6 exist.  The first 14 requests of the process find the
    interstitial page in place of draw 3; from the 15th on draw 3 is
    served and draw 2 fails. *)
Definition relapsing : Environment :=
  {| upstream := fun i n =>
       if (n =? 3) && (i <? 14)%nat then ok_html
       else if (n =? 2) && (14 <=? i)%nat then http_500
       else if n <=? 6 then ok_json draw_body else ok_json fail_body;
     elapsed := fun _ => 1;
     schedule := fun _ => 0%nat |}.

(** Draws 1..6 exist.  The first 14 requests of the process find the
    interstitial page in place of draw 3, and the 15th request finds it
    whatever it asks for. *)
Definition interrupted : Environment :=
  {| upstream := fun i n =>
       if (n =? 3) && (i <? 14)%nat then ok_html
       else if (i =? 14)%nat then ok_html
       else if n <=? 6 then ok_json draw_body else ok_json fail_body;
     elapsed := fun _ => 1; schedule := fun _ => 0%nat |}.

(** A cache that recorded a block at time 1000. *)
Definition blocked_state (t : Z) : State :=
  {| lottoCache := Some (set_blockedUntil (Some (1000 + BLOCK_TTL_MS))
                           (set_updatedAt 1000 freshCache));
     now := t; log := []; strays := [] |}.


(** ** What a computation may do

    [behaves P Q r p]: every request of [p] is for a number in [P], [p]
    makes at most [r] requests, a value it resolves to is in [Q], and the
    only error it rejects with is the anomalous-response error. *)
Fixpoint behaves {A} (P : Z -> Prop) (Q : A -> Prop) (r : nat) (p : Async A)
  {struct p} : Prop :=
  match p with
  | Resolve a => Q a
  | Reject e => e = HtmlResponseError
  | AwaitFetch no k =>
      P no /\
      match r with
      | O => False
      | S r' => forall resp, behaves P Q r' (k resp)
      end
  | AwaitTimeout _ k => behaves P Q r k
  end.

(** Every request among the events [more] is for a number in [P]. *)
Definition asked (P : Z -> Prop) (more : list Event) : Prop :=
  forall no, Request no ∈ more -> P no.

(** The requests a worker can still make before it next claims a number. *)
Inductive load : Worker -> nat -> Prop :=
| load_finished : load Finished 0
| load_awaiting no p r :
    behaves (fun n => n = no) (fun _ => True) r p -> load (Awaiting no p) r.

(** ** Vocabulary of the ranking *)

#[global] Instance jsnum_eq_dec : EqDecision jsnum.
Proof. solve_decision. Defined.

#[global] Instance RankingItem_eq_dec : EqDecision RankingItem.
Proof. solve_decision. Defined.

(** The numbers [buildRanking] tallies, in the order it visits them. *)
Definition tallied (bonus_too : bool) (ds : list Draw) : list jsnum :=
  concat (map (fun d => numbers d ++ (if bonus_too then [bonus d] else [])) ds).

(** How often the number [n] occurs among [ns]. *)
Definition occurrences (n : Z) (ns : list jsnum) : Z :=
  Z.of_nat (length (filter (fun x => x = Int n) ns)).

(** The order of the comparator of line 254: more frequent first, the
    smaller number first among equally frequent ones. *)
Definition ranks_before (a b : RankingItem) : Prop :=
  count b < count a \/ (count a = count b /\ num a <= num b).

(** The counts array when [f n] occurrences of [n] have been tallied. *)
Definition table (f : Z -> Z) : list RankingItem :=
  map (fun n => {| num := n; count := f n |}) (seqZ 1 45).

(** ** The recommendation page: [src/app/page.tsx]

    The page ranks a table of counts ([buildRankingFromCounts]) and draws
    six numbers from it in one of four ways.  Counts and lottery numbers
    are integers.  The weights of [weightedPick] are doubles: what the
    page does with them (powers, sums, differences, comparisons) and
    [Math.random] are parameters ([Doubles]).  A function that draws
    random values takes the number of values drawn so far and returns
    it with its result. *)

Class Doubles := {
  double : Type;
  of_int : Z -> double;                    (* an integer as a double *)
  decimal : Z -> nat -> double;            (* the literal m / 10^e *)
  dadd : double -> double -> double;
  dsub : double -> double -> double;
  dmul : double -> double -> double;
  dpow : double -> double -> double;       (* x ** y *)
  dgt : double -> double -> bool;          (* x > y *)
  dfloor : double -> Z;                    (* Math.floor, on a finite value *)
  Math_random : nat -> double;             (* the k-th value of Math.random() *)
  (* [Math.random()] is at least 0 and less than 1, and rounding the
     product with an array length does not reach that length. *)
  random_index : forall k n, 0 < n ->
    0 <= dfloor (dmul (Math_random k) (of_int n)) < n
}.

(** [(a, b) => a - b] *)
Definition compare_numbers (a b : Z) : Z := a - b.

Fixpoint insert_number (x : Z) (l : list Z) : list Z :=
  match l with
  | [] => [x]
  | y :: rest =>
      if compare_numbers x y <=? 0 then x :: l else y :: insert_number x rest
  end.

(** [picked.sort((a, b) => a - b)] *)
Definition sort_numbers (l : list Z) : list Z := foldr insert_number [] l.

(** [l.slice(0, size)] *)
Definition slice0 {A} (size : Z) (l : list A) : list A :=
  if size <? 0 then take (length l - Z.to_nat (- size)) l
  else take (Z.to_nat size) l.

(** [[data[i], data[j]] = [data[j], data[i]]], both indices in range. *)
Definition swap {A} (i j : nat) (data : list A) : list A :=
  match data !! i, data !! j with
  | Some x, Some y => <[j := x]> (<[i := y]> data)
  | _, _ => data
  end.

(** The five colour classes of [page.module.css]. *)
Inductive BallClass : Type :=
| styles_c1 | styles_c2 | styles_c3 | styles_c4 | styles_c5.

Inductive AlgoMode : Type := weighted | balanced | filtered | probabilistic.

Record Listing := {
  l_counts : list RankingItem;
  l_ranking : list RankingItem;
  l_hasData : bool
}.

Definition IMAGE_COUNTS : list RankingItem :=
  map (fun p => {| num := p.1; count := p.2 |})
    [(34, 181); (12, 177); (27, 176); (13, 174); (18, 172); (33, 172);
     (37, 171); (40, 171); (45, 171); (3, 169); (14, 169); (17, 168);
     (7, 167); (20, 167); (1, 166); (16, 166); (38, 166); (19, 165);
     (39, 165); (21, 164); (6, 163); (11, 163); (24, 163); (26, 163);
     (31, 163); (15, 162); (43, 162); (36, 161); (35, 160); (4, 159);
     (44, 159); (10, 158); (30, 155); (8, 154); (42, 153); (2, 152);
     (29, 152); (5, 151); (28, 151); (25, 148); (41, 146); (23, 145);
     (22, 141); (32, 141); (9, 132)].

(** Lines 131-154. *)
Definition buildRankingFromCounts (counts : list RankingItem) : Listing :=
  let fullCounts :=
    map (fun index =>
           let num_ := Z.of_nat index + 1 in
           let found := find (fun item => num item =? num_) counts in
           {| num := num_;
              count := match found with
                       | Some item => count item
                       | None => 0
                       end |})
        (seq 0 45) in
  let rk := sort_items fullCounts in
  let maxCount := match rk with item :: _ => count item | [] => 0 end in
  {| l_counts := fullCounts; l_ranking := rk; l_hasData := 0 <? maxCount |}.

(** Lines 156-170. *)
Definition getBallClass (n : Z) : BallClass :=
  if n <=? 10 then styles_c1
  else if n <=? 20 then styles_c2
  else if n <=? 30 then styles_c3
  else if n <=? 40 then styles_c4
  else styles_c5.

Section Page.
Context `{Doubles}.

(** The loop of lines 64-67, from index [i] down to 1. *)
Fixpoint shuffle_loop {A} (i : nat) (data : list A) (k : nat) : list A * nat :=
  match i with
  | O => (data, k)
  | S i' =>
      let j := Z.to_nat (dfloor (dmul (Math_random k)
                                      (of_int (Z.of_nat i + 1)))) in
      shuffle_loop i' (swap i j data) (S k)
  end.

Definition shuffle {A} (items : list A) (k : nat) : list A * nat :=
  shuffle_loop (length items - 1) items k.

Record Weighted := { w_num : Z; w_weight : double }.

(** The loop of lines 86-89 over what is left of [local] from [idx]. *)
Fixpoint spin (rest : list Weighted) (r : double) (idx : nat) : nat :=
  match rest with
  | [] => idx
  | item :: rest' =>
      if dgt r (w_weight item)
      then spin rest' (dsub r (w_weight item)) (S idx)
      else idx
  end.

(** The loop of lines 82-93, with [n] iterations to go.  [local] is not
    empty where an entry is chosen, and the index is one of its own. *)
Fixpoint pick_loop (n : nat) (local : list Weighted) (picked : list Z)
         (k : nat) : list Z * nat :=
  match n with
  | O => (picked, k)
  | S n' =>
      match local with
      | [] => (picked, k)
      | first :: _ =>
          let total :=
            foldl (fun sum item => dadd sum (w_weight item)) (of_int 0) local in
          let r := dmul (Math_random k) total in
          let idx := spin local r 0 in
          let at_ := Nat.min idx (length local - 1) in
          let chosen := default first (local !! at_) in
          pick_loop n' (delete at_ local) (picked ++ [w_num chosen]) (S k)
      end
  end.

(** Lines 71-95. *)
Definition weightedPick (counts : list RankingItem) (size : Z) (power : double)
           (k : nat) : list Z * nat :=
  let pool :=
    map (fun item => {| w_num := num item;
                        w_weight :=
                          dpow (of_int (Z.max 1 (count item))) power |})
        counts in
  let '(picked, k') := pick_loop (Z.to_nat size) pool [] k in
  (sort_numbers picked, k').

(** Lines 102-105; pushing to a group that does not exist throws. *)
Fixpoint fill_groups (groups : list (list Z)) (counts : list RankingItem)
  : Outcome (list (list Z)) :=
  match counts with
  | [] => Returned groups
  | item :: rest =>
      let idx := Z.min ((num item - 1) / 10) 4 in
      if idx <? 0 then Thrown TypeError
      else
        match groups !! Z.to_nat idx with
        | Some group =>
            fill_groups (<[Z.to_nat idx := group ++ [num item]]> groups) rest
        | None => Thrown TypeError
        end
  end.

(** Lines 107-111, from the target at position [idx] on; shuffling a
    group that does not exist throws. *)
Fixpoint draw_groups (targets : list Z) (idx : nat) (groups : list (list Z))
         (result : list Z) (k : nat) : Outcome (list Z * nat) :=
  match targets with
  | [] => Returned (result, k)
  | size :: rest =>
      match groups !! idx with
      | Some group =>
          let '(shuffled, k') := shuffle group k in
          draw_groups rest (S idx) groups (result ++ slice0 size shuffled) k'
      | None => Thrown TypeError
      end
  end.

(** Lines 97-113. *)
Definition balancedPick (counts : list RankingItem) (groupTargets : list Z)
           (k : nat) : Outcome (list Z * nat) :=
  match fill_groups [[]; []; []; []; []] counts with
  | Thrown e => Thrown e
  | Returned groups =>
      match draw_groups groupTargets 0 groups [] k with
      | Thrown e => Thrown e
      | Returned (result, k') => Returned (take 6 (sort_numbers result), k')
      end
  end.

(** The default of [groupTargets]. *)
Definition default_targets : list Z := [1; 1; 1; 1; 2].

(** [odds === 3 && sum >= 90 && sum <= 180] *)
Definition passes_filter (pick : list Z) : bool :=
  let odds := length (filter (fun n => Z.rem n 2 = 1) pick) in
  let sum := foldl Z.add 0 pick in
  bool_decide (odds = 3%nat) && (90 <=? sum) && (sum <=? 180).

(** The loop of lines 116-123 with [n] attempts to go, and line 124. *)
Fixpoint filtered_loop (n : nat) (counts : list RankingItem) (k : nat)
  : list Z * nat :=
  match n with
  | O => weightedPick counts 6 (decimal 11 1) k
  | S n' =>
      let '(pick, k') := weightedPick counts 6 (decimal 12 1) k in
      if passes_filter pick then (pick, k')
      else filtered_loop n' counts k'
  end.

Definition filteredPick (counts : list RankingItem) (k : nat) : list Z * nat :=
  filtered_loop 200 counts k.

Definition probabilisticPick (counts : list RankingItem) (k : nat)
  : list Z * nat :=
  weightedPick counts 6 (decimal 10 1) k.

(** [baseRanking], line 176. *)
Definition baseRanking : list RankingItem :=
  l_ranking (buildRankingFromCounts IMAGE_COUNTS).

(** The pick [buildAlgoPick] hands to [setAlgoPick], lines 181-200; the
    four modes leave nothing to the default case. *)
Definition buildAlgoPick (algoMode : AlgoMode) (k : nat)
  : Outcome (list Z * nat) :=
  let counts := baseRanking in
  match algoMode with
  | weighted => Returned (weightedPick counts 6 (decimal 14 1) k)
  | balanced => balancedPick counts default_targets k
  | filtered => Returned (filteredPick counts k)
  | probabilistic => Returned (probabilisticPick counts k)
  end.
End Page.

(** The count [buildRankingFromCounts] finds for the number [n]: that of
    the first entry for it, 0 when there is none. *)
Definition first_count (counts : list RankingItem) (n : Z) : Z :=
  match find (fun item => num item =? n) counts with
  | Some item => count item
  | None => 0
  end.

(** The decade a number is grouped into by [balancedPick], line 103. *)
Definition group_of (n : Z) : Z := Z.min ((n - 1) / 10) 4.

Definition class_index (c : BallClass) : Z :=
  match c with
  | styles_c1 => 0 | styles_c2 => 1 | styles_c3 => 2 | styles_c4 => 3
  | styles_c5 => 4
  end.

(** A source of chance for the examples: fixed-point numbers with 53
    fractional bits; powers are not computed, every exponent is taken
    for 1. *)
Definition fixed_point : Doubles.
Proof.
  refine {| double := Z;
            of_int := fun n => n * 2 ^ 53;
            decimal := fun m e => m * 2 ^ 53 / 10 ^ Z.of_nat e;
            dadd := Z.add;
            dsub := Z.sub;
            dmul := fun x y => x * y / 2 ^ 53;
            dpow := fun x _ => x;
            dgt := Z.gtb;
            dfloor := fun x => x / 2 ^ 53;
            Math_random := fun k =>
              (Z.of_nat k * 6364136223846793005 + 1442695040888963407)
                mod 2 ^ 53 |}.
  intros k n Hn.
  set (x := (_ mod 2 ^ 53)).
  assert (0 <= x < 2 ^ 53) as Hx by (apply Z.mod_pos_bound; lia).
  rewrite Z.mul_assoc, Z.div_mul by lia.
  split.
  - apply Z.div_pos; nia.
  - apply Z.div_lt_upper_bound; nia.
Defined.

(** Two draws as the upstream reports them. *)
Definition first_draw : Draw :=
  {| drwNo := Int 1; drwNoDate := "2002-12-07";
     numbers := [Int 10; Int 23; Int 29; Int 33; Int 37; Int 40];
     bonus := Int 16 |}.
Definition second_draw : Draw :=
  {| drwNo := Int 2; drwNoDate := "2002-12-14";
     numbers := [Int 9; Int 13; Int 21; Int 25; Int 32; Int 42];
     bonus := Int 10 |}.


(** * Proofs *)

(** ** The fetcher *)

Section FetcherFacts.
Context `{Builtins} `{Environment}.

Lemma run_bind {A B} (m : Async A) (f : A -> Async B) st :
  run (bind m f) st =
  match run m st with
  | (Returned a, st') => run (f a) st'
  | (Thrown e, st') => (Thrown e, st')
  end.
Proof.
  revert st. induction m as [a|e|no k IH|ms k IH]; intros st; simpl; auto.
Qed.

Lemma run_catch {A} (m : Async A) (h : exn -> Async A) st :
  run (catch m h) st =
  match run m st with
  | (Returned a, st') => (Returned a, st')
  | (Thrown e, st') => run (h e) st'
  end.
Proof.
  revert st. induction m as [a|e|no k IH|ms k IH]; intros st; simpl; auto.
Qed.

Lemma run_settle {A} (o : Outcome A) st : run (settle o) st = (o, st).
Proof. by destruct o. Qed.

Lemma run_fetchDrawOnce no st :
  run (fetchDrawOnce no) st =
  (attempt (upstream (requests (log st)) no), (do_fetch no st).2).
Proof.
  unfold fetchDrawOnce, fetchJson, attempt. simpl.
  destruct (readJson _) as [data|e]; simpl; [apply run_settle|done].
Qed.

Lemma requests_retry l no ms :
  requests (Sleep ms :: Request no :: l) = S (requests l).
Proof. done. Qed.

Lemma html_by_name e :
  String.eqb (name e) "HtmlResponseError" = true -> e = HtmlResponseError.
Proof. by destruct e. Qed.

Lemma fetchDraw_loop_spec no left : forall a st,
  exists k : nat,
    (k <= left)%nat /\
    (forall j, (j < k)%nat ->
       retried (attempt (upstream (requests (log st) + j) no)) = true) /\
    rev (log (run (fetchDraw_loop left a no) st).2) =
      rev (log st) ++ retry_trace no a k
        ++ (if decide (k = left) then [] else [Request no]) /\
    (run (fetchDraw_loop left a no) st).1 =
      (if decide (k = left) then Returned None
       else attempt (upstream (requests (log st) + k) no)) /\
    (k <> left ->
       retried (attempt (upstream (requests (log st) + k) no)) = false).
Proof.
  induction left as [|left IH]; intros a st.
  - exists 0%nat. simpl. rewrite app_nil_r. repeat split; try done; lia.
  - cbn [fetchDraw_loop]. rewrite run_catch, run_fetchDrawOnce.
    destruct (retried (attempt (upstream (requests (log st)) no))) eqn:Hr.
    + destruct (attempt _) as [d|e] eqn:Ha; [done|]. simpl in Hr.
      apply negb_true_iff in Hr. rewrite Hr. cbn [run].
      set (st1 := do_sleep (250 * (a + 1)) (do_fetch no st).2).
      assert (Hl : log st1 = Sleep (250 * (a + 1)) :: Request no :: log st)
        by done.
      destruct (IH (a + 1) st1) as (k & Hk & Hpre & Hlog & Hres & Hlast).
      rewrite Hl, requests_retry in *.
      exists (S k).
      split; [lia|]. split; [|split; [|split]].
      * intros [|j] Hj.
        -- rewrite Nat.add_0_r, Ha. simpl. by rewrite Hr.
        -- rewrite <- Nat.add_succ_comm. apply Hpre. lia.
      * rewrite Hlog. cbn [rev retry_trace]. rewrite <- !app_assoc. simpl.
        repeat f_equal. destruct (decide (k = left)), (decide (S k = S left));
          try done; lia.
      * rewrite Hres, <- Nat.add_succ_comm.
        destruct (decide (k = left)), (decide (S k = S left)); try done; lia.
      * intros Hne. rewrite <- Nat.add_succ_comm. apply Hlast. lia.
    + exists 0%nat. rewrite Nat.add_0_r. split; [lia|]. split; [intros; lia|].
      assert (Hrun :
        (match attempt (upstream (requests (log st)) no) with
         | Returned a0 => (Returned a0, (do_fetch no st).2)
         | Thrown e =>
             run (if String.eqb (name e) "HtmlResponseError" then Reject e
                  else AwaitTimeout (250 * (a + 1))
                         (fetchDraw_loop left (a + 1) no))
                 (do_fetch no st).2
         end) = (attempt (upstream (requests (log st)) no), (do_fetch no st).2)).
      { destruct (attempt _) as [d|e]; [done|]. simpl in Hr.
        apply negb_false_iff in Hr. by rewrite Hr. }
      rewrite Hrun. simpl. repeat split; try done.
Qed.
End FetcherFacts.


(** C7.  [fetchDraw] settles in one of three ways only: a draw, null, or
    the anomalous-response error.  It makes at most [RETRIES + 1] requests.
    The first [k] attempts fail with an error that is retried, each
    followed by a wait of 250, 500, 750 ms.  When all three fail the call
    resolves to null; otherwise attempt [k] decides the outcome and is the
    last request made, so an anomalous response is rethrown at once. *)
Theorem fetchDraw_retry_policy `{Builtins} `{Environment} (no : Z) (st : State) :
  let i := requests (log st) in
  let result := (run (fetchDraw no) st).1 in
  let st' := (run (fetchDraw no) st).2 in
  ((exists d, result = Returned (Some d)) \/ result = Returned None \/
   result = Thrown HtmlResponseError) /\
  exists k : nat,
    (k <= Z.to_nat (RETRIES + 1))%nat /\
    Forall (fun j => retried (attempt (upstream (i + j) no)) = true) (seq 0 k) /\
    if decide (k = Z.to_nat (RETRIES + 1)) then
      result = Returned None /\
      rev (log st') = rev (log st) ++
        [Request no; Sleep 250; Request no; Sleep 500; Request no; Sleep 750]
    else
      retried (attempt (upstream (i + k) no)) = false /\
      result = attempt (upstream (i + k) no) /\
      rev (log st') = rev (log st) ++ retry_trace no 0 k ++ [Request no].
Proof.
  intros i result st'.
  destruct (fetchDraw_loop_spec no (Z.to_nat (RETRIES + 1)) 0 st)
    as (k & Hk & Hpre & Hlog & Hres & Hlast).
  fold (fetchDraw no) in Hlog, Hres. fold result in Hres. fold st' in Hlog.
  fold i in Hpre, Hres, Hlast.
  split.
  - rewrite Hres. destruct (decide _) as [|Hne]; [by auto|].
    specialize (Hlast Hne).
    destruct (attempt _) as [[d|]|e]; eauto.
    right; right. simpl in Hlast. apply negb_false_iff, html_by_name in Hlast.
    by subst.
  - exists k. split; [done|]. split.
    + apply Forall_forall. intros j Hj. apply Hpre.
      apply elem_of_seq in Hj. lia.
    + destruct (decide _) as [->|Hne]; [by rewrite Hlog|].
      rewrite Hlog. auto.
Qed.

(** An attempt that does not throw decides the call. *)
Lemma fetchDraw_first_attempt `{Builtins} `{Environment} no st x :
  attempt (upstream (requests (log st)) no) = Returned x ->
  run (fetchDraw no) st = (Returned x, (do_fetch no st).2).
Proof.
  intros Ha. unfold fetchDraw. change (Z.to_nat (RETRIES + 1)) with 3%nat.
  cbn [fetchDraw_loop]. by rewrite run_catch, run_fetchDrawOnce, Ha.
Qed.

Lemma parseDraw_Some `{Builtins} data d :
  parseDraw data = Returned (Some d) ->
  is_success (prop data "returnValue") = true /\
  numbers d = map Number (number_fields data) /\
  bonus d = Number (prop data "bnusNo") /\
  existsb isNaN (numbers d) = false /\ isNaN (bonus d) = false.
Proof.
  unfold parseDraw.
  destruct (is_success _) eqn:Hs; simpl.
  - destruct (_ || _) eqn:Hn.
    + by destruct data.
    + intros Hd. assert (Hd' : Returned (Some
          {| drwNo := Number (prop data "drwNo");
             drwNoDate := String_ (prop data "drwNoDate");
             numbers := map Number (number_fields data);
             bonus := Number (prop data "bnusNo") |}) = Returned (Some d))
        by (by destruct data).
      injection Hd' as <-. simpl. apply orb_false_iff in Hn. by destruct Hn.
  - by destruct data.
Qed.

Lemma fetchDraw_Some `{Builtins} `{Environment} no st d :
  (run (fetchDraw no) st).1 = Returned (Some d) ->
  exists r data, readJson r = Returned data /\ parseDraw data = Returned (Some d).
Proof.
  intros Hrun.
  destruct (fetchDraw_loop_spec no (Z.to_nat (RETRIES + 1)) 0 st)
    as (k & _ & _ & _ & Hres & _).
  fold (fetchDraw no) in Hres. rewrite Hrun in Hres.
  destruct (decide _); [done|].
  exists (upstream (requests (log st) + k) no).
  unfold attempt in Hres. destruct (readJson _) as [data|]; [|done].
  by exists data.
Qed.

(** C9, as the code has it.  A draw returned by [fetchDraw] carries
    exactly six winning numbers, none of them NaN, and a bonus that is not
    NaN.  A parsed reply other than null is reported as null exactly when
    its success flag is missing or one of its seven number fields
    converts to NaN, and yields a draw otherwise; so does [fetchDraw] when
    that reply answers its first attempt.  Nothing checks that the
    numbers are distinct, lie in 1..45 or that the draw number is a
    positive integer. *)
Theorem fetchDraw_rejects_NaN_only `{Builtins} `{Environment} :
  (forall no st d,
     (run (fetchDraw no) st).1 = Returned (Some d) ->
     length (numbers d) = 6%nat /\
     Forall (fun n => isNaN n = false) (numbers d) /\
     isNaN (bonus d) = false) /\
  (forall data,
     data <> JNull -> data <> JUndefined ->
     let unfit :=
       is_success (prop data "returnValue") = false \/
       existsb isNaN (map Number (number_fields data)) = true \/
       isNaN (Number (prop data "bnusNo")) = true in
     (unfit -> parseDraw data = Returned None) /\
     (~ unfit -> exists d, parseDraw data = Returned (Some d)) /\
     forall n s,
       readJson (upstream (requests (log s)) n) = Returned data ->
       (unfit -> (run (fetchDraw n) s).1 = Returned None) /\
       (~ unfit -> exists d, (run (fetchDraw n) s).1 = Returned (Some d))).
Proof.
  split.
  - intros no st d Hrun.
    destruct (fetchDraw_Some _ _ _ Hrun) as (r & data & _ & Hd).
    apply parseDraw_Some in Hd as (_ & Hn & _ & Hnan & Hb).
    split; [by rewrite Hn|]. split; [|done].
    apply Forall_forall. intros n Hin.
    destruct (isNaN n) eqn:E; [|done].
    assert (existsb isNaN (numbers d) = true); [|congruence].
    apply existsb_exists. exists n. split; [|done]. by apply list_elem_of_In.
  - intros data Hnull Hundef unfit.
    assert (Hbad : unfit -> parseDraw data = Returned None).
    { intros Hbad. unfold parseDraw.
      destruct (is_success _) eqn:Hs; simpl.
      - destruct Hbad as [|[Hbad|Hbad]]; [done| |].
        + unfold number_fields in Hbad. simpl in Hbad. simpl. rewrite Hbad.
          by destruct data.
        + rewrite Hbad, orb_true_r. by destruct data.
      - by destruct data. }
    assert (Hgood : ~ unfit -> exists d, parseDraw data = Returned (Some d)).
    { intros Hfit. unfold parseDraw.
      destruct (is_success (prop data "returnValue")) eqn:Hs;
        [|exfalso; apply Hfit; by left].
      destruct (existsb isNaN (map Number (number_fields data))) eqn:Hn;
        [exfalso; apply Hfit; right; by left|].
      destruct (isNaN (Number (prop data "bnusNo"))) eqn:Hb;
        [exfalso; apply Hfit; right; by right|].
      unfold number_fields in Hn. cbn [map] in Hn.
      rewrite Hn. destruct data; try done; by eexists. }
    split; [done|]. split; [done|]. intros n s Hread. split.
    + intros Hu. erewrite fetchDraw_first_attempt; [done|].
      unfold attempt. rewrite Hread. by apply Hbad.
    + intros Hfit. destruct (Hgood Hfit) as [d Hd]. exists d.
      erewrite fetchDraw_first_attempt; [done|].
      unfold attempt. by rewrite Hread.
Qed.

(** The reply for draw 1 yields a draw; the reply for a draw that does
    not exist yet is reported as null. *)
Lemma fetchDraw_rejects_NaN_only_witness :
  (exists d,
     (@run (upto 3) _ (@fetchDraw sample_builtins 1) (boot 0)).1
       = Returned (Some d) /\
     length (numbers d) = 6%nat) /\
  (@run (upto 3) _ (@fetchDraw sample_builtins 7) (boot 0)).1 = Returned None.
Proof.
  split.
  - eexists. split; [reflexivity|].
    apply (proj1 (@fetchDraw_rejects_NaN_only sample_builtins (upto 3))
             1 (boot 0)).
    reflexivity.
  - refine (proj1 (proj2 (proj2
      (proj2 (@fetchDraw_rejects_NaN_only sample_builtins (upto 3))
         fail_value _ _)) 7 (boot 0) _) _).
    + discriminate.
    + discriminate.
    + reflexivity.
    + left. reflexivity.
Defined.

Lemma fetchDraw_unchecked_counterexample :
  exists d,
    (@run odd_upstream _ (@fetchDraw sample_builtins 1) (boot 0)).1
      = Returned (Some d) /\
    ~ well_formed d.
Proof.
  eexists. split; [vm_compute; reflexivity|].
  intros (_ & Hdup & _). simpl in Hdup.
  apply NoDup_cons in Hdup as [Hnotin _]. apply Hnotin. left.
Qed.


Lemma mid_between low high :
  low <= high -> low <= (low + high) / 2 <= high.
Proof.
  intros. pose proof (Z.div_mod (low + high) 2).
  pose proof (Z.mod_pos_bound (low + high) 2). lia.
Qed.

Lemma mid_strictly_between low high :
  low + 1 < high -> low < (low + high) / 2 < high.
Proof.
  intros. pose proof (Z.div_mod (low + high) 2).
  pose proof (Z.mod_pos_bound (low + high) 2). lia.
Qed.

Section LocatorFacts.
Context `{Builtins} `{Environment}.
Variable N : Z.
Hypothesis upstream_N : exists_upto N.

Lemma run_fetchDraw_exists n st :
  exists draw,
    run (fetchDraw n) st = (Returned draw, (do_fetch n st).2) /\
    (is_Some draw <-> n <= N).
Proof.
  unfold fetchDraw. change (Z.to_nat (RETRIES + 1)) with 3%nat.
  cbn [fetchDraw_loop]. rewrite run_catch, run_fetchDrawOnce.
  specialize (upstream_N (requests (log st)) n).
  destruct (decide (n <= N)) as [Hle|Hgt].
  - destruct upstream_N as [d ->]. exists (Some d). split; [done|].
    split; [done|]. by eexists.
  - rewrite upstream_N. exists None. split; [done|].
    split; [by intros [? ?]|done].
Qed.

Ltac step_fetch n st :=
  rewrite run_bind;
  let draw := fresh "draw" in
  let Hrun := fresh "Hrun" in
  let Hdraw := fresh "Hdraw" in
  destruct (run_fetchDraw_exists n st) as (draw & Hrun & Hdraw);
  rewrite Hrun; clear Hrun.

Lemma searchDown_spec fuel : forall low high st,
  1 <= low -> low - 1 <= N <= high -> 1 <= N ->
  high - low + 1 <= Z.of_nat fuel ->
  (run (searchDown fuel low high) st).1 = Returned N.
Proof.
  induction fuel as [|fuel IH]; intros low high st Hlow HN H1 Hfuel.
  - simpl. f_equal. lia.
  - cbn [searchDown]. destruct (low <=? high) eqn:Hc.
    + apply Z.leb_le in Hc.
      assert (low <= (low + high) / 2 <= high) as Hmid.
      { apply mid_between; lia. }
      step_fetch ((low + high) / 2) st.
      destruct draw as [d|].
      * assert ((low + high) / 2 <= N) by (apply Hdraw; eauto).
        apply IH; lia.
      * assert (~ (low + high) / 2 <= N).
        { intros Hle. apply Hdraw in Hle. by destruct Hle. }
        apply IH; lia.
    + apply Z.leb_gt in Hc. simpl. f_equal. lia.
Qed.

Lemma bisect_spec fuel : forall low high st,
  low <= N < high -> high - low <= Z.of_nat fuel ->
  (run (bisect fuel low high) st).1 = Returned N.
Proof.
  induction fuel as [|fuel IH]; intros low high st HN Hfuel.
  - simpl. f_equal. lia.
  - cbn [bisect]. destruct (low + 1 <? high) eqn:Hc.
    + apply Z.ltb_lt in Hc.
      assert (low < (low + high) / 2 < high) as Hmid.
      { apply mid_strictly_between; lia. }
      step_fetch ((low + high) / 2) st.
      destruct draw as [d|].
      * assert ((low + high) / 2 <= N) by (apply Hdraw; eauto).
        apply IH; lia.
      * assert (~ (low + high) / 2 <= N).
        { intros Hle. apply Hdraw in Hle. by destruct Hle. }
        apply IH; lia.
    + apply Z.ltb_ge in Hc. simpl. f_equal. lia.
Qed.

Lemma grow_spec fuel : forall low high st,
  1 <= low <= N -> low <= high <= MAX_DRAW_GUESS -> N <= MAX_DRAW_GUESS ->
  MAX_DRAW_GUESS - high < Z.of_nat fuel ->
  (run (grow fuel low high) st).1 = Returned N.
Proof.
  induction fuel as [|fuel IH]; intros low high st Hlow Hhigh HN Hfuel.
  - lia.
  - cbn [grow]. destruct (high <=? MAX_DRAW_GUESS) eqn:Hc.
    + step_fetch high st. destruct draw as [d|].
      * assert (high <= N) by (apply Hdraw; eauto).
        destruct (high =? MAX_DRAW_GUESS) eqn:Hm.
        -- apply Z.eqb_eq in Hm. simpl. f_equal. lia.
        -- apply Z.eqb_neq in Hm. apply IH; lia.
      * assert (~ high <= N).
        { intros Hle. apply Hdraw in Hle. by destruct Hle. }
        apply bisect_spec; unfold bisect_fuel; lia.
    + apply Z.leb_gt in Hc. lia.
Qed.

(** Which search the seed probe selects. *)
Lemma locate_branch probe st :
  run (locate probe) st =
  if decide (probe <= N) then
    run (grow (S (Z.to_nat (MAX_DRAW_GUESS - Z.min (probe * 2) MAX_DRAW_GUESS)))
              probe (Z.min (probe * 2) MAX_DRAW_GUESS))
        (do_fetch probe st).2
  else run (searchDown (Z.to_nat probe) 1 probe) (do_fetch probe st).2.
Proof.
  unfold locate. step_fetch probe st. destruct draw as [d|].
  - rewrite decide_True; [done|]. apply Hdraw. eauto.
  - rewrite decide_False; [done|]. intros Hle. apply Hdraw in Hle.
    by destruct Hle.
Qed.

Lemma locate_spec probe st :
  1 <= N <= MAX_DRAW_GUESS -> 1 <= probe <= MAX_DRAW_GUESS ->
  (run (locate probe) st).1 = Returned N.
Proof.
  intros HN Hp. rewrite locate_branch. destruct (decide (probe <= N)).
  - apply grow_spec; lia.
  - apply searchDown_spec; lia.
Qed.
End LocatorFacts.

Lemma findLatestDraw_unfold `{Builtins} `{Environment} st :
  findLatestDraw st =
  run (locate (if 0 <? latest (theCache st) then latest (theCache st) else 1100))
      (record Locate (with_cache (theCache st) st)).
Proof. done. Qed.

(** C2.  When the upstream holds exactly the draws 1..N, with
    1 <= N <= MAX_DRAW_GUESS, [findLatestDraw] returns N from every cache
    whose last known latest is at most MAX_DRAW_GUESS, and so does the
    search from every seed in [1, MAX_DRAW_GUESS]: it is the capped
    doubling with the bisection it falls into when the seed exists, and
    the downward binary search between 1 and the seed when it does not. *)
Theorem findLatestDraw_exact `{Builtins} `{Environment} (N : Z) (st : State) :
  1 <= N <= MAX_DRAW_GUESS ->
  exists_upto N ->
  latest (theCache st) <= MAX_DRAW_GUESS ->
  (findLatestDraw st).1 = Returned N /\
  (forall probe st', 1 <= probe <= MAX_DRAW_GUESS ->
     (run (locate probe) st').1 = Returned N /\
     run (locate probe) st' =
       if decide (probe <= N) then
         run (grow (S (Z.to_nat (MAX_DRAW_GUESS
                                 - Z.min (probe * 2) MAX_DRAW_GUESS)))
                   probe (Z.min (probe * 2) MAX_DRAW_GUESS))
             (do_fetch probe st').2
       else run (searchDown (Z.to_nat probe) 1 probe) (do_fetch probe st').2).
Proof.
  intros HN Hup Hlatest. split.
  - rewrite findLatestDraw_unfold.
    apply (locate_spec N); [done..|].
    destruct (0 <? latest (theCache st)) eqn:Hc; [|unfold MAX_DRAW_GUESS; lia].
    apply Z.ltb_lt in Hc. lia.
  - intros probe st' Hp. split; [by apply locate_spec|by apply locate_branch].
Qed.

(** ** The worker pool *)

Section Depth.
Context `{Builtins}.

Lemma within_mono {A} (p : Async A) : forall d d',
  (d <= d')%nat -> within d p -> within d' p.
Proof.
  induction p as [a|e|no k IH|ms k IH]; intros d d' Hle Hw;
    destruct d, d'; cbn in *; try done; try lia.
  - intros r. eapply IH; [|apply Hw]. lia.
  - eapply IH; [|apply Hw]. lia.
Qed.

Lemma within_settle {A} (o : Outcome A) d : within d (settle o).
Proof. destruct o; exact I. Qed.

Lemma within_fetchDraw_loop no left : forall a,
  within (2 * left) (fetchDraw_loop left a no).
Proof.
  induction left as [|left IH]; intros a; [exact I|].
  replace (2 * S left)%nat with (S (S (2 * left))) by lia.
  cbn [fetchDraw_loop fetchDrawOnce fetchJson bind catch within].
  intros r. destruct (readJson r) as [data|e]; simpl.
  - destruct (parseDraw data); simpl; [exact I|].
    destruct (String.eqb _ _); simpl; [exact I|apply IH].
  - destruct (String.eqb _ _); simpl; [exact I|apply IH].
Qed.

Lemma within_fetchDraw no : within 6 (fetchDraw no).
Proof. apply (within_fetchDraw_loop no 3 0). Qed.
End Depth.

Lemma sum_list_insert (ds : list nat) i d d' :
  ds !! i = Some d ->
  (sum_list (<[i := d']> ds) + d = sum_list ds + d')%nat.
Proof.
  revert i. induction ds as [|x ds IH]; intros [|i] Hi; simplify_eq/=; [lia|].
  specialize (IH _ Hi). lia.
Qed.

Lemma live_from_spec ws : forall k i,
  i ∈ live_from k ws <->
  exists j no p, i = (k + j)%nat /\ ws !! j = Some (Awaiting no p).
Proof.
  induction ws as [|w ws IH]; intros k i; simpl.
  - split; [by intros ?%elem_of_nil|by intros (j & ? & ? & _ & ?)].
  - destruct w as [|no p]; simpl.
    + rewrite IH. split.
      * intros (j & n & q & -> & Hj). exists (S j), n, q. split; [lia|done].
      * intros ([|j] & n & q & -> & Hj); [done|].
        exists j, n, q. split; [lia|done].
    + rewrite elem_of_cons, IH. split.
      * intros [->|(j & n & q & -> & Hj)].
        -- exists 0%nat, no, p. split; [lia|done].
        -- exists (S j), n, q. split; [lia|done].
      * intros ([|j] & n & q & -> & Hj).
        -- left. lia.
        -- right. exists j, n, q. split; [lia|done].
Qed.

Lemma live_spec ws i :
  i ∈ live ws <-> exists no p, ws !! i = Some (Awaiting no p).
Proof.
  unfold live. rewrite live_from_spec. split.
  - intros (j & no & p & -> & Hj). by exists no, p.
  - intros (no & p & Hi). by exists i, no, p.
Qed.

Lemma live_nil ws :
  live ws = [] -> forall i w, ws !! i = Some w -> w = Finished.
Proof.
  intros Hnil i [|no p] Hi; [done|].
  assert (i ∈ live ws) as Hin by (apply live_spec; eauto).
  rewrite Hnil in Hin. by apply elem_of_nil in Hin.
Qed.

Lemma lookup_replace {A} (ws : list A) i w j x :
  (i < length ws)%nat ->
  <[i := w]> ws !! j = Some x <-> (j = i /\ x = w) \/ (j <> i /\ ws !! j = Some x).
Proof.
  intros Hi. destruct (decide (j = i)) as [->|Hne].
  - rewrite list_lookup_insert_eq by done. split.
    + intros [= <-]. by left.
    + intros [[_ ->]|[? _]]; done.
  - rewrite list_lookup_insert_ne by done. split.
    + by right.
    + intros [[? _]|[_ ?]]; done.
Qed.

Lemma theCache_modify f st : theCache (modify f st) = f (theCache st).
Proof. done. Qed.

(** Leaving workers behind changes neither the cache nor the clock nor
    the log. *)
Lemma abandon_view end_ i pl st :
  lottoCache (abandon end_ i pl st) = lottoCache st /\
  now (abandon end_ i pl st) = now st /\
  log (abandon end_ i pl st) = log st.
Proof. unfold abandon. by destruct (bool_decide _). Qed.

Lemma abandon_cache end_ i pl st :
  theCache (abandon end_ i pl st) = theCache st.
Proof.
  unfold theCache. by rewrite (proj1 (abandon_view end_ i pl st)).
Qed.

Lemma abandon_log end_ i pl st : log (abandon end_ i pl st) = log st.
Proof. apply abandon_view. Qed.

Lemma set_draws_id c : set_draws (draws c) c = c.
Proof. by destruct c. Qed.

Section PoolInvariant.
Context `{Builtins} `{Environment}.
Variables (start end_ : Z) (c0 : Cache) (m0 : list Z).

(** A worker moves from one await to the next. *)
Lemma pool_inv_suspend fresh pl st st' i no p p' :
  pool_inv start end_ c0 m0 fresh pl st ->
  workers pl !! i = Some (Awaiting no p) ->
  theCache st' = theCache st ->
  pool_inv start end_ c0 m0 fresh {| current := current pl;
                    workers := <[i := Awaiting no p']> (workers pl);
                    collected := collected pl |} st'.
Proof.
  intros [] Hi Hc. pose proof (lookup_lt_Some _ _ _ Hi) as Hlt.
  assert (Hst : forall n, stored st' n <-> stored st n)
    by (intros n; unfold stored; by rewrite Hc).
  split; simpl; try done.
  - intros j Hj. apply (lookup_replace _ _ _ _ _ Hlt) in Hj as [[_ ?]|[_ Hj]];
      [done|eauto].
  - by rewrite Hc.
  - intros n Hn. apply Hst. auto.
  - intros n Hn%Hst. apply inv_keys0 in Hn. done.
  - intros n Hn. destruct (inv_covered0 n Hn) as [(j & q & Hj)|[Hs|Hf]].
    + left. destruct (decide (j = i)) as [->|Hne].
      * rewrite Hi in Hj. injection Hj as -> _. exists i, p'. simpl.
        by apply list_lookup_insert_eq.
      * exists j, q. simpl. by rewrite list_lookup_insert_ne.
    + right; left. by apply Hst.
    + by right; right.
  - intros j n q Hj.
    assert (exists q0, workers pl !! j = Some (Awaiting n q0)) as [q0 Hj0].
    { apply (lookup_replace _ _ _ _ _ Hlt) in Hj as [[-> Hq]|[_ Hj]];
        [|by eauto]. injection Hq as -> _. eauto. }
    destruct (inv_pending0 _ _ _ Hj0) as (Hcl & Hnf & Hk & Huniq).
    split; [done|]. split; [done|]. split; [by intros ?%Hst; auto|].
    intros j' q' Hj'.
    apply (lookup_replace _ _ _ _ _ Hlt) in Hj' as [[-> Hq]|[_ Hj']];
      [|by eauto].
    injection Hq as Hq _. subst n. by apply (Huniq i p).
  - intros n Hn. destruct (inv_fresh0 n Hn) as [? Hk]. split; [done|].
    intros ?%Hst. auto.
Qed.

(** A worker records the outcome for its number and claims the next. *)
Lemma pool_inv_settle (A : Prop) fresh fresh' pl st st' i no p :
  pool_inv start end_ c0 m0 fresh pl st ->
  workers pl !! i = Some (Awaiting no p) ->
  A \/ ~ A ->
  (forall n, stored st' n <-> stored st n \/ (n = no /\ A)) ->
  (forall n, n ∈ fresh' <-> n ∈ fresh \/ (n = no /\ ~ A)) ->
  NoDup fresh' ->
  theCache st' = set_draws (draws (theCache st')) c0 ->
  pool_inv start end_ c0 m0 fresh'
    {| current := (claim end_ (current pl)).1;
       workers := <[i := (claim end_ (current pl)).2]> (workers pl);
       collected := m0 ++ fresh' |} st'.
Proof.
  intros [] Hi HA Hst Hfr Hnd Hframe.
  pose proof (lookup_lt_Some _ _ _ Hi) as Hlt.
  destruct (inv_pending0 _ _ _ Hi) as (Hcl & Hnf & Hk & Huniq).
  set (cur := current pl) in *.
  assert (Hclaim : (claim end_ cur = (cur, Finished) /\ end_ < cur) \/
                   (claim end_ cur = (cur + 1, Awaiting cur (fetchDraw cur))
                    /\ cur <= end_)).
  { unfold claim. destruct (cur >? end_) eqn:Hc; [left|right]; split; try done.
    - by apply Z.gtb_lt in Hc.
    - rewrite Z.gtb_ltb in Hc. by apply Z.ltb_ge in Hc. }
  assert (Hmono : forall n, claimed start end_ pl n ->
            start <= n < (claim end_ cur).1 /\ n <= end_).
  { unfold claimed. fold cur. intros n Hn.
    destruct Hclaim as [[-> _]|[-> _]]; simpl; lia. }
  assert (Hother : forall j n q, j <> i ->
            workers pl !! j = Some (Awaiting n q) -> n <> no).
  { intros j n q Hne Hj ->. apply Hne. by apply (Huniq j q). }
  split; unfold claimed; simpl; try done.
  - destruct Hclaim as [[-> _]|[-> _]]; simpl; lia.
  - intros j Hj. apply (lookup_replace _ _ _ _ _ Hlt) in Hj as [[_ Hw]|[_ Hj]].
    + destruct Hclaim as [[-> ?]|[Hc _]]; [done|]. by rewrite Hc in Hw.
    + specialize (inv_finished0 _ Hj).
      destruct Hclaim as [[-> _]|[-> _]]; simpl; lia.
  - intros n Hn. apply Hst. left. auto.
  - intros n [Hn|[-> _]]%Hst; [|right; by apply Hmono].
    destruct (inv_keys0 n Hn) as [|Hc]; [by left|right; by apply Hmono].
  - intros n Hn.
    assert (claimed start end_ pl n \/ (n = cur /\ cur <= end_ /\
              (claim end_ cur).2 = Awaiting cur (fetchDraw cur))) as [Hc|Hc].
    { unfold claimed. fold cur.
      destruct Hclaim as [[Hc _]|[Hc ?]]; rewrite Hc in *; simpl in *.
      - left. lia.
      - destruct (decide (n = cur)); [right; by subst|left; lia]. }
    + destruct (inv_covered0 n Hc) as [(j & q & Hj)|[Hs|Hf]].
      * destruct (decide (j = i)) as [->|Hne].
        -- rewrite Hi in Hj. injection Hj as -> _.
           destruct HA; [right; left; apply Hst|right; right; apply Hfr];
             by right.
        -- left. exists j, q. simpl. by rewrite list_lookup_insert_ne.
      * right; left. apply Hst. by left.
      * right; right. apply Hfr. by left.
    + destruct Hc as (-> & _ & Hw). left. exists i, (fetchDraw cur). simpl.
      rewrite Hw. by apply list_lookup_insert_eq.
  - intros j n q Hj.
    apply (lookup_replace _ _ _ _ _ Hlt) in Hj as [[-> Hw]|[Hne Hj]].
    + destruct Hclaim as [[Hc ?]|[Hc ?]]; rewrite Hc in *; simpl in *;
        [done|]. injection Hw as -> ->.
      assert (Hnew : ~ claimed start end_ pl cur) by (unfold claimed; fold cur; lia).
      split; [lia|]. split; [|split].
      * intros [Hf|[-> _]]%Hfr; [|done]. by apply inv_fresh0 in Hf as [? _].
      * intros [Hs|[-> _]]%Hst; [|done].
        destruct (inv_keys0 _ Hs); done.
      * intros j' q' Hj'.
        apply (lookup_replace _ _ _ _ _ Hlt) in Hj' as [[-> _]|[_ Hj']];
          [done|]. by apply inv_pending0 in Hj' as [? _].
    + destruct (inv_pending0 _ _ _ Hj) as (Hcl' & Hnf' & Hk' & Huniq').
      pose proof (Hother _ _ _ Hne Hj) as Hno.
      split; [by apply Hmono|]. split; [|split].
      * intros [Hf|[-> _]]%Hfr; done.
      * intros [Hs|[-> _]]%Hst; [auto|done].
      * intros j' q' Hj'.
        apply (lookup_replace _ _ _ _ _ Hlt) in Hj' as [[-> Hw]|[_ Hj']];
          [|by eauto].
        destruct Hclaim as [[Hc ?]|[Hc ?]]; rewrite Hc in *; simpl in *;
          [done|]. injection Hw as -> _.
        unfold claimed in Hcl'. fold cur in Hcl'. lia.
  - intros n [Hf|[-> HnA]]%Hfr.
    + destruct (inv_fresh0 n Hf) as [Hc Hkn]. split; [by apply Hmono|].
      intros [Hs|[-> _]]%Hst; [auto|done].
    + split; [by apply Hmono|]. intros [Hs|[_ ?]]%Hst; [auto|done].
Qed.

Lemma resume_step fresh ds pl st i no p pl' st' :
  pool_inv start end_ c0 m0 fresh pl st ->
  Forall2 cost (workers pl) ds ->
  workers pl !! i = Some (Awaiting no p) ->
  resume end_ i no p pl st = inr (pl', st') ->
  exists fresh' ds',
    pool_inv start end_ c0 m0 fresh' pl' st' /\ Forall2 cost (workers pl') ds' /\
    (potential end_ ds' pl' < potential end_ ds pl)%nat.
Proof.
  intros Hinv Hcost Hi Hres.
  destruct (Forall2_lookup_l _ _ _ _ _ Hcost Hi) as (c & Hc & Hwc).
  inversion Hwc as [|? ? d Hd]; subst.
  pose proof (inv_frame _ _ _ _ _ _ _ Hinv) as Hframe.
  pose proof (inv_collected _ _ _ _ _ _ _ Hinv) as Hcol.
  destruct (inv_pending _ _ _ _ _ _ _ Hinv _ _ _ Hi) as (_ & Hnf & _).
  assert (Hclaim :
    exists c', cost (claim end_ (current pl)).2 c' /\
      (c' + 7 * Z.to_nat (end_ - (claim end_ (current pl)).1 + 1)
       <= 7 * Z.to_nat (end_ - current pl + 1))%nat).
  { unfold claim. destruct (current pl >? end_) eqn:Hgt; simpl.
    - exists 0%nat. split; [constructor|lia].
    - exists 7%nat. split; [constructor; apply within_fetchDraw|].
      rewrite Z.gtb_ltb in Hgt. apply Z.ltb_ge in Hgt. lia. }
  destruct Hclaim as (c' & Hc' & Hpot).
  destruct p as [[dr|]|e|n k|ms k]; simpl in Hres.
  - destruct (claim end_ (current pl)) as [cur' w] eqn:Hcl.
    injection Hres as <- <-. exists fresh, (<[i := c']> ds).
    split; [|split].
    + rewrite Hcol.
      replace cur' with (claim end_ (current pl)).1 by (by rewrite Hcl).
      replace w with (claim end_ (current pl)).2 by (by rewrite Hcl).
      eapply (pool_inv_settle True); eauto.
      * intros n. unfold stored. rewrite theCache_modify. simpl.
        rewrite lookup_insert_is_Some. split.
        -- intros [->|[_ ?]]; auto.
        -- intros [?|[-> _]]; [|by left].
           destruct (decide (no = n)); [by left|by right].
      * intros n. split; [by left|]. by intros [?|[_ ?]].
      * by apply (inv_nodup _ _ _ _ _ _ _ Hinv).
      * rewrite theCache_modify. simpl. by rewrite Hframe.
    + simpl. by apply Forall2_insert.
    + unfold potential. simpl in *.
      pose proof (sum_list_insert ds i _ c' Hc). lia.
  - destruct (claim end_ (current pl)) as [cur' w] eqn:Hcl.
    injection Hres as <- <-. exists (fresh ++ [no]), (<[i := c']> ds).
    split; [|split].
    + rewrite Hcol, <- app_assoc.
      replace cur' with (claim end_ (current pl)).1 by (by rewrite Hcl).
      replace w with (claim end_ (current pl)).2 by (by rewrite Hcl).
      eapply (pool_inv_settle False); eauto.
      * intros n. split; [by left|]. by intros [?|[_ ?]].
      * intros n. rewrite elem_of_app, list_elem_of_singleton.
        split; intros [?|Hn]; auto. right. by destruct Hn.
      * apply NoDup_app. split; [by apply (inv_nodup _ _ _ _ _ _ _ Hinv)|].
        split; [|apply NoDup_singleton].
        intros n Hn ->%list_elem_of_singleton. done.
    + simpl. by apply Forall2_insert.
    + unfold potential. simpl in *.
      pose proof (sum_list_insert ds i _ c' Hc). lia.
  - done.
  - destruct d as [|d]; [done|]. simpl in Hd.
    injection Hres as <- <-. exists fresh, (<[i := S d]> ds).
    split; [|split].
    + eapply pool_inv_suspend; eauto.
    + simpl. apply Forall2_insert; [done|]. constructor. apply Hd.
    + unfold potential. simpl.
      pose proof (sum_list_insert ds i _ (S d) Hc). lia.
  - destruct d as [|d]; [done|]. simpl in Hd.
    injection Hres as <- <-. exists fresh, (<[i := S d]> ds).
    split; [|split].
    + eapply pool_inv_suspend; eauto.
    + simpl. apply Forall2_insert; [done|]. by constructor.
    + unfold potential. simpl.
      pose proof (sum_list_insert ds i _ (S d) Hc). lia.
Qed.

Lemma cost_zero ws ds :
  Forall2 cost ws ds -> sum_list ds = 0%nat ->
  forall i w, ws !! i = Some w -> w = Finished.
Proof.
  induction 1 as [|w d ws ds Hc _ IH]; intros Hsum i w' Hi; [done|].
  simpl in Hsum. destruct i as [|i]; simpl in Hi.
  - injection Hi as <-. inversion Hc; subst; [done|lia].
  - eapply IH; [lia|done].
Qed.

Lemma pool_run_spec origin fuel : forall step fresh ds pl st m st',
  pool_inv start end_ c0 m0 fresh pl st ->
  Forall2 cost (workers pl) ds ->
  (potential end_ ds pl <= fuel)%nat ->
  pool_run fuel origin step end_ pl st = (Returned m, st') ->
  exists fresh' pl',
    pool_inv start end_ c0 m0 fresh' pl' st' /\ collected pl' = m /\
    (forall i w, workers pl' !! i = Some w -> w = Finished) /\
    length (workers pl') = length (workers pl).
Proof.
  induction fuel as [|fuel IH]; intros step fresh ds pl st m st' Hinv Hcost Hpot.
  - simpl. intros [= <- <-]. exists fresh, pl.
    split; [done|]. split; [done|]. split; [|done].
    apply (cost_zero _ ds); [done|]. unfold potential in Hpot. lia.
  - cbn [pool_run].
    remember (live (workers pl)) as alive eqn:Hal.
    destruct (alive !! _) as [i|] eqn:Halive.
    + assert (i ∈ alive) as Hin by (by eapply list_elem_of_lookup_2).
      rewrite Hal in Hin.
      apply live_spec in Hin as (no & p & Hi). rewrite Hi.
      destruct (resume end_ i no p pl st) as [e|[pl1 st1]] eqn:Hres; [done|].
      destruct (resume_step _ _ _ _ _ _ _ _ _ Hinv Hcost Hi Hres)
        as (fresh1 & ds1 & Hinv1 & Hcost1 & Hpot1).
      intros Hrun.
      destruct (IH _ _ _ _ _ _ _ Hinv1 Hcost1 ltac:(lia) Hrun)
        as (fresh' & pl' & ? & ? & ? & Hlen).
      exists fresh', pl'.
      split; [done|]. split; [done|]. split; [done|].
      rewrite Hlen. pose proof (Forall2_length _ _ _ Hcost).
      pose proof (Forall2_length _ _ _ Hcost1). 
      destruct p as [[?|]|?|?|?]; simpl in Hres;
        try destruct (claim end_ (current pl));
        simplify_eq/=; by rewrite length_insert.
    + intros [= <- <-]. exists fresh, pl.
      split; [done|]. split; [done|]. split; [|done].
      apply live_nil. apply lookup_ge_None in Halive.
      destruct alive as [|a alive']; [done|].
      pose proof (Nat.mod_upper_bound (schedule (origin + step))
                    (length (a :: alive')) ltac:(done)). lia.
Qed.

Lemma spawn_spec n : forall cur,
  let cur' := (spawn n end_ cur).1 in
  let ws := (spawn n end_ cur).2 in
  length ws = n /\
  cur' = Z.max cur (Z.min (cur + Z.of_nat n) (end_ + 1)) /\
  (forall j, (j < n)%nat ->
     ws !! j = Some (if decide (cur + Z.of_nat j <= end_)
                     then Awaiting (cur + Z.of_nat j)
                                   (fetchDraw (cur + Z.of_nat j))
                     else Finished)) /\
  exists ds, Forall2 cost ws ds /\
    (sum_list ds + 7 * Z.to_nat (end_ - cur' + 1)
     <= 7 * Z.to_nat (end_ - cur + 1))%nat.
Proof.
  induction n as [|n IH]; intros cur; simpl.
  - split; [done|]. split; [lia|]. split; [intros; lia|].
    exists []. split; [constructor|simpl; lia].
  - unfold claim. destruct (cur >? end_) eqn:Hgt.
    + apply Z.gtb_lt in Hgt.
      destruct (IH cur) as (Hlen & Hcur & Hws & ds & Hds & Hsum).
      destruct (spawn n end_ cur) as [cur' ws]. simpl in *.
      split; [by rewrite Hlen|]. split; [lia|]. split.
      * intros [|j] Hj; simpl.
        -- by rewrite Z.add_0_r, decide_False by lia.
        -- rewrite Hws by lia. rewrite !decide_False by lia. done.
      * exists (0%nat :: ds). split; [by repeat constructor|simpl; lia].
    + rewrite Z.gtb_ltb in Hgt. apply Z.ltb_ge in Hgt.
      destruct (IH (cur + 1)) as (Hlen & Hcur & Hws & ds & Hds & Hsum).
      destruct (spawn n end_ (cur + 1)) as [cur' ws]. simpl in *.
      split; [by rewrite Hlen|]. split; [lia|]. split.
      * intros [|j] Hj; simpl.
        -- by rewrite Z.add_0_r, decide_True by lia.
        -- rewrite Hws by lia.
           replace (cur + 1 + Z.of_nat j) with (cur + Z.pos (Pos.of_succ_nat j))
             by lia. done.
      * exists (7%nat :: ds). split.
        -- constructor; [|done]. constructor. apply within_fetchDraw.
        -- simpl. lia.
Qed.
End PoolInvariant.

Section RangeFacts.
Context `{Builtins} `{Environment}.

Lemma spawn_inv k start end_ m0 st :
  pool_inv start end_ (theCache st) m0 []
    {| current := (spawn k end_ start).1;
       workers := (spawn k end_ start).2;
       collected := m0 |} st.
Proof.
  destruct (spawn_spec end_ k start) as (Hlen & Hcur & Hws & _).
  assert (Hlook : forall j w, (spawn k end_ start).2 !! j = Some w ->
            (j < k)%nat /\
            w = if decide (start + Z.of_nat j <= end_)
                then Awaiting (start + Z.of_nat j)
                              (fetchDraw (start + Z.of_nat j))
                else Finished).
  { intros j w Hj. pose proof (lookup_lt_Some _ _ _ Hj) as Hlt.
    rewrite Hlen in Hlt. split; [done|]. rewrite Hws in Hj by done.
    by injection Hj. }
  split; unfold claimed, stored, known; simpl.
  - by rewrite app_nil_r.
  - lia.
  - intros j Hj. apply Hlook in Hj as [Hj Hw].
    destruct (decide _); [done|]. lia.
  - by rewrite set_draws_id.
  - done.
  - by left.
  - intros n Hn. left. exists (Z.to_nat (n - start)).
    exists (fetchDraw n). simpl. rewrite Hws by lia.
    rewrite Z2Nat.id by lia. rewrite decide_True by lia.
    by replace (start + (n - start)) with n by lia.
  - intros j n p Hj. apply Hlook in Hj as [Hj Hw].
    destruct (decide _) as [Hle|]; [|done]. injection Hw as -> _.
    split; [lia|]. split; [by intros ?%elem_of_nil|]. split; [done|].
    intros j' q Hj'. apply Hlook in Hj' as [Hj' Hw'].
    destruct (decide _); [|done]. injection Hw' as Heq _. lia.
  - constructor.
  - by intros n ?%elem_of_nil.
Qed.

(** What a completed range fetch has recorded. *)
Lemma fetchRange_spec start end_ m0 st m st' :
  fetchRange start end_ m0 st = (Returned m, st') ->
  exists fresh,
    m = m0 ++ fresh /\ NoDup fresh /\
    theCache st' = set_draws (draws (theCache st')) (theCache st) /\
    (forall n, is_Some (draws (theCache st) !! n) ->
               is_Some (draws (theCache st') !! n)) /\
    (forall n, is_Some (draws (theCache st') !! n) ->
               is_Some (draws (theCache st) !! n) \/ start <= n <= end_) /\
    (forall n, start <= n <= end_ ->
               is_Some (draws (theCache st') !! n) \/ n ∈ fresh) /\
    (forall n, n ∈ fresh ->
               start <= n <= end_ /\
               (is_Some (draws (theCache st') !! n) ->
                is_Some (draws (theCache st) !! n))).
Proof.
  unfold fetchRange.
  pose proof (spawn_inv CONCURRENCY start end_ m0 st) as Hinv.
  destruct (spawn_spec end_ CONCURRENCY start) as (Hlen & _ & _ & ds & Hds & Hsum).
  destruct (spawn CONCURRENCY end_ start) as [cur ws] eqn:Hsp.
  simpl in Hinv, Hlen, Hds, Hsum. intros Hrun.
  destruct (pool_run_spec _ _ _ _ _ _ _ _ _ _ _ _ _ Hinv Hds Hsum Hrun)
    as (fresh & pl & [] & Hm & Hfin & Hlen').
  simpl in Hlen'. rewrite Hlen in Hlen'.
  assert (end_ < current pl) as Hdone.
  { destruct (workers pl !! 0%nat) as [w|] eqn:Hw.
    - apply (inv_finished0 0%nat). rewrite Hw. f_equal. by apply (Hfin 0%nat).
    - apply lookup_ge_None in Hw. rewrite Hlen' in Hw.
      unfold CONCURRENCY in Hw. lia. }
  assert (Hidle : forall n, ~ held pl n).
  { intros n (i & p & Hi). by apply Hfin in Hi. }
  unfold claimed, stored, known in *.
  exists fresh. split; [congruence|]. split; [done|]. split; [done|].
  split; [done|]. split; [|split].
  - intros n Hn. destruct (inv_keys0 n Hn); [by left|right; lia].
  - intros n Hn. destruct (inv_covered0 n) as [Hp|?]; [lia| |done].
    by apply Hidle in Hp.
  - intros n Hn. destruct (inv_fresh0 n Hn). split; [lia|done].
Qed.
End RangeFacts.

(** ** The coordinator *)

Section CoordinatorFacts.
Context `{Builtins} `{Environment}.

Lemma run_lottoCache {A} (p : Async A) : forall st,
  lottoCache (run p st).2 = lottoCache st.
Proof.
  induction p as [a|e|no k IH|ms k IH]; intros st; simpl; try done.
  - by rewrite IH.
  - by rewrite IH.
Qed.


Lemma findLatestDraw_cache st :
  theCache (findLatestDraw st).2 = theCache st.
Proof.
  rewrite findLatestDraw_unfold. unfold theCache at 1.
  by rewrite run_lottoCache.
Qed.

Lemma cache_unflight c :
  inFlight c = None -> forall h, set_inFlight None (set_inFlight h c) = c.
Proof. destruct c; simpl; intros -> ?; done. Qed.

Lemma updateCache_paths st :
  inFlight (theCache st) = None ->
  Path st (updateCache st).1 (updateCache st).2.
Proof.
  intros Hidle. unfold updateCache. cbn [getCache].
  change (theCache (with_cache (theCache st) st)) with (theCache st).
  rewrite Hidle. unfold sync.
  change (findLatestDraw (record SyncStart
            (entered (with_cache (theCache st) st)))) with (located st).
  set (st0 := entered (with_cache (theCache st) st)).
  assert (Hc0 : theCache (record SyncStart st0)
                = set_inFlight (Some (syncs (log st))) (theCache st)) by done.
  rewrite Hc0.
  change (blockedUntil (set_inFlight _ (theCache st)))
    with (blockedUntil (theCache st)).
  change (now (record SyncStart st0)) with (now st).
  destruct (blocked _ _) eqn:Hb.
  - simpl. eapply path_blocked; try done.
    rewrite !theCache_modify, Hc0. destruct (theCache st); simpl in *.
    by subst.
  - assert (Hloc : theCache (located st).2
                   = set_inFlight (Some (syncs (log st))) (theCache st)).
    { unfold located. by rewrite findLatestDraw_cache. }
    destruct (located st) as [[L|e] st1] eqn:Hl; simpl in Hloc.
    + rewrite Hloc.
      change (latest (set_inFlight _ (theCache st))) with (latest (theCache st)).
      set (start := if 0 <? latest (theCache st)
                    then latest (theCache st) + 1 else 1).
      destruct (start <=? L) eqn:Hs.
      * apply Z.leb_le in Hs.
        destruct (fetchRange start L [] st1) as [[m|e] st2] eqn:Hr; simpl.
        -- destruct (fetchRange_spec _ _ _ _ _ _ Hr)
             as (fresh & _ & _ & Hframe & _).
           eapply path_ranged; try done.
           ++ rewrite Hloc. by destruct (theCache st).
           ++ rewrite !theCache_modify, Hframe, Hloc.
              destruct (theCache st); simpl in *. by subst.
        -- by eapply path_aborted.
      * apply Z.leb_gt in Hs. simpl. eapply path_current; try done.
        rewrite !theCache_modify, Hloc. destruct (theCache st); simpl in *.
        by subst.
    + destruct (String.eqb _ _) eqn:He; simpl.
      * eapply path_walled; try done.
        rewrite !theCache_modify, Hloc. destruct (theCache st); simpl in *.
        by subst.
      * by eapply path_failed.
Qed.
End CoordinatorFacts.

(** C6.  While [blockedUntil] is set and in the future, a sync that
    starts makes no upstream request and no locator run, and writes
    nothing but [updatedAt]: [latest], [draws], [missing] and
    [blockedUntil] are returned as they were.  The same holds for the
    read that finds the cache stale. *)
Theorem blocked_sync_touches_only_updatedAt `{Builtins} `{Environment}
    (st : State) (b : Z) :
  inFlight (theCache st) = None ->
  blockedUntil (theCache st) = Some b ->
  b <> 0 ->
  now st < b ->
  exists st',
    updateCache st = (Returned (Done (theCache st')), st') /\
    theCache st' = set_updatedAt (now st) (theCache st) /\
    log st' = SyncStart :: log st /\
    requests (log st') = requests (log st) /\
    locates (log st') = locates (log st) /\
    latest (theCache st') = latest (theCache st) /\
    draws (theCache st') = draws (theCache st) /\
    missing (theCache st') = missing (theCache st) /\
    blockedUntil (theCache st') = Some b /\
    (CACHE_TTL_MS <= now st - updatedAt (theCache st) ->
     readyCache st = (Returned (Done (theCache st')), st')).
Proof.
  intros Hidle Hb Hset Hnow.
  assert (Hblocked : blocked (blockedUntil (theCache st)) (now st) = true).
  { rewrite Hb. simpl. apply andb_true_iff. split.
    - by apply negb_true_iff, Z.eqb_neq.
    - by apply Z.ltb_lt. }
  pose proof (updateCache_paths st Hidle) as HP.
  assert (Hready : CACHE_TTL_MS <= now st - updatedAt (theCache st) ->
                   readyCache st = updateCache st).
  { intros Hstale. unfold readyCache. cbn [getCache].
    change (theCache (with_cache (theCache st) st)) with (theCache st).
    change (now (with_cache (theCache st) st)) with (now st).
    apply Z.ltb_ge in Hstale. rewrite Hstale.
    unfold updateCache. by cbn [getCache]. }
  destruct (updateCache st) as [r st'] eqn:Hup; simpl in HP.
  inversion HP as [? Hbl Hc Hn Hl| | | | | ]; subst; try congruence.
  exists st'. rewrite Hl. repeat split; try done; rewrite ?Hc; done.
Qed.



(** C1, as the code has it.  A sync that completes either leaves
    [latest] and [missing] alone (cool-down, or a block met by the
    locator), or replaces [missing] by the list of this sync: every
    number from the previous latest + 1 (from 1 when there was none) up to
    the new latest is then a key of [draws] or in that list, and the list
    has no duplicates and holds only numbers of that range.  No key of
    [draws] is ever lost.  When no workers of an earlier rejected range
    fetch are left, the sync that leaves [latest] alone leaves [draws]
    alone too, the numbers the other lists are stored only if they were
    stored before, and [draws] gains keys in that range only; a sync that
    then starts from no draws and no latest leaves every number in
    [1, latest] accounted for, in exactly one place, and no key above
    [latest].  A range fetch that completes records every number of its
    range in [draws] or in [missing]; with no leftover workers it lists no
    number it stored itself, and when no number of the range was stored
    before, every number of the range is in exactly one of the two. *)
Theorem completed_sync_accounts_for_its_range `{Builtins} `{Environment}
    (st st' : State) (c' : Cache) :
  inFlight (theCache st) = None ->
  updateCache st = (Returned (Done c'), st') ->
  let c := theCache st in
  let start := if 0 <? latest c then latest c + 1 else 1 in
  ((latest c' = latest c /\ missing c' = missing c /\
    (strays st = [] -> draws c' = draws c)) \/
   (exists m, missing c' = Some m /\ NoDup m /\
      (forall n, n ∈ m -> start <= n <= latest c') /\
      (forall n, start <= n <= latest c' -> is_Some (draws c' !! n) \/ n ∈ m) /\
      (strays st = [] ->
         (forall n, n ∈ m ->
            is_Some (draws c' !! n) -> is_Some (draws c !! n)) /\
         (forall n, is_Some (draws c' !! n) ->
            is_Some (draws c !! n) \/ start <= n <= latest c')))) /\
  (forall n, is_Some (draws c !! n) -> is_Some (draws c' !! n)) /\
  (strays st = [] -> draws c = ∅ -> latest c <= 0 ->
     accounted c' /\
     forall n, n ∈ default [] (missing c') -> draws c' !! n = None) /\
  (forall a b m0 s m s',
     fetchRange a b m0 s = (Returned m, s') ->
     exists fresh, m = m0 ++ fresh /\ NoDup fresh /\
       (forall n, n ∈ fresh -> a <= n <= b) /\
       (forall n, a <= n <= b ->
          is_Some (draws (theCache s') !! n) \/ n ∈ fresh) /\
       (strays s = [] ->
          (forall n, n ∈ fresh ->
             is_Some (draws (theCache s') !! n) ->
             is_Some (draws (theCache s) !! n)) /\
          ((forall n, a <= n <= b -> draws (theCache s) !! n = None) ->
           forall n, a <= n <= b ->
             (is_Some (draws (theCache s') !! n) /\ n ∉ fresh) \/
             (draws (theCache s') !! n = None /\ n ∈ fresh)))).
Proof.
  intros Hidle Hup c start.
  assert (Hmain :
    (latest c' = latest c /\ draws c' = draws c /\ missing c' = missing c) \/
    (exists m, missing c' = Some m /\ NoDup m /\
      (forall n, start <= n <= latest c' -> is_Some (draws c' !! n) \/ n ∈ m) /\
      (forall n, n ∈ m ->
         start <= n <= latest c' /\
         (is_Some (draws c' !! n) -> is_Some (draws c !! n))) /\
      (forall n, is_Some (draws c' !! n) ->
         is_Some (draws c !! n) \/ start <= n <= latest c') /\
      (forall n, is_Some (draws c !! n) -> is_Some (draws c' !! n)))).
  { pose proof (updateCache_paths st Hidle) as HP. rewrite Hup in HP.
    simpl in HP. fold c in HP.
    inversion HP; subst;
      match goal with Hc : theCache st' = _ |- _ => rewrite Hc end.
    - by left.
    - by left.
    - right. exists []. simpl. split; [done|]. split; [constructor|].
      match goal with Hlt : _ < (if _ then _ else _) |- _ =>
        fold c in Hlt; fold start in Hlt end.
      split; [intros; lia|]. split; [by intros n ?%elem_of_nil|].
      split; [by left|done].
    - right.
      match goal with Hr : fetchRange _ _ _ _ = _ |- _ =>
        destruct (fetchRange_spec _ _ _ _ _ _ Hr)
          as (fresh & -> & Hnd & _ & Hkept & Hkeys & Hcov & Hfresh) end.
      assert (Hd : draws (theCache st1) = draws c).
      { match goal with Hf : theCache st1 = _ |- _ => by rewrite Hf end. }
      rewrite Hd in *. exists fresh. simpl.
      fold c in Hkeys, Hcov, Hfresh. fold start in Hkeys, Hcov, Hfresh.
      do 5 (split; [done|]). done. }
  split; [|split; [|split]].
  - destruct Hmain as [(Hl & Hd & Hm)|(m & Hm & Hnd & Hcov & Hfr & Hkeys & _)].
    + left. by split_and!.
    + right. exists m. do 2 (split; [done|]).
      split; [intros n Hn; by destruct (Hfr n Hn)|]. split; [done|].
      intros _. split; [|done]. intros n Hn. by destruct (Hfr n Hn).
  - destruct Hmain as [(_ & -> & _)|(m & _ & _ & _ & _ & _ & Hkept)]; done.
  - intros _ Hempty Hzero.
    assert (Hstart : start = 1).
    { unfold start. destruct (0 <? latest c) eqn:E; [|done].
      apply Z.ltb_lt in E. lia. }
    rewrite Hstart in Hmain.
    destruct Hmain as [(Hl & Hd & Hm)|(m & Hm & _ & Hcov & Hfr & Hkeys & _)].
    + unfold accounted. rewrite Hl, Hd, Hempty. split.
      * split; [intros; lia|]. intros n [? Hn]. by rewrite lookup_empty in Hn.
      * intros n _. apply lookup_empty.
    + unfold accounted. rewrite Hm. simpl. split.
      * split; [done|]. intros n Hn.
        destruct (Hkeys n Hn) as [[? He]|?]; [|lia].
        by rewrite Hempty, lookup_empty in He.
      * intros n Hn. destruct (Hfr n Hn) as [_ Hnone].
        destruct (draws c' !! n) eqn:E; [|done].
        destruct Hnone as [? He]; [by eexists|].
        by rewrite Hempty, lookup_empty in He.
  - intros a b m0 s m s' Hr.
    destruct (fetchRange_spec _ _ _ _ _ _ Hr)
      as (fresh & -> & Hnd & _ & _ & _ & Hcov & Hfresh).
    exists fresh. split_and!; try done.
    + intros n Hn. by destruct (Hfresh n Hn).
    + intros _. split.
      * intros n Hn. by destruct (Hfresh n Hn).
      * intros Hnone n Hn.
        assert (Hnew : n ∈ fresh -> draws (theCache s') !! n = None).
        { intros Hin. destruct (Hfresh n Hin) as [_ Hold].
          destruct (draws (theCache s') !! n) eqn:E; [|done].
          destruct Hold as [? He]; [by eexists|]. by rewrite Hnone in He. }
        destruct (Hcov n Hn) as [Hs|Hin].
        -- left. split; [done|]. intros Hin. rewrite (Hnew Hin) in Hs.
           by destruct Hs.
        -- right. split; [by apply Hnew|done].
Qed.

Section EndpointFacts.
Context `{Builtins} `{Environment}.

Lemma readyCache_fresh st :
  now st - updatedAt (theCache st) < CACHE_TTL_MS ->
  readyCache st = (Returned (Done (theCache st)), with_cache (theCache st) st).
Proof.
  intros Hf%Z.ltb_lt. unfold readyCache. cbn [getCache].
  change (theCache (with_cache (theCache st) st)) with (theCache st).
  change (now (with_cache (theCache st) st)) with (now st).
  by rewrite Hf.
Qed.

Lemma readyCache_stale st :
  CACHE_TTL_MS <= now st - updatedAt (theCache st) ->
  readyCache st = updateCache st.
Proof.
  intros Hs%Z.ltb_ge. unfold readyCache. cbn [getCache].
  change (theCache (with_cache (theCache st) st)) with (theCache st).
  change (now (with_cache (theCache st) st)) with (now st).
  rewrite Hs. unfold updateCache. by cbn [getCache].
Qed.

Lemma updateCache_joined st h :
  inFlight (theCache st) = Some h ->
  updateCache st = (Returned (Joined h), with_cache (theCache st) st).
Proof.
  intros Hh. unfold updateCache. cbn [getCache].
  change (theCache (with_cache (theCache st) st)) with (theCache st).
  by rewrite Hh.
Qed.

(** The cache a response is built from is the cache the process holds
    afterwards, and a recorded block is never erased. *)
Lemma readyCache_done st c st' :
  readyCache st = (Returned (Done c), st') ->
  c = theCache st' /\
  (is_Some (blockedUntil (theCache st)) -> is_Some (blockedUntil c)).
Proof.
  destruct (Z.lt_ge_cases (now st - updatedAt (theCache st)) CACHE_TTL_MS)
    as [Hf|Hs].
  - rewrite (readyCache_fresh _ Hf). by intros [= <- <-].
  - rewrite (readyCache_stale _ Hs).
    destruct (inFlight (theCache st)) as [h|] eqn:Hidle.
    + by rewrite (updateCache_joined _ _ Hidle).
    + intros Hup. pose proof (updateCache_paths st Hidle) as HP.
      rewrite Hup in HP. simpl in HP.
      inversion HP; subst;
        match goal with Hc : theCache st' = _ |- _ => rewrite Hc end;
        split; try done; simpl; by eauto.
Qed.
End EndpointFacts.

(** C8, as the code has it.  The served [apiBlockedUntil] is the cache's
    [blockedUntil] as it stands: null exactly when no block is recorded,
    and still set on every response after a block was recorded, whether
    or not that time has passed. *)
Theorem apiBlockedUntil_is_last_recorded_block `{Builtins} `{Environment}
    (flag : bool) (st st' : State) (body : Body) :
  GET flag st = (Returned (Done body), st') ->
  apiBlockedUntil body = blockedUntil (theCache st') /\
  (apiBlockedUntil body = None <-> blockedUntil (theCache st') = None) /\
  (is_Some (blockedUntil (theCache st)) -> is_Some (apiBlockedUntil body)).
Proof.
  unfold GET. destruct (readyCache st) as [[[c|h]|e] st1] eqn:Hr; try done.
  destruct (readyCache_done _ _ _ Hr) as [-> Hkeep].
  unfold respond. destruct (buildRanking _ _); [|done].
  intros [= <- <-]. simpl. by repeat split.
Qed.


(** C10.  When the cache a response is built from has no draws, [GET]
    answers with [hasData] false, [totalDraws] 0, [latestDate] null, 45
    counts for the numbers 1..45, all zero, and a ranking that lists them
    in ascending order. *)
Theorem empty_cache_is_served `{Builtins} `{Environment}
    (flag : bool) (st st' : State) (c : Cache) :
  readyCache st = (Returned (Done c), st') ->
  draws c = ∅ ->
  exists body,
    GET flag st = (Returned (Done body), st') /\
    hasData body = false /\
    totalDraws body = 0%nat /\
    latestDate body = None /\
    length (counts body) = 45%nat /\
    counts body = zero_counts /\
    ranking body = zero_counts.
Proof.
  intros Hr Hd. unfold GET. rewrite Hr. unfold respond. rewrite Hd.
  rewrite map_to_list_empty. destruct flag; eexists; (split; [reflexivity|]);
    simpl; rewrite lookup_empty; by repeat split.
Qed.

(** ** Logs and callers *)

Lemma quiet_nil : quiet [].
Proof. done. Qed.

Lemma quiet_app a b : quiet a -> quiet b -> quiet (a ++ b).
Proof.
  unfold quiet, syncs, locates. rewrite !filter_app, !length_app. lia.
Qed.

Lemma syncs_app a b : syncs (a ++ b) = (syncs a + syncs b)%nat.
Proof. unfold syncs. by rewrite filter_app, length_app. Qed.

Lemma locates_app a b : locates (a ++ b) = (locates a + locates b)%nat.
Proof. unfold locates. by rewrite filter_app, length_app. Qed.

Section LogFacts.
Context `{Builtins} `{Environment}.



Lemma resume_log end_ i no p pl st pl' st' :
  resume end_ i no p pl st = inr (pl', st') ->
  exists more, log st' = more ++ log st /\ quiet more.
Proof.
  destruct p as [[d|]|e|n k|ms k]; simpl;
    try destruct (claim end_ (current pl)); intros Hr; simplify_eq.
  - by exists [].
  - by exists [].
  - by exists [Request n].
  - by exists [Sleep ms].
Qed.



End LogFacts.

Lemma arrival_view t st : theCache (getCache (at_time t st)).2 = theCache st.
Proof. done. Qed.

Section CallerFacts.
Context `{Builtins} `{Environment}.


(** A stale caller that finds nothing pending starts the sync. *)
Lemma arrive_starts srv c t :
  idle srv -> stale_at srv t ->
  arrive c t srv =
    {| process := entered (getCache (at_time t (process srv))).2;
       pending := Some (sync (entered (getCache (at_time t (process srv))).2));
       waiting := [c]; replies := replies srv |}.
Proof.
  intros (Hp & Hw & Hi) Hs%Z.ltb_ge. unfold arrive.
  by rewrite !arrival_view, Hs, Hi, Hw.
Qed.

End CallerFacts.


(** ** Loop bounds *)

Section FuelFacts.
Context `{Builtins} `{Environment}.

Lemma searchDown_fuel_enough fuel : forall extra low high st,
  high - low + 1 <= Z.of_nat fuel ->
  run (searchDown (fuel + extra) low high) st
  = run (searchDown fuel low high) st.
Proof.
  induction fuel as [|fuel IH]; intros extra low high st Hfuel.
  - destruct extra as [|extra]; [done|]. cbn [Nat.add searchDown].
    destruct (low <=? high) eqn:Hc; [|done]. apply Z.leb_le in Hc. lia.
  - cbn [Nat.add searchDown]. destruct (low <=? high) eqn:Hc; [|done].
    apply Z.leb_le in Hc. pose proof (mid_between low high Hc).
    rewrite !run_bind. destruct (run (fetchDraw _) st) as [[[d|]|e] st'];
      [apply IH; lia|apply IH; lia|done].
Qed.

Lemma bisect_fuel_enough fuel : forall extra low high st,
  high - low <= Z.of_nat fuel ->
  run (bisect (fuel + extra) low high) st = run (bisect fuel low high) st.
Proof.
  induction fuel as [|fuel IH]; intros extra low high st Hfuel.
  - destruct extra as [|extra]; [done|]. cbn [Nat.add bisect].
    destruct (low + 1 <? high) eqn:Hc; [|done]. apply Z.ltb_lt in Hc. lia.
  - cbn [Nat.add bisect]. destruct (low + 1 <? high) eqn:Hc; [|done].
    apply Z.ltb_lt in Hc. pose proof (mid_strictly_between low high Hc).
    rewrite !run_bind. destruct (run (fetchDraw _) st) as [[[d|]|e] st'];
      [apply IH; lia|apply IH; lia|done].
Qed.

Lemma grow_fuel_enough fuel : forall extra low high st,
  1 <= high -> MAX_DRAW_GUESS - high < Z.of_nat fuel ->
  run (grow (fuel + extra) low high) st = run (grow fuel low high) st.
Proof.
  induction fuel as [|fuel IH]; intros extra low high st Hpos Hfuel.
  - destruct extra as [|extra]; [done|]. cbn [Nat.add grow].
    destruct (high <=? MAX_DRAW_GUESS) eqn:Hc; [|done].
    apply Z.leb_le in Hc. lia.
  - cbn [Nat.add grow]. destruct (high <=? MAX_DRAW_GUESS) eqn:Hc; [|done].
    apply Z.leb_le in Hc.
    rewrite !run_bind. destruct (run (fetchDraw _) st) as [[[d|]|e] st'];
      [|done|done].
    destruct (high =? MAX_DRAW_GUESS) eqn:Hm; [done|].
    apply Z.eqb_neq in Hm. apply IH; lia.
Qed.
End FuelFacts.

(** ** Worked examples *)

Lemma updateCache_idle `{Builtins} `{Environment} st :
  inFlight (theCache st) = None ->
  updateCache st =
    let r := sync (entered (with_cache (theCache st) st)) in
    let st3 := modify (set_inFlight None) r.2 in
    (match r.1 with
     | Returned _ => Returned (Done (theCache st3))
     | Thrown e => Thrown e
     end, st3).
Proof.
  intros Hidle. unfold updateCache. cbn [getCache].
  change (theCache (with_cache (theCache st) st)) with (theCache st).
  rewrite Hidle. by destruct (sync _) as [[?|?] ?].
Qed.

(** With a single caller the server does what [GET] does. *)
Lemma lone_caller `{Builtins} `{Environment} (srv : Server) (c : Caller) (t : Z) :
  idle srv -> stale_at srv t ->
  let after := settled (arrive c t srv) in
  let solo := GET (caller_bonus c) (at_time t (process srv)) in
  process after = solo.2 /\
  exists reply,
    replies after = replies srv ++ [(caller_id c, reply)] /\
    solo.1 = match reply with
             | Returned body => Returned (Done body)
             | Thrown e => Thrown e
             end.
Proof.
  intros Hidle Hs after solo. pose proof Hidle as (_ & _ & Hi).
  unfold after. rewrite arrive_starts by done. unfold settled. simpl.
  unfold solo, GET. rewrite readyCache_stale by done.
  rewrite updateCache_idle by done. cbn zeta.
  change (entered (with_cache _ (at_time t (process srv))))
    with (entered (getCache (at_time t (process srv))).2).
  destruct (sync _) as [[c1|e] st2]; simpl.
  - split.
    + by destruct (respond _ _).
    + eexists. split; [done|]. by destruct (respond _ _).
  - split; [done|]. by eexists.
Qed.

Lemma exists_upto_sample N : @exists_upto sample_builtins (upto N) N.
Proof.
  intros i n. simpl. destruct (decide (n <= N)) as [Hle|Hgt].
  - apply Z.leb_le in Hle. rewrite Hle. by eexists.
  - assert (Hc : (n <=? N) = false) by (apply Z.leb_gt; lia). by rewrite Hc.
Qed.

Lemma findLatestDraw_exact_witness :
  (@findLatestDraw sample_builtins (upto 500) (boot 0)).1 = Returned 500 /\
  (@run (upto 500) _ (@locate sample_builtins 400) (boot 0)).1 = Returned 500 /\
  (@run (upto 500) _ (@locate sample_builtins 10000) (boot 0)).1 = Returned 500.
Proof.
  destruct (@findLatestDraw_exact sample_builtins (upto 500) 500 (boot 0))
    as [Hfirst Hany].
  - unfold MAX_DRAW_GUESS. lia.
  - apply exists_upto_sample.
  - vm_compute. discriminate.
  - split; [exact Hfirst|].
    split; [refine (proj1 (Hany 400 (boot 0) _))
           |refine (proj1 (Hany 10000 (boot 0) _))];
      unfold MAX_DRAW_GUESS; lia.
Defined.

(** The first sync of a process whose upstream refuses draw 2. *)
Lemma completed_sync_accounts_for_its_range_witness :
  exists c' st',
    @updateCache sample_builtins (upto_except 5 2 http_500) (boot 0)
      = (Returned (Done c'), st') /\
    latest c' = 5 /\ missing c' = Some [2] /\ accounted c' /\
    draws c' !! 2 = None.
Proof.
  eexists _, _. split; [vm_compute; reflexivity|].
  split; [reflexivity|]. split; [reflexivity|].
  refine ((fun Hacc => conj (proj1 Hacc) (proj2 Hacc 2 _))
    (proj1 (proj2 (proj2
      (@completed_sync_accounts_for_its_range sample_builtins
         (upto_except 5 2 http_500) (boot 0) _ _ eq_refl _)))
       eq_refl eq_refl _)).
  - vm_compute. left.
  - vm_compute; reflexivity.
  - vm_compute. discriminate.
Defined.

(** A number in neither place, and a number in both.  Draw 1 cannot be
    fetched: the first sync lists it as missing, the next sync replaces
    the list, and draw 1 is neither stored nor listed.  Draw 3 is
    replaced by the interstitial page: the first sync stores draws 1 and
    2 and rejects; the workers it leaves behind store draws 4 to 6; the
    next sync, the first to complete, fetches 1 to 6 again, fails on draw
    2 and lists it as missing while the cache still holds it, and so does
    the range fetch inside it. *)
Lemma sync_invariants_counterexample :
  (let env := upto_except 2 1 http_500 in
   let first := @updateCache sample_builtins env (boot 0) in
   let later := at_time (now first.2 + CACHE_TTL_MS) first.2 in
   let second := @updateCache sample_builtins env later in
   (exists c1, first.1 = Returned (Done c1) /\ missing c1 = Some [1]) /\
   (exists c2, second.1 = Returned (Done c2) /\
      latest c2 = 2 /\ draws c2 !! 1 = None /\ missing c2 = Some []) /\
   ~ accounted (theCache second.2)) /\
  (let env := relapsing in
   let first := @GET sample_builtins env true (boot t0) in
   let rest :=
     @idle_run sample_builtins env (replicate 6 (0%nat, 0%nat)) first.2 in
   let later := at_time (now rest + CACHE_TTL_MS) rest in
   let second := @updateCache sample_builtins env later in
   let ranged :=
     @fetchRange sample_builtins env 1 6 []
       (@located sample_builtins env later).2 in
   first.1 = Thrown HtmlResponseError /\
   strays rest = [] /\ latest (theCache rest) = 0 /\
   (exists c2, second.1 = Returned (Done c2) /\
      latest c2 = 6 /\ missing c2 = Some [2] /\ is_Some (draws c2 !! 2)) /\
   (@located sample_builtins env later).1 = Returned 6 /\
   ranged.1 = Returned [2] /\ is_Some (draws (theCache ranged.2) !! 2)).
Proof.
  split.
  - intros env first later second.
    split; [eexists; split; vm_compute; reflexivity|].
    split; [eexists; split; [vm_compute; reflexivity|]; by vm_compute|].
    intros [Hcov _]. destruct (Hcov 1) as [[d Hd]|Hin].
    + vm_compute. split; discriminate.
    + vm_compute in Hd. discriminate.
    + vm_compute in Hin. by apply elem_of_nil in Hin.
  - intros env first rest later second ranged.
    split; [vm_compute; reflexivity|]. split; [vm_compute; reflexivity|].
    split; [vm_compute; reflexivity|]. split.
    + eexists. split; [vm_compute; reflexivity|].
      split; [vm_compute; reflexivity|]. split; [vm_compute; reflexivity|].
      vm_compute. by eexists.
    + split; [vm_compute; reflexivity|].
      split; [vm_compute; reflexivity|]. vm_compute. by eexists.
Qed.

(** C3, where the code falls short.  An interstitial page met by the
    range fetch is not caught: [updateCache] and [GET] reject, no block is
    recorded and the cache stays stale.  A reply with a number outside
    1..45 is stored by the sync and then makes [buildRanking], and with it
    [GET], throw. *)
Theorem range_failure_reaches_the_read :
  (let served := @GET sample_builtins (upto_except 3 1 ok_html) true (boot t0) in
   served.1 = Thrown HtmlResponseError /\
   (@located sample_builtins (upto_except 3 1 ok_html) (boot t0)).1 = Returned 3 /\
   blockedUntil (theCache served.2) = None /\
   updatedAt (theCache served.2) = 0 /\
   latest (theCache served.2) = 0 /\
   (@updateCache sample_builtins (upto_except 3 1 ok_html) (boot t0)).1
     = Thrown HtmlResponseError) /\
  (let served := @GET sample_builtins (odd_upto 2) true (boot t0) in
   served.1 = Thrown TypeError /\
   exists c, (@updateCache sample_builtins (odd_upto 2) (boot t0)).1
             = Returned (Done c)).
Proof.
  split.
  - repeat split; vm_compute; reflexivity.
  - split; [vm_compute; reflexivity|]. eexists. vm_compute. reflexivity.
Qed.


(** A sync started during the cool-down. *)
Lemma blocked_sync_touches_only_updatedAt_witness :
  exists st',
    @updateCache sample_builtins (upto 3) (blocked_state 2000)
      = (Returned (Done (theCache st')), st') /\
    requests (log st') = 0%nat /\
    blockedUntil (theCache st') = Some 901000.
Proof.
  destruct (@blocked_sync_touches_only_updatedAt sample_builtins (upto 3)
              (blocked_state 2000) 901000)
    as (st' & Hup & _ & _ & Hreq & _ & _ & _ & _ & Hb & _).
  - reflexivity.
  - reflexivity.
  - discriminate.
  - reflexivity.
  - exists st'. split; [exact Hup|]. split; [exact Hreq|exact Hb].
Defined.

(** A block is recorded, its time passes, the next response still
    carries it. *)
Lemma expired_block_still_reported_counterexample :
  let first := @GET sample_builtins walled true (boot t0) in
  let later := at_time (t0 + 1000000) first.2 in
  exists body st2,
    @GET sample_builtins walled true later = (Returned (Done body), st2) /\
    blockedUntil (theCache later) = Some (t0 + 900001) /\
    now later = t0 + 1000000 /\
    blocked (blockedUntil (theCache later)) (now later) = false /\
    apiBlockedUntil body = Some (t0 + 900001).
Proof.
  intros first later. eexists _, _.
  split; [vm_compute; reflexivity|]. repeat split; vm_compute; reflexivity.
Qed.

(** A response of a process that never met a block. *)
Lemma apiBlockedUntil_is_last_recorded_block_witness :
  exists body st',
    @GET sample_builtins (upto 3) false (boot t0) = (Returned (Done body), st') /\
    apiBlockedUntil body = None.
Proof.
  eexists _, _. split; [vm_compute; reflexivity|].
  refine (proj2 (proj1 (proj2
    (@apiBlockedUntil_is_last_recorded_block sample_builtins (upto 3)
       false (boot t0) _ _ _))) _).
  - vm_compute; reflexivity.
  - reflexivity.
Defined.

(** The first request of a process meets the interstitial page. *)
Lemma empty_cache_is_served_witness :
  exists body st',
    @GET sample_builtins walled true (boot t0) = (Returned (Done body), st') /\
    hasData body = false /\ totalDraws body = 0%nat /\
    apiBlockedUntil body = Some (t0 + 900001).
Proof.
  destruct (@empty_cache_is_served sample_builtins walled true (boot t0)
              (@readyCache sample_builtins walled (boot t0)).2
              (theCache (@readyCache sample_builtins walled (boot t0)).2))
    as (body & Hget & Hd & Ht & _).
  - vm_compute. reflexivity.
  - reflexivity.
  - exists body, (@readyCache sample_builtins walled (boot t0)).2.
    split; [exact Hget|]. split; [exact Hd|]. split; [exact Ht|].
    unfold GET in Hget. vm_compute in Hget. by injection Hget as <-.
Defined.


(** ** Anomalous responses *)

Lemma trimStart_split s :
  exists ws, s = ws ++ trimStart s /\ forallb is_whitespace ws = true.
Proof.
  induction s as [|c s (ws & Hs & Hw)]; [by exists []|].
  simpl. destruct (is_whitespace c) eqn:Hc.
  - exists (c :: ws). simpl. rewrite Hc, Hw. split; [by f_equal|done].
  - by exists [].
Qed.

Lemma trimStart_head s :
  match trimStart s with
  | c :: _ => is_whitespace c = false
  | [] => True
  end.
Proof.
  induction s as [|c s IH]; [done|]. simpl.
  destruct (is_whitespace c) eqn:Hc; [done|]. by simpl.
Qed.

Lemma trimStart_skip ws s :
  forallb is_whitespace ws = true -> trimStart (ws ++ s) = trimStart s.
Proof.
  induction ws as [|c ws IH]; [done|]. simpl.
  intros [-> Hw]%andb_true_iff. by apply IH.
Qed.

Lemma trimStart_last l c :
  is_whitespace c = false -> exists l', trimStart (l ++ [c]) = l' ++ [c].
Proof.
  intros Hc. induction l as [|x l [l' IH]]; simpl.
  - rewrite Hc. by exists [].
  - destruct (is_whitespace x); [by exists l'|]. by exists (x :: l).
Qed.

(** Trimming the end does not change what the text starts with. *)
Lemma startsWith_trim raw :
  startsWith_lt (trim raw) = startsWith_lt (trimStart raw).
Proof.
  unfold trim. pose proof (trimStart_head raw) as Hh.
  destruct (trimStart raw) as [|c rest]; [done|].
  simpl rev. destruct (trimStart_last (rev rest) c Hh) as [l' ->].
  by rewrite rev_app_distr.
Qed.

(** X1.  [fetchJson] takes a response for an anomalous one exactly when its
    status is 2xx and the first code unit of its body that is not white
    space is [<].  The content type plays no part, and an error page sent
    with an error status is an HTTP error, which [fetchDraw] retries. *)
Theorem readJson_html_iff `{Builtins} (r : Response) :
  readJson r = Thrown HtmlResponseError <->
  exists status jsonType ws rest,
    r = Reply true status jsonType (ws ++ 60%N :: rest) /\
    forallb is_whitespace ws = true.
Proof.
  split.
  - destruct r as [| |ok status jsonType raw]; try done. simpl.
    destruct ok; [|done]. simpl. rewrite startsWith_trim.
    destruct (trimStart_split raw) as (ws & Hs & Hw).
    destruct (trimStart raw) as [|c rest] eqn:Ht; simpl.
    + destruct (JSON_parse raw); [done|by destruct jsonType].
    + destruct (c =? 60)%N eqn:Hc.
      * apply N.eqb_eq in Hc. subst c. intros _.
        exists status, jsonType, ws, rest. by rewrite <- Hs.
      * destruct (JSON_parse raw); [done|by destruct jsonType].
  - intros (status & jsonType & ws & rest & -> & Hw). simpl.
    rewrite startsWith_trim, (trimStart_skip _ _ Hw). done.
Qed.

(** ** What the sync asks of the upstream *)

Lemma behaves_mono {A} (P P' : Z -> Prop) (Q Q' : A -> Prop) (p : Async A) :
  (forall n, P n -> P' n) -> (forall a, Q a -> Q' a) ->
  forall r r', (r <= r')%nat -> behaves P Q r p -> behaves P' Q' r' p.
Proof.
  intros HP HQ. induction p as [a|e|no k IH|ms k IH]; intros r r' Hle; cbn.
  - apply HQ.
  - done.
  - intros [Hno Hk]. split; [by apply HP|].
    destruct r as [|r]; [done|]. destruct r' as [|r']; [lia|].
    intros resp. apply (IH resp r); [lia|apply Hk].
  - by apply IH.
Qed.

Lemma behaves_bind {A B} (P : Z -> Prop) (Q1 : A -> Prop) (Q : B -> Prop)
    (m : Async A) (f : A -> Async B) b :
  (forall x, Q1 x -> behaves P Q b (f x)) ->
  forall a, behaves P Q1 a m -> behaves P Q (a + b) (bind m f).
Proof.
  intros Hf. induction m as [x|e|no k IH|ms k IH]; intros a; cbn.
  - intros Hx. apply (behaves_mono P P Q Q (f x)) with (r := b); auto. lia.
  - done.
  - intros [Hno Hk]. split; [done|]. destruct a as [|a]; [done|].
    cbn. intros resp. by apply IH.
  - apply IH.
Qed.

Lemma asked_nil P : asked P [].
Proof. by intros no ?%elem_of_nil. Qed.

Lemma asked_app P a b : asked P a -> asked P b -> asked P (a ++ b).
Proof. intros Ha Hb no [?|?]%elem_of_app; auto. Qed.

Lemma asked_mono (P P' : Z -> Prop) more :
  (forall n, P n -> P' n) -> asked P more -> asked P' more.
Proof. intros HP Ha no Hin. auto. Qed.

Lemma requests_app a b : requests (a ++ b) = (requests a + requests b)%nat.
Proof. unfold requests. by rewrite filter_app, length_app. Qed.

Section BehaviourFacts.
Context `{Builtins} `{Environment}.

(** What a computation may do is what awaiting it does. *)
Lemma run_behaves {A} (P : Z -> Prop) (Q : A -> Prop) (p : Async A) :
  forall r st, behaves P Q r p ->
  exists more,
    log (run p st).2 = more ++ log st /\
    (requests more <= r)%nat /\ asked P more /\
    syncs more = 0%nat /\ locates more = 0%nat /\
    lottoCache (run p st).2 = lottoCache st /\
    match (run p st).1 with
    | Returned a => Q a
    | Thrown e => e = HtmlResponseError
    end.
Proof.
  induction p as [a|e|no k IH|ms k IH]; intros r st Hp; cbn in Hp |- *.
  - exists []. split_and!; try done; [cbn; lia|apply asked_nil].
  - exists []. split_and!; try done; [cbn; lia|apply asked_nil].
  - destruct Hp as [Hno Hk]. destruct r as [|r]; [done|].
    destruct (IH (upstream (requests (log st)) no) r
                (advance (elapsed (length (log st))) (record (Request no) st))
                (Hk _)) as (more & Hl & Hr & Ha & Hs & Hlo & Hc & Hres).
    exists (more ++ [Request no]). rewrite Hl, <- app_assoc.
    split; [done|]. split.
    { rewrite requests_app. change (requests [Request no]) with 1%nat. lia. }
    split.
    { apply asked_app; [done|]. intros n Hin. apply list_elem_of_singleton in Hin.
      by injection Hin as ->. }
    unfold syncs, locates in *. rewrite !filter_app, !length_app.
    split; [simpl; lia|]. split; [simpl; lia|]. by split.
  - destruct (IH r (do_sleep ms st) Hp)
      as (more & Hl & Hr & Ha & Hs & Hlo & Hc & Hres).
    exists (more ++ [Sleep ms]). rewrite Hl, <- app_assoc.
    split; [done|]. split.
    { rewrite requests_app. change (requests [Sleep ms]) with 0%nat. lia. }
    split.
    { apply asked_app; [done|]. intros n Hin. apply list_elem_of_singleton in Hin.
      done. }
    unfold syncs, locates in *. rewrite !filter_app, !length_app.
    split; [simpl; lia|]. split; [simpl; lia|]. by split.
Qed.

Lemma behaves_fetchDraw_loop no left : forall a,
  behaves (fun n => n = no) (fun _ => True) left (fetchDraw_loop left a no).
Proof.
  induction left as [|left IH]; intros a; [done|].
  cbn [fetchDraw_loop fetchDrawOnce fetchJson bind catch behaves].
  split; [done|]. intros resp. destruct (readJson resp) as [data|e]; simpl.
  - destruct (parseDraw data) as [x|e]; simpl; [done|].
    destruct (String.eqb _ _) eqn:He; simpl; [by apply html_by_name|apply IH].
  - destruct (String.eqb _ _) eqn:He; simpl; [by apply html_by_name|apply IH].
Qed.

Lemma behaves_fetchDraw no :
  behaves (fun n => n = no) (fun _ => True) 3 (fetchDraw no).
Proof. apply (behaves_fetchDraw_loop no 3 0). Qed.
End BehaviourFacts.

Lemma pow2_S k : 2 ^ Z.of_nat (S k) = 2 * 2 ^ Z.of_nat k.
Proof. rewrite Nat2Z.inj_succ, Z.pow_succ_r; lia. Qed.

Lemma pow2_pos k : 1 <= 2 ^ Z.of_nat k.
Proof. pose proof (Z.pow_pos_nonneg 2 (Z.of_nat k)). lia. Qed.

Lemma mid_bounds low high :
  low + high - 1 <= 2 * ((low + high) / 2) <= low + high.
Proof.
  pose proof (Z.div_mod (low + high) 2).
  pose proof (Z.mod_pos_bound (low + high) 2). lia.
Qed.

Section LocatorBudget.
Context `{Builtins}.

Lemma behaves_searchDown fuel : forall k low high,
  high - low + 1 < 2 ^ Z.of_nat k ->
  behaves (fun n => low <= n <= high) (fun L => 1 <= L <= Z.max 1 high)
          (3 * k) (searchDown fuel low high).
Proof.
  induction fuel as [|fuel IH]; intros k low high Hk; cbn [searchDown].
  - cbn. lia.
  - destruct (low <=? high) eqn:Hc; [|cbn; lia]. apply Z.leb_le in Hc.
    destruct k as [|k]; [simpl in Hk; lia|]. rewrite pow2_S in Hk.
    pose proof (mid_bounds low high) as Hmid.
    replace (3 * S k)%nat with (3 + 3 * k)%nat by lia.
    apply (behaves_bind _ (fun _ => True)).
    + intros [d|] _.
      * eapply behaves_mono; [| |reflexivity|apply (IH k); lia];
          cbn; intros; lia.
      * eapply behaves_mono; [| |reflexivity|apply (IH k); lia];
          cbn; intros; lia.
    + eapply behaves_mono; [| |reflexivity|apply behaves_fetchDraw];
        cbn; intros; lia.
Qed.

Lemma behaves_bisect fuel : forall k low high,
  high - low <= 2 ^ Z.of_nat k ->
  behaves (fun n => low < n < high)
          (fun L => low <= L <= Z.max low (high - 1))
          (3 * k) (bisect fuel low high).
Proof.
  induction fuel as [|fuel IH]; intros k low high Hk; cbn [bisect].
  - cbn. lia.
  - destruct (low + 1 <? high) eqn:Hc; [|cbn; lia]. apply Z.ltb_lt in Hc.
    destruct k as [|k]; [simpl in Hk; lia|]. rewrite pow2_S in Hk.
    pose proof (mid_bounds low high) as Hmid.
    replace (3 * S k)%nat with (3 + 3 * k)%nat by lia.
    apply (behaves_bind _ (fun _ => True)).
    + intros [d|] _.
      * eapply behaves_mono; [| |reflexivity|apply (IH k); lia];
          cbn; intros; lia.
      * eapply behaves_mono; [| |reflexivity|apply (IH k); lia];
          cbn; intros; lia.
    + eapply behaves_mono; [| |reflexivity|apply behaves_fetchDraw];
        cbn; intros; lia.
Qed.

Lemma behaves_bisect_capped fuel low high :
  1 <= low -> low <= high <= MAX_DRAW_GUESS ->
  behaves (fun n => 1 <= n <= MAX_DRAW_GUESS)
          (fun L => 1 <= L <= MAX_DRAW_GUESS) 42 (bisect fuel low high).
Proof.
  intros Hlow Hhigh.
  eapply behaves_mono; [| |reflexivity|apply (behaves_bisect fuel 14)].
  - cbn. intros; lia.
  - cbn. intros; lia.
  - change (2 ^ Z.of_nat 14) with 16384. unfold MAX_DRAW_GUESS in *. lia.
Qed.

Lemma behaves_grow fuel : forall k low high,
  1 <= low -> low <= high <= MAX_DRAW_GUESS ->
  MAX_DRAW_GUESS <= high * 2 ^ Z.of_nat k ->
  behaves (fun n => 1 <= n <= MAX_DRAW_GUESS)
          (fun L => 1 <= L <= MAX_DRAW_GUESS)
          (3 * S k + 42) (grow fuel low high).
Proof.
  induction fuel as [|fuel IH]; intros k low high Hlow Hhigh Hk; cbn [grow].
  - eapply behaves_mono; [| |..|by apply behaves_bisect_capped]; auto. lia.
  - destruct (high <=? MAX_DRAW_GUESS) eqn:Hc.
    2: { eapply behaves_mono; [| |..|by apply behaves_bisect_capped]; auto. lia. }
    replace (3 * S k + 42)%nat with (3 + (3 * k + 42))%nat by lia.
    apply (behaves_bind _ (fun _ => True)).
    + intros [d|] _.
      * destruct (high =? MAX_DRAW_GUESS) eqn:Hm.
        { apply Z.eqb_eq in Hm. cbn. lia. }
        apply Z.eqb_neq in Hm.
        destruct k as [|k]; [simpl in Hk; lia|]. rewrite pow2_S in Hk.
        pose proof (pow2_pos k).
        eapply behaves_mono; [| |..|apply (IH k)]; auto; try lia.
        destruct (Z.min_spec (high * 2) MAX_DRAW_GUESS) as [[_ ->]|[_ ->]]; nia.
      * eapply behaves_mono; [| |..|by apply behaves_bisect_capped]; auto. lia.
    + eapply behaves_mono; [| |reflexivity|apply behaves_fetchDraw];
        cbn; intros; lia.
Qed.

(** The locator from a seed in range: at most 29 probes of three
    requests each, none outside [1, MAX_DRAW_GUESS]. *)
Lemma behaves_locate probe :
  1 <= probe <= MAX_DRAW_GUESS ->
  behaves (fun n => 1 <= n <= MAX_DRAW_GUESS)
          (fun L => 1 <= L <= MAX_DRAW_GUESS) 87 (locate probe).
Proof.
  intros Hp. unfold locate.
  change 87%nat with (3 + 84)%nat.
  apply (behaves_bind _ (fun _ => True)).
  - intros [d|] _.
    + change 84%nat with (3 * 14 + 42)%nat. apply behaves_grow; [lia|lia|].
      change (2 ^ Z.of_nat 13) with 8192. unfold MAX_DRAW_GUESS in *. lia.
    + eapply behaves_mono; [| |..|apply (behaves_searchDown _ 14)].
      * cbn. intros; lia.
      * cbn. intros; lia.
      * lia.
      * change (2 ^ Z.of_nat 14) with 16384. unfold MAX_DRAW_GUESS in *. lia.
  - eapply behaves_mono; [| |reflexivity|apply behaves_fetchDraw];
      cbn; intros; lia.
Qed.
End LocatorBudget.

Section PoolBudget.
Context `{Builtins} `{Environment}.

(** Whatever a pool step does to the cache, it only adds a draw. *)
Lemma resume_frame end_ i no p pl st pl' st' :
  resume end_ i no p pl st = inr (pl', st') ->
  theCache st' = set_draws (draws (theCache st')) (theCache st) /\
  forall n, is_Some (draws (theCache st) !! n) ->
            is_Some (draws (theCache st') !! n).
Proof.
  destruct p as [[d|]|e|n k|ms k]; simpl;
    try destruct (claim end_ (current pl)); intros Hr; simplify_eq.
  - rewrite theCache_modify. simpl. split; [done|].
    intros n Hn. apply lookup_insert_is_Some.
    destruct (decide (no = n)); [by left|by right].
  - split; [by rewrite set_draws_id|done].
  - split; [by rewrite set_draws_id|done].
  - split; [by rewrite set_draws_id|done].
Qed.

Lemma pool_run_frame origin end_ fuel : forall step pl st,
  let st' := (pool_run fuel origin step end_ pl st).2 in
  theCache st' = set_draws (draws (theCache st')) (theCache st) /\
  forall n, is_Some (draws (theCache st) !! n) ->
            is_Some (draws (theCache st') !! n).
Proof.
  induction fuel as [|fuel IH]; intros step pl st; cbn [pool_run].
  - simpl. split; [by rewrite set_draws_id|done].
  - destruct (_ !! _) as [i|]; [|simpl; split; [by rewrite set_draws_id|done]].
    destruct (workers pl !! i) as [[|no p]|];
      try (simpl; split; [by rewrite set_draws_id|done]).
    destruct (resume end_ i no p pl st) as [e|[pl1 st1]] eqn:Hr;
      [cbn [snd]; rewrite abandon_cache;
       split; [by rewrite set_draws_id|done]|].
    destruct (resume_frame _ _ _ _ _ _ _ _ Hr) as [Hf1 Hk1].
    destruct (IH (S step) pl1 st1) as [Hf2 Hk2].
    cbn zeta in Hf2, Hk2 |- *. split; [|by auto].
    rewrite Hf2 at 1. rewrite Hf1. by destruct (theCache st).
Qed.

Lemma resume_requests start end_ c0 m0 fresh rs i no p pl st :
  pool_inv start end_ c0 m0 fresh pl st ->
  Forall2 load (workers pl) rs ->
  workers pl !! i = Some (Awaiting no p) ->
  match resume end_ i no p pl st with
  | inl e => e = HtmlResponseError
  | inr (pl', st') =>
      exists more rs',
        log st' = more ++ log st /\
        syncs more = 0%nat /\ locates more = 0%nat /\
        asked (fun n => start <= n <= end_) more /\
        Forall2 load (workers pl') rs' /\
        (requests more + sum_list rs' + 3 * Z.to_nat (end_ - current pl' + 1)
         <= sum_list rs + 3 * Z.to_nat (end_ - current pl + 1))%nat
  end.
Proof.
  intros Hinv Hload Hi.
  destruct (Forall2_lookup_l _ _ _ _ _ Hload Hi) as (r & Hr & Hwr).
  inversion Hwr as [|? ? ? Hb]; subst.
  destruct (inv_pending _ _ _ _ _ _ _ Hinv _ _ _ Hi) as ([Hcl ?] & _).
  assert (Hclaim :
    exists r', load (claim end_ (current pl)).2 r' /\
      (r' + 3 * Z.to_nat (end_ - (claim end_ (current pl)).1 + 1)
       <= 3 * Z.to_nat (end_ - current pl + 1))%nat).
  { unfold claim. destruct (current pl >? end_) eqn:Hgt; simpl.
    - exists 0%nat. split; [constructor|lia].
    - exists 3%nat. split; [constructor; apply behaves_fetchDraw|].
      rewrite Z.gtb_ltb in Hgt. apply Z.ltb_ge in Hgt. lia. }
  destruct Hclaim as (r' & Hr' & Hpot).
  destruct p as [[d|]|e|n k|ms k]; simpl in Hb |- *.
  - destruct (claim end_ (current pl)) as [cur' w]. simpl in *.
    exists [], (<[i := r']> rs). split_and!; try done; [apply asked_nil| |].
    + by apply Forall2_insert.
    + pose proof (sum_list_insert rs i _ r' Hr). cbn. lia.
  - destruct (claim end_ (current pl)) as [cur' w]. simpl in *.
    exists [], (<[i := r']> rs). split_and!; try done; [apply asked_nil| |].
    + by apply Forall2_insert.
    + pose proof (sum_list_insert rs i _ r' Hr). cbn. lia.
  - done.
  - destruct Hb as [-> Hk]. destruct r as [|r]; [done|].
    exists [Request no], (<[i := r]> rs). split_and!; try done.
    + intros m Hm. apply list_elem_of_singleton in Hm. injection Hm as ->. lia.
    + simpl. apply Forall2_insert; [done|]. constructor. apply Hk.
    + pose proof (sum_list_insert rs i _ r Hr).
      change (requests [Request no]) with 1%nat. simpl. lia.
  - exists [Sleep ms], (<[i := r]> rs). split_and!; try done.
    + intros m Hm. by apply list_elem_of_singleton in Hm.
    + simpl. apply Forall2_insert; [done|]. by constructor.
    + pose proof (sum_list_insert rs i _ r Hr).
      change (requests [Sleep ms]) with 0%nat. simpl. lia.
Qed.

Lemma pool_run_requests start end_ c0 m0 origin fuel :
  forall step fresh ds rs pl st,
  pool_inv start end_ c0 m0 fresh pl st ->
  Forall2 cost (workers pl) ds ->
  Forall2 load (workers pl) rs ->
  exists more,
    log (pool_run fuel origin step end_ pl st).2 = more ++ log st /\
    syncs more = 0%nat /\ locates more = 0%nat /\
    asked (fun n => start <= n <= end_) more /\
    (requests more
     <= sum_list rs + 3 * Z.to_nat (end_ - current pl + 1))%nat /\
    forall e, (pool_run fuel origin step end_ pl st).1 = Thrown e ->
              e = HtmlResponseError.
Proof.
  induction fuel as [|fuel IH]; intros step fresh ds rs pl st Hinv Hcost Hload.
  - exists []. split_and!; try done; [apply asked_nil|cbn; lia].
  - cbn [pool_run].
    destruct (_ !! _) as [i|];
      [|exists []; split_and!; try done; [apply asked_nil|cbn; lia]].
    destruct (workers pl !! i) as [[|no p]|] eqn:Hi;
      try (exists []; split_and!; try done; [apply asked_nil|cbn; lia]).
    pose proof (resume_requests _ _ _ _ _ _ _ _ _ _ _ Hinv Hload Hi) as Hreq.
    destruct (resume end_ i no p pl st) as [e|[pl1 st1]] eqn:Hr.
    + exists []. cbn [fst snd]. rewrite abandon_log.
      split_and!; try done; [apply asked_nil|cbn; lia|].
      by intros e' [= <-].
    + destruct Hreq as (m1 & rs1 & Hl1 & Hs1 & Hlo1 & Ha1 & Hload1 & Hb1).
      destruct (resume_step _ _ _ _ _ _ _ _ _ _ _ _ _ Hinv Hcost Hi Hr)
        as (fresh1 & ds1 & Hinv1 & Hcost1 & _).
      destruct (IH (S step) _ _ _ _ _ Hinv1 Hcost1 Hload1)
        as (m2 & Hl2 & Hs2 & Hlo2 & Ha2 & Hb2 & He2).
      exists (m2 ++ m1). rewrite Hl2, Hl1, app_assoc.
      split; [done|]. rewrite syncs_app, locates_app, requests_app.
      split; [lia|]. split; [lia|]. split; [by apply asked_app|].
      split; [lia|done].
Qed.

Lemma spawn_load n end_ : forall cur,
  exists rs, Forall2 load (spawn n end_ cur).2 rs /\
    (sum_list rs + 3 * Z.to_nat (end_ - (spawn n end_ cur).1 + 1)
     <= 3 * Z.to_nat (end_ - cur + 1))%nat.
Proof.
  induction n as [|n IH]; intros cur; simpl.
  - exists []. split; [constructor|simpl; lia].
  - unfold claim. destruct (cur >? end_) eqn:Hgt.
    + destruct (IH cur) as (rs & Hrs & Hsum).
      destruct (spawn n end_ cur) as [cur' ws]. simpl in *.
      exists (0%nat :: rs). split; [by repeat constructor|simpl; lia].
    + rewrite Z.gtb_ltb in Hgt. apply Z.ltb_ge in Hgt.
      destruct (IH (cur + 1)) as (rs & Hrs & Hsum).
      destruct (spawn n end_ (cur + 1)) as [cur' ws]. simpl in *.
      exists (3%nat :: rs). split.
      * constructor; [|done]. constructor. apply behaves_fetchDraw.
      * simpl. lia.
Qed.

Lemma fetchRange_effects start end_ m0 st :
  let st' := (fetchRange start end_ m0 st).2 in
  exists more,
    log st' = more ++ log st /\
    (requests more <= 3 * Z.to_nat (end_ - start + 1))%nat /\
    asked (fun n => start <= n <= end_) more /\
    syncs more = 0%nat /\ locates more = 0%nat /\
    (forall e, (fetchRange start end_ m0 st).1 = Thrown e ->
               e = HtmlResponseError) /\
    theCache st' = set_draws (draws (theCache st')) (theCache st) /\
    forall n, is_Some (draws (theCache st) !! n) ->
              is_Some (draws (theCache st') !! n).
Proof.
  unfold fetchRange.
  pose proof (spawn_inv CONCURRENCY start end_ m0 st) as Hinv.
  destruct (spawn_spec end_ CONCURRENCY start) as (_ & _ & _ & ds & Hds & _).
  destruct (spawn_load CONCURRENCY end_ start) as (rs & Hrs & Hsum).
  destruct (spawn CONCURRENCY end_ start) as [cur ws]. simpl in *.
  destruct (pool_run_requests _ _ _ _ (length (log st)) (pool_fuel start end_)
              0%nat _ _ _ _ _ Hinv Hds Hrs)
    as (more & Hl & Hs & Hlo & Ha & Hb & He).
  destruct (pool_run_frame (length (log st)) end_ (pool_fuel start end_) 0%nat
              {| current := cur; workers := ws; collected := m0 |} st)
    as [Hf Hk].
  simpl in Hb. exists more. split_and!; try done. lia.
Qed.
End PoolBudget.

Section SyncEffects.
Context `{Builtins} `{Environment}.

Lemma findLatestDraw_effects st :
  latest (theCache st) <= MAX_DRAW_GUESS ->
  exists more,
    log (findLatestDraw st).2 = more ++ Locate :: log st /\
    (requests more <= 87)%nat /\
    asked (fun n => 1 <= n <= MAX_DRAW_GUESS) more /\
    syncs more = 0%nat /\ locates more = 0%nat /\
    match (findLatestDraw st).1 with
    | Returned L => 1 <= L <= MAX_DRAW_GUESS
    | Thrown e => e = HtmlResponseError
    end.
Proof.
  intros Hl. rewrite findLatestDraw_unfold.
  set (probe := if 0 <? latest (theCache st) then latest (theCache st) else 1100).
  assert (1 <= probe <= MAX_DRAW_GUESS) as Hp.
  { unfold probe. destruct (0 <? _) eqn:Hc; [apply Z.ltb_lt in Hc; lia|].
    unfold MAX_DRAW_GUESS. lia. }
  destruct (run_behaves _ _ (locate probe) 87
              (record Locate (with_cache (theCache st) st))
              (behaves_locate probe Hp))
    as (more & Hlog & Hr & Ha & Hs & Hlo & _ & Hres).
  exists more. by split_and!.
Qed.

(** What a sync does to the cache, whatever its outcome. *)
Lemma sync_frame st :
  let st' := (sync st).2 in
  (forall n, is_Some (draws (theCache st) !! n) ->
             is_Some (draws (theCache st') !! n)) /\
  (is_Some (blockedUntil (theCache st)) ->
   is_Some (blockedUntil (theCache st'))) /\
  inFlight (theCache st') = inFlight (theCache st) /\
  match (sync st).1 with
  | Returned c => c = theCache st' /\ updatedAt c = now st'
  | Thrown e =>
      latest (theCache st') = latest (theCache st) /\
      updatedAt (theCache st') = updatedAt (theCache st) /\
      blockedUntil (theCache st') = blockedUntil (theCache st) /\
      missing (theCache st') = missing (theCache st)
  end.
Proof.
  unfold sync.
  change (theCache (record SyncStart st)) with (theCache st).
  destruct (blocked _ _); [by repeat split|].
  pose proof (findLatestDraw_cache (record SyncStart st)) as Hc.
  change (theCache (record SyncStart st)) with (theCache st) in Hc.
  destruct (findLatestDraw (record SyncStart st)) as [[L|e] st1];
    simpl in Hc.
  - destruct (_ <=? L).
    + pose proof (fetchRange_effects
        (if 0 <? latest (theCache st1) then latest (theCache st1) + 1 else 1)
        L [] st1) as (more & _ & _ & _ & _ & _ & _ & Hf & Hk).
      cbn zeta in Hf, Hk.
      destruct (fetchRange _ _ _ _) as [[m|e] st2]; simpl in Hf, Hk |- *.
      * rewrite !theCache_modify. simpl. rewrite Hf, Hc in *. simpl.
        split_and!; try done; intros n Hn; apply Hk; by rewrite Hc.
      * rewrite Hf, Hc in *. simpl.
        split_and!; try done; intros n Hn; apply Hk; by rewrite Hc.
    + simpl. rewrite !theCache_modify. simpl. rewrite Hc. by split_and!.
  - destruct (String.eqb _ _); simpl.
    + rewrite !theCache_modify. simpl. rewrite Hc.
      split_and!; try done; by eexists.
    + rewrite Hc. by split_and!.
Qed.

(** What a sync asks of the upstream. *)
Lemma sync_budget st :
  latest (theCache st) <= MAX_DRAW_GUESS ->
  let st' := (sync st).2 in
  let base := Z.max 0 (latest (theCache st)) in
  exists more,
    log st' = more ++ SyncStart :: log st /\
    asked (fun n => 1 <= n <= MAX_DRAW_GUESS) more /\
    syncs more = 0%nat /\ (locates more <= 1)%nat /\
    (requests more <= 3 * Z.to_nat (MAX_DRAW_GUESS - base) + 87)%nat /\
    latest (theCache st') <= MAX_DRAW_GUESS /\
    (0 <= latest (theCache st) -> 0 <= latest (theCache st')) /\
    match (sync st).1 with
    | Returned _ =>
        (requests more <= 3 * Z.to_nat (latest (theCache st') - base) + 87)%nat
    | Thrown e => e = HtmlResponseError
    end.
Proof.
  intros Hmax st' base. subst st'. unfold sync.
  change (theCache (record SyncStart st)) with (theCache st).
  destruct (blocked _ _).
  { exists []. simpl. split_and!; try done; try apply asked_nil; cbn; lia. }
  pose proof (findLatestDraw_cache (record SyncStart st)) as Hc.
  change (theCache (record SyncStart st)) with (theCache st) in Hc.
  destruct (findLatestDraw_effects (record SyncStart st) Hmax)
    as (m1 & Hl1 & Hr1 & Ha1 & Hs1 & Hlo1 & Hres1).
  destruct (findLatestDraw (record SyncStart st)) as [[L|e] st1];
    simpl in Hc, Hl1, Hres1.
  - rewrite Hc.
    assert (Hstart : (if 0 <? latest (theCache st)
                      then latest (theCache st) + 1 else 1) = base + 1).
    { unfold base. destruct (0 <? _) eqn:E;
        [apply Z.ltb_lt in E|apply Z.ltb_ge in E]; lia. }
    rewrite Hstart. destruct (base + 1 <=? L) eqn:Hs.
    + apply Z.leb_le in Hs.
      pose proof (fetchRange_effects (base + 1) L [] st1)
        as (m2 & Hl2 & Hr2 & Ha2 & Hs2 & Hlo2 & He2 & Hf & _).
      cbn zeta in Hl2, Hf.
      assert (Ha2' : asked (fun n => 1 <= n <= MAX_DRAW_GUESS) m2).
      { eapply asked_mono; [|done]. unfold base. intros; cbn in *; lia. }
      destruct (fetchRange _ _ _ _) as [[m|e] st2]; simpl in Hl2, Hf, He2 |- *.
      * exists (m2 ++ m1 ++ [Locate]). rewrite ?theCache_modify. simpl.
        rewrite Hl2, Hl1, <- !app_assoc.
        rewrite !syncs_app, !locates_app, !requests_app, Hs1, Hs2, Hlo1, Hlo2.
        change (requests [Locate]) with 0%nat.
        change (locates [Locate]) with 1%nat.
        change (syncs [Locate]) with 0%nat.
        split_and!; try done; try lia.
        apply asked_app; [done|]. apply asked_app; [done|].
        intros n Hn. by apply list_elem_of_singleton in Hn.
      * exists (m2 ++ m1 ++ [Locate]).
        rewrite Hl2, Hl1, <- !app_assoc.
        rewrite !syncs_app, !locates_app, !requests_app, Hs1, Hs2, Hlo1, Hlo2.
        change (requests [Locate]) with 0%nat.
        change (locates [Locate]) with 1%nat.
        change (syncs [Locate]) with 0%nat.
        rewrite Hf, Hc. simpl.
        split_and!; try done; try lia; [|by apply He2].
        apply asked_app; [done|]. apply asked_app; [done|].
        intros n Hn. by apply list_elem_of_singleton in Hn.
    + apply Z.leb_gt in Hs. simpl. exists (m1 ++ [Locate]).
      rewrite ?theCache_modify. simpl. rewrite Hl1, <- !app_assoc.
      rewrite !syncs_app, !locates_app, !requests_app, Hs1, Hlo1.
      change (requests [Locate]) with 0%nat.
      change (locates [Locate]) with 1%nat.
      change (syncs [Locate]) with 0%nat.
      split_and!; try done; try lia.
      apply asked_app; [done|].
      intros n Hn. by apply list_elem_of_singleton in Hn.
  - subst e. simpl. exists (m1 ++ [Locate]).
    rewrite ?theCache_modify. simpl. rewrite Hc, Hl1, <- !app_assoc.
    rewrite !syncs_app, !locates_app, !requests_app, Hs1, Hlo1.
    change (requests [Locate]) with 0%nat.
    change (locates [Locate]) with 1%nat.
    change (syncs [Locate]) with 0%nat.
    split_and!; try done; try lia.
    apply asked_app; [done|].
    intros n Hn. by apply list_elem_of_singleton in Hn.
Qed.
End SyncEffects.

Section Rejections.
Context `{Builtins} `{Environment}.

Lemma run_fetchDraw_throws no st e :
  (run (fetchDraw no) st).1 = Thrown e -> e = HtmlResponseError.
Proof.
  destruct (run_behaves _ _ _ 3%nat st (behaves_fetchDraw no))
    as (_ & _ & _ & _ & _ & _ & _ & Hres).
  intros He. by rewrite He in Hres.
Qed.

Lemma run_searchDown_throws fuel : forall low high st e,
  (run (searchDown fuel low high) st).1 = Thrown e -> e = HtmlResponseError.
Proof.
  induction fuel as [|fuel IH]; intros low high st e; [done|].
  cbn [searchDown]. destruct (low <=? high); [|done].
  rewrite run_bind. pose proof (run_fetchDraw_throws ((low + high) / 2) st) as Hd.
  destruct (run (fetchDraw _) st) as [[[d|]|e'] st1]; simpl in Hd |- *.
  - apply IH.
  - apply IH.
  - intros [= <-]. by apply Hd.
Qed.

Lemma run_bisect_throws fuel : forall low high st e,
  (run (bisect fuel low high) st).1 = Thrown e -> e = HtmlResponseError.
Proof.
  induction fuel as [|fuel IH]; intros low high st e; [done|].
  cbn [bisect]. destruct (low + 1 <? high); [|done].
  rewrite run_bind. pose proof (run_fetchDraw_throws ((low + high) / 2) st) as Hd.
  destruct (run (fetchDraw _) st) as [[[d|]|e'] st1]; simpl in Hd |- *.
  - apply IH.
  - apply IH.
  - intros [= <-]. by apply Hd.
Qed.

Lemma run_grow_throws fuel : forall low high st e,
  (run (grow fuel low high) st).1 = Thrown e -> e = HtmlResponseError.
Proof.
  induction fuel as [|fuel IH]; intros low high st e;
    [apply run_bisect_throws|].
  cbn [grow]. destruct (high <=? MAX_DRAW_GUESS); [|apply run_bisect_throws].
  rewrite run_bind. pose proof (run_fetchDraw_throws high st) as Hd.
  destruct (run (fetchDraw _) st) as [[[d|]|e'] st1]; simpl in Hd |- *.
  - destruct (high =? MAX_DRAW_GUESS); [done|apply IH].
  - apply run_bisect_throws.
  - intros [= <-]. by apply Hd.
Qed.

Lemma findLatestDraw_throws st e :
  (findLatestDraw st).1 = Thrown e -> e = HtmlResponseError.
Proof.
  rewrite findLatestDraw_unfold. unfold locate. rewrite run_bind.
  set (probe := if 0 <? _ then _ else _).
  set (st0 := record Locate _).
  pose proof (run_fetchDraw_throws probe st0) as Hd.
  destruct (run (fetchDraw _) st0) as [[[d|]|e'] st1];
    cbn [fst] in Hd; cbn beta iota.
  - apply run_grow_throws.
  - apply run_searchDown_throws.
  - intros [= <-]. by apply Hd.
Qed.

Lemma sync_throws st e :
  (sync st).1 = Thrown e -> e = HtmlResponseError.
Proof.
  unfold sync. destruct (blocked _ _); [done|].
  pose proof (findLatestDraw_throws (record SyncStart st)) as Hl.
  destruct (findLatestDraw _) as [[L|e'] st1]; simpl in Hl.
  - destruct (_ <=? L); [|done].
    pose proof (fetchRange_effects
      (if 0 <? latest (theCache st1) then latest (theCache st1) + 1 else 1)
      L [] st1) as (more & _ & _ & _ & _ & _ & He & _).
    destruct (fetchRange _ _ _ _) as [[m|e''] st2]; [done|].
    simpl in *. intros [= <-]. by apply He.
  - rewrite (Hl e' eq_refl). done.
Qed.
End Rejections.

Section CoordinatorEffects.
Context `{Builtins} `{Environment}.

Lemma entered_view st :
  let st1 := entered (with_cache (theCache st) st) in
  log st1 = log st /\ now st1 = now st /\
  theCache st1 = set_inFlight (Some (syncs (log st))) (theCache st).
Proof. done. Qed.

(** What [updateCache] does when it starts the sync itself. *)
Lemma updateCache_effects st :
  inFlight (theCache st) = None ->
  let st' := (updateCache st).2 in
  inFlight (theCache st') = None /\
  dom (draws (theCache st)) ⊆ dom (draws (theCache st')) /\
  (is_Some (blockedUntil (theCache st)) ->
   is_Some (blockedUntil (theCache st'))) /\
  match (updateCache st).1 with
  | Returned (Done c) => c = theCache st' /\ updatedAt c = now st'
  | Returned (Joined _) => False
  | Thrown e =>
      e = HtmlResponseError /\
      latest (theCache st') = latest (theCache st) /\
      updatedAt (theCache st') = updatedAt (theCache st) /\
      blockedUntil (theCache st') = blockedUntil (theCache st) /\
      missing (theCache st') = missing (theCache st)
  end.
Proof.
  intros Hidle st'. subst st'. rewrite (updateCache_idle _ Hidle). cbn zeta.
  set (st1 := entered (with_cache (theCache st) st)).
  pose proof (sync_frame st1) as (Hk & Hb & Hi & Hres).
  pose proof (sync_throws st1) as Hth.
  destruct (sync st1) as [[c|e] st2]; cbn [fst snd] in *;
    rewrite theCache_modify.
  - destruct Hres as [-> Hu]. split_and!; try done.
    intros n Hn%elem_of_dom. apply elem_of_dom. by apply Hk.
  - destruct Hres as (Hl & Hu & Hbl & Hm). split_and!; try done.
    + intros n Hn%elem_of_dom. apply elem_of_dom. by apply Hk.
    + by apply Hth.
Qed.

Lemma updateCache_requests st :
  inFlight (theCache st) = None ->
  latest (theCache st) <= MAX_DRAW_GUESS ->
  let st' := (updateCache st).2 in
  let base := Z.max 0 (latest (theCache st)) in
  exists more,
    log st' = more ++ SyncStart :: log st /\
    asked (fun n => 1 <= n <= MAX_DRAW_GUESS) more /\
    syncs more = 0%nat /\ (locates more <= 1)%nat /\
    (requests more <= 3 * Z.to_nat (MAX_DRAW_GUESS - base) + 87)%nat /\
    latest (theCache st') <= MAX_DRAW_GUESS /\
    (0 <= latest (theCache st) -> 0 <= latest (theCache st')) /\
    match (updateCache st).1 with
    | Returned _ =>
        (requests more <= 3 * Z.to_nat (latest (theCache st') - base) + 87)%nat
    | Thrown _ => True
    end.
Proof.
  intros Hidle Hmax st' base. subst st'. rewrite (updateCache_idle _ Hidle).
  cbn zeta. set (st1 := entered (with_cache (theCache st) st)).
  destruct (sync_budget st1 Hmax) as (more & Hl & Ha & Hs & Hlo & Hr & Hm & Hz & Hres).
  exists more. cbn [fst snd]. rewrite theCache_modify.
  change (latest (set_inFlight None (theCache (sync st1).2)))
    with (latest (theCache (sync st1).2)).
  split_and!; try done.
  destruct (sync st1) as [[c|e] st2]; done.
Qed.
End CoordinatorEffects.

(** ** What leftover workers change *)

Section StrayFacts.
Context `{Builtins} `{Environment}.

(** A step in the background writes nothing but [draws], removes no key
    and starts neither a sync nor a locator run. *)
Lemma stray_step_frame pick st :
  let st' := stray_step pick st in
  theCache st' = set_draws (draws (theCache st')) (theCache st) /\
  (forall n, is_Some (draws (theCache st) !! n) ->
             is_Some (draws (theCache st') !! n)) /\
  exists more, log st' = more ++ log st /\ quiet more.
Proof.
  assert (Hsame :
    theCache st = set_draws (draws (theCache st)) (theCache st) /\
    (forall n, is_Some (draws (theCache st) !! n) ->
               is_Some (draws (theCache st) !! n)) /\
    exists more, log st = more ++ log st /\ quiet more).
  { split; [by rewrite set_draws_id|]. split; [done|].
    exists []. split; [done|apply quiet_nil]. }
  unfold stray_step. destruct (strays st !! pick.1) as [s|]; [|done].
  destruct (_ !! _) as [i|]; [|done].
  destruct (workers (stray_pool s) !! i) as [[|no p]|]; try done.
  unfold stray_resume.
  destruct (resume (stray_end s) i no p (stray_pool s) st)
    as [e|[pl' st']] eqn:Hr; [done|].
  destruct (resume_frame _ _ _ _ _ _ _ _ Hr) as [Hf Hk].
  destruct (resume_log _ _ _ _ _ _ _ _ Hr) as (more & Hl & Hq).
  cbn zeta. split; [done|]. split; [done|]. by exists more.
Qed.

Lemma idle_run_frame picks : forall st,
  let st' := idle_run picks st in
  theCache st' = set_draws (draws (theCache st')) (theCache st) /\
  (forall n, is_Some (draws (theCache st) !! n) ->
             is_Some (draws (theCache st') !! n)) /\
  exists more, log st' = more ++ log st /\ quiet more.
Proof.
  induction picks as [|pick picks IH]; intros st.
  - simpl. split; [by rewrite set_draws_id|]. split; [done|].
    exists []. split; [done|apply quiet_nil].
  - change (idle_run (pick :: picks) st)
      with (idle_run picks (stray_step pick st)).
    destruct (stray_step_frame pick st) as (Hf1 & Hk1 & m1 & Hl1 & Hq1).
    destruct (IH (stray_step pick st)) as (Hf2 & Hk2 & m2 & Hl2 & Hq2).
    cbn zeta in *. split; [|split].
    + rewrite Hf2 at 1. rewrite Hf1. by destruct (theCache st).
    + auto.
    + exists (m2 ++ m1). rewrite Hl2, Hl1, app_assoc. split; [done|].
      by apply quiet_app.
Qed.

(** Leftover pools are only ever forgotten. *)
Lemma stray_step_strays pick st :
  (length (strays (stray_step pick st)) <= length (strays st))%nat.
Proof.
  unfold stray_step. destruct (strays st !! pick.1) as [s|] eqn:Hs; [|done].
  destruct (live _ !! _) as [i|]; [|done].
  destruct (workers (stray_pool s) !! i) as [[|no p]|]; try done.
  destruct (stray_resume _ _ _ _ _ _) as [pl' st']. simpl.
  unfold put_stray. destruct (bool_decide _).
  - rewrite length_delete by (by eexists). lia.
  - by rewrite length_insert.
Qed.

Lemma idle_run_strays picks : forall st,
  (length (strays (idle_run picks st)) <= length (strays st))%nat.
Proof.
  induction picks as [|pick picks IH]; intros st; [done|].
  change (idle_run (pick :: picks) st)
    with (idle_run picks (stray_step pick st)).
  pose proof (IH (stray_step pick st)). pose proof (stray_step_strays pick st).
  lia.
Qed.

Lemma idle_run_alone picks : forall st, strays st = [] -> idle_run picks st = st.
Proof.
  induction picks as [|pick picks IH]; intros st Hs; [done|].
  change (idle_run (pick :: picks) st)
    with (idle_run picks (stray_step pick st)).
  assert (Hstep : stray_step pick st = st).
  { unfold stray_step. by rewrite Hs. }
  rewrite Hstep. by apply IH.
Qed.

Lemma idle_run_fields picks st :
  let st' := idle_run picks st in
  latest (theCache st') = latest (theCache st) /\
  updatedAt (theCache st') = updatedAt (theCache st) /\
  blockedUntil (theCache st') = blockedUntil (theCache st) /\
  missing (theCache st') = missing (theCache st) /\
  inFlight (theCache st') = inFlight (theCache st).
Proof.
  intros st'. destruct (idle_run_frame picks st) as (Hf & _).
  fold st' in Hf. rewrite Hf. by destruct (theCache st).
Qed.
End StrayFacts.

(** ** The endpoint, whatever the upstream does *)

Lemma GET_state `{Builtins} `{Environment} flag st :
  (GET flag st).2 = (readyCache st).2.
Proof.
  unfold GET. destruct (readyCache st) as [[[c|h]|e] st1]; try done.
  by destruct (respond _ _).
Qed.

(** The three ways [GET] obtains its cache. *)
Lemma readyCache_cases `{Builtins} `{Environment} st :
  readyCache st = (Returned (Done (theCache st)), with_cache (theCache st) st) \/
  (exists h, readyCache st = (Returned (Joined h), with_cache (theCache st) st)) \/
  (inFlight (theCache st) = None /\ readyCache st = updateCache st).
Proof.
  destruct (Z.lt_ge_cases (now st - updatedAt (theCache st)) CACHE_TTL_MS)
    as [Hf|Hs].
  - left. by apply readyCache_fresh.
  - right. rewrite (readyCache_stale _ Hs).
    destruct (inFlight (theCache st)) as [h|] eqn:Hi.
    + left. exists h. by apply updateCache_joined.
    + by right.
Qed.

Lemma tally_throws cs n e : tally cs n = Thrown e -> e = TypeError.
Proof.
  unfold tally. destruct n as [|z|]; try by intros [= <-].
  destruct (0 <=? z - 1); [|by intros [= <-]].
  destruct (cs !! _); [done|by intros [= <-]].
Qed.

Lemma tally_all_throws ns : forall cs e,
  tally_all cs ns = Thrown e -> e = TypeError.
Proof.
  induction ns as [|n ns IH]; intros cs e; [done|]. simpl.
  pose proof (tally_throws cs n) as Ht.
  destruct (tally cs n) as [cs'|e']; [apply IH|].
  intros [= <-]. by apply Ht.
Qed.

Lemma tally_draws_throws b ds : forall cs e,
  tally_draws b cs ds = Thrown e -> e = TypeError.
Proof.
  induction ds as [|d ds IH]; intros cs e; [done|]. simpl.
  pose proof (tally_all_throws (numbers d ++ (if b then [bonus d] else [])) cs)
    as Ht.
  destruct (tally_all cs _) as [cs'|e']; [apply IH|].
  intros [= <-]. by apply Ht.
Qed.

Lemma respond_throws b c e : respond b c = Thrown e -> e = TypeError.
Proof.
  unfold respond, buildRanking.
  pose proof (tally_draws_throws b (map snd (map_to_list (draws c)))) as Ht.
  destruct (tally_draws _ _ _) as [cs|e'] eqn:E; simpl; [done|].
  intros [= <-]. by eapply Ht.
Qed.

(** X2.  [findLatestDraw], started from a cache whose [latest] does not
    exceed [MAX_DRAW_GUESS], makes at most 87 requests (at most 29 calls
    of [fetchDraw], of at most three attempts each), all of them for draw
    numbers between 1 and [MAX_DRAW_GUESS]; it starts no sync; the number
    it resolves to lies between 1 and [MAX_DRAW_GUESS]; the only error it
    rejects with is the anomalous-response error. *)
Theorem findLatestDraw_budget `{Builtins} `{Environment} (st : State) :
  latest (theCache st) <= MAX_DRAW_GUESS ->
  exists more,
    log (findLatestDraw st).2 = more ++ Locate :: log st /\
    (requests more <= 87)%nat /\
    asked (fun n => 1 <= n <= MAX_DRAW_GUESS) more /\
    syncs more = 0%nat /\ locates more = 0%nat /\
    match (findLatestDraw st).1 with
    | Returned L => 1 <= L <= MAX_DRAW_GUESS
    | Thrown e => e = HtmlResponseError
    end.
Proof. apply findLatestDraw_effects. Qed.

(** X3.  [fetchRange start end] makes at most three requests per number of
    the range, all of them for numbers of the range; it starts no sync
    and no locator run; it rejects with the anomalous-response error
    only; of the cache it writes [draws] only, and it removes no key. *)
Theorem fetchRange_budget `{Builtins} `{Environment}
    (start end_ : Z) (m0 : list Z) (st : State) :
  let result := fetchRange start end_ m0 st in
  exists more,
    log result.2 = more ++ log st /\
    (requests more <= 3 * Z.to_nat (end_ - start + 1))%nat /\
    asked (fun n => start <= n <= end_) more /\
    syncs more = 0%nat /\ locates more = 0%nat /\
    (forall e, result.1 = Thrown e -> e = HtmlResponseError) /\
    theCache result.2 = set_draws (draws (theCache result.2)) (theCache st) /\
    dom (draws (theCache st)) ⊆ dom (draws (theCache result.2)).
Proof.
  intros result.
  destruct (fetchRange_effects start end_ m0 st)
    as (more & Hl & Hr & Ha & Hs & Hlo & He & Hf & Hk).
  exists more. split_and!; try done.
  intros n Hn%elem_of_dom. apply elem_of_dom. by apply Hk.
Qed.

(** X4.  A call of [updateCache] that starts the sync makes at most
    87 + 3 * (MAX_DRAW_GUESS - latest) requests, all for draw numbers
    between 1 and [MAX_DRAW_GUESS], and runs the locator at most once.
    When it completes, the requests are at most 87 plus three for every
    draw number between the previous [latest] and the new one. *)
Theorem updateCache_budget `{Builtins} `{Environment} (st : State) :
  inFlight (theCache st) = None ->
  latest (theCache st) <= MAX_DRAW_GUESS ->
  let result := updateCache st in
  let base := Z.max 0 (latest (theCache st)) in
  exists more,
    log result.2 = more ++ SyncStart :: log st /\
    asked (fun n => 1 <= n <= MAX_DRAW_GUESS) more /\
    syncs more = 0%nat /\ (locates more <= 1)%nat /\
    (requests more <= 3 * Z.to_nat (MAX_DRAW_GUESS - base) + 87)%nat /\
    forall c, result.1 = Returned (Done c) ->
      (requests more <= 3 * Z.to_nat (latest c - base) + 87)%nat.
Proof.
  intros Hidle Hmax result base.
  destruct (updateCache_requests st Hidle Hmax)
    as (more & Hl & Ha & Hs & Hlo & Hr & _ & _ & Hres).
  pose proof (updateCache_effects st Hidle) as (_ & _ & _ & Hc).
  exists more. split_and!; try done.
  intros c Hd. fold result in Hres, Hc. rewrite Hd in Hres, Hc.
  destruct Hc as [-> _]. exact Hres.
Qed.

(** X5.  [updateCache] rejects with the anomalous-response error only: the
    rethrow of line 219 is never reached, since [findLatestDraw] rejects
    with nothing else.  A call that rejects has cleared [inFlight] and has
    left [latest], [updatedAt], [blockedUntil] and [missing] as they
    were: no block is recorded and the cache stays as stale as it was. *)
Theorem updateCache_rejects_html_only `{Builtins} `{Environment}
    (st st' : State) (e : exn) :
  updateCache st = (Thrown e, st') ->
  e = HtmlResponseError /\
  inFlight (theCache st') = None /\
  latest (theCache st') = latest (theCache st) /\
  updatedAt (theCache st') = updatedAt (theCache st) /\
  blockedUntil (theCache st') = blockedUntil (theCache st) /\
  missing (theCache st') = missing (theCache st) /\
  dom (draws (theCache st)) ⊆ dom (draws (theCache st')).
Proof.
  intros Hup. destruct (inFlight (theCache st)) as [h|] eqn:Hi.
  { by rewrite (updateCache_joined _ _ Hi) in Hup. }
  pose proof (updateCache_effects st Hi) as (Hfl & Hd & _ & Hres).
  rewrite Hup in Hfl, Hd, Hres. simpl in Hfl, Hd, Hres.
  destruct Hres as (-> & Hl & Hu & Hb & Hm). by split_and!.
Qed.

(** X6.  [GET] rejects with two errors only: the anomalous-response error
    of a sync, or the TypeError of [buildRanking] on a stored number that
    is not an index of [counts]. *)
Theorem GET_rejections `{Builtins} `{Environment}
    (flag : bool) (st st' : State) (e : exn) :
  GET flag st = (Thrown e, st') ->
  e = HtmlResponseError \/ e = TypeError.
Proof.
  unfold GET. destruct (readyCache st) as [[[c|h]|e'] st1] eqn:Hr; try done.
  - pose proof (respond_throws flag c) as Ht.
    destruct (respond flag c) as [body|e']; [done|].
    intros [= <- <-]. right. by apply Ht.
  - intros [= <- <-]. left.
    destruct (readyCache_cases st) as [Hc|[[h Hc]|[Hi Hc]]];
      rewrite Hc in Hr; try done.
    pose proof (updateCache_effects st Hi) as (_ & _ & _ & Hres).
    rewrite Hr in Hres. simpl in Hres. by destruct Hres as [-> _].
Qed.

(** X7.  No request removes a draw from the cache: whatever [GET] does and
    however it ends, every key of [draws] is still a key afterwards, so
    the number of stored draws never decreases. *)
Theorem GET_never_drops_a_draw `{Builtins} `{Environment}
    (flag : bool) (st : State) :
  let st' := (GET flag st).2 in
  dom (draws (theCache st)) ⊆ dom (draws (theCache st')) /\
  (size (draws (theCache st)) <= size (draws (theCache st')))%nat.
Proof.
  intros st'. assert (Hd : dom (draws (theCache st)) ⊆ dom (draws (theCache st'))).
  { unfold st'. rewrite GET_state.
    destruct (readyCache_cases st) as [Hc|[[h Hc]|[Hi Hc]]]; rewrite Hc; try done.
    by pose proof (updateCache_effects st Hi) as (_ & Hd & _). }
  split; [done|]. rewrite <- !size_dom. by apply subseteq_size.
Qed.

(** X8.  Every completed sync, whichever way it went (a cool-down, a block
    just recorded, or a range fetched), stamps the cache with the time
    at which it ended.  Whatever the workers left by an earlier rejected
    range fetch do after it, the cache keeps the [latest], [updatedAt],
    [blockedUntil] and [missing] of that sync and every draw it left, and
    neither a sync nor a locator run is started; with no such workers the
    cache and the log stay as the sync left them.  A request arriving
    less than twelve hours after the sync is served from the cache as it
    then stands: the request itself asks nothing of the upstream, starts
    no sync and writes nothing, and it answers with the time stamp and
    the latest draw of the sync and with the number of draws then
    stored, at least the number the sync left, unless [buildRanking]
    throws. *)
Theorem GET_after_sync_is_silent `{Builtins} `{Environment}
    (st st' : State) (c : Cache) (picks : list (nat * nat))
    (flag : bool) (t : Z) :
  updateCache st = (Returned (Done c), st') ->
  t - now st' < CACHE_TTL_MS ->
  updatedAt c = now st' /\
  let later := at_time t (idle_run picks st') in
  let served := GET flag later in
  (latest (theCache later) = latest c /\
   updatedAt (theCache later) = updatedAt c /\
   blockedUntil (theCache later) = blockedUntil c /\
   missing (theCache later) = missing c /\
   dom (draws c) ⊆ dom (draws (theCache later)) /\
   (exists more, log later = more ++ log st' /\ quiet more) /\
   (strays st' = [] -> theCache later = c /\ log later = log st')) /\
  log served.2 = log later /\ theCache served.2 = theCache later /\
  (served.1 = Thrown TypeError \/
   exists body, served.1 = Returned (Done body) /\
     body_updatedAt body = now st' /\ latestDraw body = latest c /\
     totalDraws body = size (draws (theCache later)) /\
     (size (draws c) <= totalDraws body)%nat).
Proof.
  intros Hup Ht. destruct (inFlight (theCache st)) as [h|] eqn:Hi.
  { by rewrite (updateCache_joined _ _ Hi) in Hup. }
  pose proof (updateCache_effects st Hi) as (_ & _ & _ & Hres).
  rewrite Hup in Hres. simpl in Hres. destruct Hres as [-> Hu].
  split; [done|]. intros later served.
  destruct (idle_run_frame picks st') as (_ & Hkeep & more & Hlog & Hq).
  destruct (idle_run_fields picks st') as (Hl & Hua & Hb & Hm & _).
  change (theCache later) with (theCache (idle_run picks st')).
  change (log later) with (log (idle_run picks st')).
  assert (Hdom : dom (draws (theCache st'))
                 ⊆ dom (draws (theCache (idle_run picks st')))).
  { intros n Hn%elem_of_dom. apply elem_of_dom. by apply Hkeep. }
  split.
  { split_and!; try done; [by exists more|].
    intros Hs. by rewrite (idle_run_alone picks st' Hs). }
  assert (Hfresh : now later - updatedAt (theCache later) < CACHE_TTL_MS).
  { change (theCache later) with (theCache (idle_run picks st')).
    rewrite Hua. simpl. lia. }
  pose proof (readyCache_fresh _ Hfresh) as Hr.
  unfold served, GET. rewrite Hr.
  change (theCache later) with (theCache (idle_run picks st')).
  pose proof (respond_throws flag (theCache (idle_run picks st'))) as Hth.
  destruct (respond flag (theCache (idle_run picks st'))) as [body|e] eqn:Hbody;
    simpl.
  - split_and!; try done. right. exists body. split; [done|].
    unfold respond in Hbody. destruct (buildRanking _ _); [|done].
    injection Hbody as <-. simpl. split_and!; try done; try congruence.
    rewrite <- !size_dom. by apply subseteq_size.
  - split_and!; try done. left. by rewrite (Hth e eq_refl).
Qed.

(** X9.  [latest] stays between 0 and [MAX_DRAW_GUESS]: a request that
    finds it there leaves it there, however it ends. *)
Theorem GET_keeps_latest_in_range `{Builtins} `{Environment}
    (flag : bool) (st : State) :
  0 <= latest (theCache st) <= MAX_DRAW_GUESS ->
  0 <= latest (theCache (GET flag st).2) <= MAX_DRAW_GUESS.
Proof.
  intros [Hlo Hhi]. rewrite GET_state.
  destruct (readyCache_cases st) as [Hc|[[h Hc]|[Hi Hc]]]; rewrite Hc; try done.
  destruct (updateCache_requests st Hi Hhi) as (_ & _ & _ & _ & _ & _ & Hm & Hz & _).
  split; [by apply Hz|done].
Qed.

(** X25.  The workers a rejected range fetch leaves behind, whatever
    steps they take and in whatever order, write nothing but [draws]:
    [latest], [updatedAt], [blockedUntil], [missing] and [inFlight] stay
    as they are, no key of [draws] is lost, what they add to the log is
    requests and waits only, and no new leftover pool appears.  With no
    leftover workers nothing happens at all. *)
Theorem leftover_workers_only_add_draws `{Builtins} `{Environment}
    (picks : list (nat * nat)) (st : State) :
  let st' := idle_run picks st in
  (latest (theCache st') = latest (theCache st) /\
   updatedAt (theCache st') = updatedAt (theCache st) /\
   blockedUntil (theCache st') = blockedUntil (theCache st) /\
   missing (theCache st') = missing (theCache st) /\
   inFlight (theCache st') = inFlight (theCache st)) /\
  dom (draws (theCache st)) ⊆ dom (draws (theCache st')) /\
  (exists more, log st' = more ++ log st /\ quiet more) /\
  (length (strays st') <= length (strays st))%nat /\
  (strays st = [] -> st' = st).
Proof.
  intros st'. split; [apply idle_run_fields|].
  destruct (idle_run_frame picks st) as (_ & Hkeep & Hlog).
  split; [|split; [done|split; [apply idle_run_strays|apply idle_run_alone]]].
  intros n Hn%elem_of_dom. apply elem_of_dom. by apply Hkeep.
Qed.

(** ** The ranking *)

Lemma table_ext f g : (forall n, 1 <= n <= 45 -> f n = g n) -> table f = table g.
Proof.
  intros Hfg. unfold table. apply map_ext_in. intros n Hn%list_elem_of_In.
  apply elem_of_seqZ in Hn. rewrite Hfg; [done|lia].
Qed.

Lemma table_lookup f i :
  table f !! i =
  if decide (i < 45)%nat
  then Some {| num := Z.of_nat i + 1; count := f (Z.of_nat i + 1) |}
  else None.
Proof.
  unfold table. rewrite list_lookup_fmap.
  destruct (decide _) as [Hlt|Hge].
  - rewrite lookup_seqZ_lt by lia. simpl.
    by replace (1 + Z.of_nat i) with (Z.of_nat i + 1) by lia.
  - rewrite lookup_seqZ_ge by lia. done.
Qed.

Lemma table_length f : length (table f) = 45%nat.
Proof. unfold table. by rewrite length_map, length_seqZ. Qed.

Lemma zero_table :
  map (fun i => {| num := Z.of_nat i + 1; count := 0 |}) (seq 0 45)
  = table (fun _ => 0).
Proof. reflexivity. Qed.

Lemma table_bump f z :
  1 <= z <= 45 ->
  <[Z.to_nat (z - 1) := {| num := z; count := f z + 1 |}]> (table f)
  = table (fun n => f n + if decide (n = z) then 1 else 0).
Proof.
  intros Hz. apply list_eq. intros i.
  destruct (decide (i = Z.to_nat (z - 1))) as [->|Hne].
  - rewrite list_lookup_insert_eq by (rewrite table_length; lia).
    rewrite table_lookup. destruct (decide _); [|lia].
    replace (Z.of_nat (Z.to_nat (z - 1)) + 1) with z by lia.
    by rewrite decide_True.
  - rewrite list_lookup_insert_ne by done. rewrite !table_lookup.
    destruct (decide _); [|done]. rewrite decide_False by lia.
    do 2 f_equal. lia.
Qed.

Lemma tally_spec f n :
  match tally (table f) n with
  | Returned cs =>
      exists z, n = Int z /\ 1 <= z <= 45 /\
        cs = table (fun m => f m + if decide (m = z) then 1 else 0)
  | Thrown e => e = TypeError /\ ~ in_1_45 n
  end.
Proof.
  unfold tally. destruct n as [|z|].
  - split; [done|]. by intros (z & ? & _).
  - destruct (0 <=? z - 1) eqn:Hlo.
    + apply Z.leb_le in Hlo. rewrite table_lookup.
      destruct (decide _) as [Hlt|Hge].
      * exists z. split; [done|]. split; [lia|]. simpl.
        replace (Z.of_nat (Z.to_nat (z - 1)) + 1) with z by lia.
        apply table_bump. lia.
      * split; [done|]. intros (z' & [= <-] & ?). lia.
    + apply Z.leb_gt in Hlo. split; [done|]. intros (z' & [= <-] & ?). lia.
  - split; [done|]. by intros (z & ? & _).
Qed.

Lemma occurrences_cons n x ns :
  occurrences n (x :: ns) =
  (if decide (x = Int n) then 1 else 0) + occurrences n ns.
Proof.
  unfold occurrences. rewrite filter_cons.
  destruct (decide (x = Int n)); simpl length; lia.
Qed.

Lemma occurrences_app n a b :
  occurrences n (a ++ b) = occurrences n a + occurrences n b.
Proof. unfold occurrences. rewrite filter_app, length_app. lia. Qed.

Lemma occurrences_nonneg n ns : 0 <= occurrences n ns.
Proof. unfold occurrences. lia. Qed.

Lemma tally_all_spec ns : forall f,
  match tally_all (table f) ns with
  | Returned cs =>
      Forall in_1_45 ns /\ cs = table (fun n => f n + occurrences n ns)
  | Thrown e => e = TypeError /\ ~ Forall in_1_45 ns
  end.
Proof.
  induction ns as [|x ns IH]; intros f; simpl.
  - split; [done|]. apply table_ext. intros n _. unfold occurrences. simpl. lia.
  - pose proof (tally_spec f x) as Hx.
    destruct (tally (table f) x) as [cs|e].
    + destruct Hx as (z & -> & Hz & ->).
      specialize (IH (fun m => f m + if decide (m = z) then 1 else 0)).
      destruct (tally_all _ ns) as [cs'|e].
      * destruct IH as [Hall ->]. split.
        { constructor; [by exists z|done]. }
        apply table_ext. intros n _. rewrite occurrences_cons.
        destruct (decide (n = z)) as [->|Hne].
        -- rewrite decide_True by done. lia.
        -- rewrite decide_False by congruence. lia.
      * destruct IH as [-> Hno]. split; [done|].
        intros Hall. apply Hno. by inversion Hall.
    + destruct Hx as [-> Hno]. split; [done|].
      intros Hall. apply Hno. by inversion Hall.
Qed.

Lemma tally_all_app a : forall cs b,
  tally_all cs (a ++ b) =
  match tally_all cs a with
  | Returned cs' => tally_all cs' b
  | Thrown e => Thrown e
  end.
Proof.
  induction a as [|x a IH]; intros cs b; [done|]. simpl.
  destruct (tally cs x); [apply IH|done].
Qed.

Lemma tally_draws_tallied flag ds : forall cs,
  tally_draws flag cs ds = tally_all cs (tallied flag ds).
Proof.
  induction ds as [|d ds IH]; intros cs; [done|].
  change (tallied flag (d :: ds))
    with ((numbers d ++ (if flag then [bonus d] else [])) ++ tallied flag ds).
  cbn [tally_draws].
  rewrite (tally_all_app (numbers d ++ _) cs (tallied flag ds)).
  destruct (tally_all cs _); [apply IH|done].
Qed.

(** *** Sorting *)

Lemma compare_items_le a b : compare_items a b <= 0 <-> ranks_before a b.
Proof.
  unfold compare_items, ranks_before.
  destruct (count b =? count a) eqn:E; simpl.
  - apply Z.eqb_eq in E. lia.
  - apply Z.eqb_neq in E. lia.
Qed.

Lemma ranks_before_total a b : ranks_before a b \/ ranks_before b a.
Proof. unfold ranks_before. lia. Qed.

Lemma ranks_before_trans a b c :
  ranks_before a b -> ranks_before b c -> ranks_before a c.
Proof. unfold ranks_before. lia. Qed.

Lemma insert_sorted_perm x l : insert_sorted x l ≡ₚ x :: l.
Proof.
  induction l as [|y l IH]; [done|]. simpl.
  destruct (_ <=? 0); [done|]. rewrite IH. apply Permutation_swap.
Qed.

Lemma sort_items_perm l : sort_items l ≡ₚ l.
Proof.
  induction l as [|x l IH]; [done|]. unfold sort_items in *. simpl.
  by rewrite insert_sorted_perm, IH.
Qed.

Lemma insert_sorted_sorted x l :
  StronglySorted ranks_before l ->
  StronglySorted ranks_before (insert_sorted x l).
Proof.
  induction 1 as [|y l Hs IH Hy]; simpl; [repeat constructor|].
  destruct (compare_items x y <=? 0) eqn:E.
  - apply Z.leb_le, compare_items_le in E.
    constructor; [by constructor|]. constructor; [done|].
    eapply Forall_impl; [exact Hy|]. intros z Hz. by eapply ranks_before_trans.
  - apply Z.leb_gt in E. constructor; [done|].
    rewrite insert_sorted_perm. constructor; [|done].
    destruct (ranks_before_total x y) as [Hxy|Hyx]; [|done].
    apply compare_items_le in Hxy. lia.
Qed.

Lemma sort_items_sorted l : StronglySorted ranks_before (sort_items l).
Proof.
  induction l as [|x l IH]; [constructor|].
  by apply insert_sorted_sorted.
Qed.

(** A sorted list is determined by its elements when no two of them tie. *)
Lemma sorted_unique l1 : forall l2,
  NoDup (map num l1) -> l1 ≡ₚ l2 ->
  StronglySorted ranks_before l1 -> StronglySorted ranks_before l2 ->
  l1 = l2.
Proof.
  induction l1 as [|a l1 IH]; intros l2 Hnd Hp Hs1 Hs2.
  - by apply Permutation_nil_l in Hp.
  - destruct l2 as [|b l2]; [by apply Permutation_nil_r in Hp|].
    apply StronglySorted_inv in Hs1 as [Hs1 Ha].
    apply StronglySorted_inv in Hs2 as [Hs2 Hb].
    apply NoDup_cons in Hnd as [Hna Hnd].
    assert (a = b) as <-.
    { destruct (decide (a = b)) as [|Hne]; [done|].
      assert (Hab : ranks_before a b).
      { assert (b ∈ a :: l1) as [->|Hin]%elem_of_cons
          by (rewrite Hp; left); [done|].
        by eapply Forall_forall in Ha. }
      assert (Hba : ranks_before b a).
      { assert (a ∈ b :: l2) as [->|Hin]%elem_of_cons
          by (rewrite <- Hp; left); [done|].
        by eapply Forall_forall in Hb. }
      assert (Hin : b ∈ l1).
      { assert (b ∈ a :: l1) as [->|Hin]%elem_of_cons
          by (rewrite Hp; left); done. }
      exfalso. apply Hna. apply list_elem_of_fmap. exists b. split; [|done].
      unfold ranks_before in *. lia. }
    f_equal. apply IH; try done. by apply Permutation_cons_inv in Hp.
Qed.

Lemma buildRanking_tally ds flag :
  match buildRanking ds flag with
  | Returned r =>
      Forall in_1_45 (tallied flag ds) /\
      r_counts r = table (fun n => occurrences n (tallied flag ds)) /\
      r_ranking r = sort_items (r_counts r) /\
      r_top6 r = map num (take 6 (r_ranking r)) /\
      r_next6 r = map num (take 6 (drop 6 (r_ranking r))) /\
      r_top18 r = map num (take 18 (r_ranking r)) /\
      r_hasData r =
        (0 <? match r_ranking r with item :: _ => count item | [] => 0 end)
  | Thrown e => e = TypeError /\ ~ Forall in_1_45 (tallied flag ds)
  end.
Proof.
  unfold buildRanking. rewrite zero_table, tally_draws_tallied.
  pose proof (tally_all_spec (tallied flag ds) (fun _ => 0)) as Ht.
  destruct (tally_all _ _) as [cs|e]; [|done].
  destruct Ht as [Hall ->]. cbn [r_counts r_ranking r_top6 r_next6 r_top18 r_hasData].
  split_and!; try done.
Qed.

Lemma tallied_in_range flag ds :
  Forall in_1_45 (tallied flag ds) <->
  Forall (fun d => Forall in_1_45 (numbers d) /\
                   (flag = true -> in_1_45 (bonus d))) ds.
Proof.
  unfold tallied. induction ds as [|d ds IH]; simpl.
  - split; constructor.
  - rewrite !Forall_app, Forall_cons, IH.
    destruct flag.
    + rewrite Forall_singleton. split.
      * intros [[? ?] ?]. split; [|done]. by split.
      * intros [[? Hb] ?]. split; [|done]. split; [done|by apply Hb].
    + split.
      * intros [[? _] ?]. split; [|done]. by split.
      * intros [[? _] ?]. split; [|done]. split; [done|constructor].
Qed.

Lemma table_nums f : map num (table f) = seqZ 1 45.
Proof.
  unfold table. rewrite map_map. apply map_id.
Qed.

Lemma table_NoDup f : NoDup (map num (table f)).
Proof. rewrite table_nums. apply NoDup_seqZ. Qed.

Lemma occurrences_tallied n ds :
  occurrences n (tallied true ds)
  = occurrences n (tallied false ds) + occurrences n (map bonus ds).
Proof.
  induction ds as [|d ds IH]; [done|].
  change (tallied true (d :: ds))
    with ((numbers d ++ [bonus d]) ++ tallied true ds).
  change (tallied false (d :: ds))
    with ((numbers d ++ []) ++ tallied false ds).
  cbn [map]. rewrite !occurrences_app, !occurrences_cons, IH.
  change (occurrences n []) with 0. lia.
Qed.

(** X10.  [buildRanking] returns exactly when every number it tallies is an
    integer between 1 and 45: the numbers of every draw, and the bonus
    of every draw when the bonus is included.  Otherwise the
    update of [counts[num - 1]] throws a TypeError. *)
Theorem buildRanking_returns_iff (ds : list Draw) (flag : bool) :
  let sound :=
    Forall (fun d => Forall in_1_45 (numbers d) /\
                     (flag = true -> in_1_45 (bonus d))) ds in
  ((exists r, buildRanking ds flag = Returned r) <-> sound) /\
  (buildRanking ds flag = Thrown TypeError <-> ~ sound).
Proof.
  intros sound. unfold sound. rewrite <- tallied_in_range.
  pose proof (buildRanking_tally ds flag) as Hb.
  destruct (buildRanking ds flag) as [r|e].
  - destruct Hb as [Hall _]. split; split; try done.
    + by exists r.
  - destruct Hb as [-> Hno]. split; split; try done.
    + by intros [r ?].
Qed.

(** X11.  The counts [buildRanking] returns are the 45 entries for the
    numbers 1 to 45 in ascending order, and the count of a number is how
    often it occurs among the numbers tallied. *)
Theorem buildRanking_counts (ds : list Draw) (flag : bool) (r : Ranking) :
  buildRanking ds flag = Returned r ->
  r_counts r =
    map (fun n => {| num := n; count := occurrences n (tallied flag ds) |})
        (seqZ 1 45) /\
  length (r_counts r) = 45%nat /\
  forall n, 1 <= n <= 45 ->
    r_counts r !! Z.to_nat (n - 1)
    = Some {| num := n; count := occurrences n (tallied flag ds) |}.
Proof.
  intros Hr. pose proof (buildRanking_tally ds flag) as Hb.
  rewrite Hr in Hb. destruct Hb as (_ & -> & _).
  split; [done|]. split; [apply table_length|].
  intros n Hn. rewrite table_lookup. destruct (decide _); [|lia].
  by replace (Z.of_nat (Z.to_nat (n - 1)) + 1) with n by lia.
Qed.

(** X12.  Including the bonus only adds to the counts: the count of a
    number with the bonus included is its count without, plus the number
    of draws whose bonus it is; and a set of draws that can be ranked
    with the bonus can be ranked without it. *)
Theorem bonus_adds_to_counts (ds : list Draw) (r : Ranking) :
  buildRanking ds true = Returned r ->
  exists r0, buildRanking ds false = Returned r0 /\
    forall n item, 1 <= n <= 45 ->
      r_counts r !! Z.to_nat (n - 1) = Some item ->
      exists item0,
        r_counts r0 !! Z.to_nat (n - 1) = Some item0 /\
        num item = n /\ num item0 = n /\
        count item = count item0 + occurrences n (map bonus ds).
Proof.
  intros Hr. pose proof (buildRanking_tally ds true) as Hb.
  rewrite Hr in Hb. destruct Hb as (Hall & Hc & _).
  pose proof (buildRanking_tally ds false) as Hb0.
  destruct (buildRanking ds false) as [r0|e].
  - destruct Hb0 as (_ & Hc0 & _). exists r0. split; [done|].
    intros n item Hn. rewrite Hc, Hc0, !table_lookup.
    destruct (decide _); [|lia]. intros [= <-].
    eexists. split; [done|]. simpl.
    replace (Z.of_nat (Z.to_nat (n - 1)) + 1) with n by lia.
    split_and!; try done.
    apply occurrences_tallied.
  - exfalso. destruct Hb0 as [_ Hno]. apply Hno.
    apply tallied_in_range. apply tallied_in_range in Hall.
    eapply Forall_impl; [exact Hall|]. by intros d [? _].
Qed.

(** X13.  The ranking is the counts sorted: it holds the same 45 entries,
    ordered by count, higher first, and by number, lower first, among
    equal counts.  No two entries tie, so it is the only such
    arrangement, whatever sorting algorithm produces it. *)
Theorem ranking_is_sorted_counts (ds : list Draw) (flag : bool) (r : Ranking) :
  buildRanking ds flag = Returned r ->
  r_ranking r ≡ₚ r_counts r /\
  StronglySorted ranks_before (r_ranking r) /\
  forall l, l ≡ₚ r_counts r -> StronglySorted ranks_before l ->
            l = r_ranking r.
Proof.
  intros Hr. pose proof (buildRanking_tally ds flag) as Hb.
  rewrite Hr in Hb. destruct Hb as (_ & Hc & -> & _).
  split; [apply sort_items_perm|]. split; [apply sort_items_sorted|].
  intros l Hp Hs. apply sorted_unique; try done.
  - rewrite Hp, Hc. apply table_NoDup.
  - by rewrite sort_items_perm.
  - apply sort_items_sorted.
Qed.

Lemma table_elem f item :
  item ∈ table f <->
  1 <= num item <= 45 /\ count item = f (num item).
Proof.
  unfold table. rewrite list_elem_of_fmap. split.
  - intros (n & -> & Hn%elem_of_seqZ). simpl. split; [lia|done].
  - intros [Hn Hc]. exists (num item). split.
    + destruct item as [n c]. simpl in *. by subst.
    + apply elem_of_seqZ. lia.
Qed.

Lemma occurrences_pos n ns : Int n ∈ ns -> 0 < occurrences n ns.
Proof.
  induction ns as [|x ns IH]; [by intros ?%elem_of_nil|].
  rewrite occurrences_cons. pose proof (occurrences_nonneg n ns).
  intros [->|Hin]%elem_of_cons.
  - rewrite decide_True by done. lia.
  - specialize (IH Hin). destruct (decide _); lia.
Qed.

Lemma tallied_some flag ds :
  tallied flag ds <> [] <->
  exists d, d ∈ ds /\ (numbers d <> [] \/ flag = true).
Proof.
  induction ds as [|d ds IH].
  - split; [done|]. by intros (d & ?%elem_of_nil & _).
  - change (tallied flag (d :: ds))
      with ((numbers d ++ (if flag then [bonus d] else [])) ++ tallied flag ds).
    destruct (numbers d) as [|x xs] eqn:En.
    + destruct flag.
      * split; [|done]. intros _. exists d. split; [left|by right].
      * simpl. rewrite IH. split.
        -- intros (d' & Hin & Hd). exists d'. split; [by right|done].
        -- intros (d' & [->|Hin]%elem_of_cons & Hd).
           ++ destruct Hd; congruence.
           ++ by exists d'.
    + split; [|done]. intros _. exists d. split; [left|]. left. by rewrite En.
Qed.

(** X14.  The three lists of numbers are cut from the ranking: [top6] is
    its first six numbers, [next6] the six after them, and [top18]
    starts with both.  The numbers of [top18] are distinct numbers
    between 1 and 45, and no entry ranked after the sixth has a higher
    count than one of the first six. *)
Theorem ranking_slices (ds : list Draw) (flag : bool) (r : Ranking) :
  buildRanking ds flag = Returned r ->
  length (r_top6 r) = 6%nat /\ length (r_next6 r) = 6%nat /\
  length (r_top18 r) = 18%nat /\
  r_top18 r
    = r_top6 r ++ r_next6 r ++ map num (take 6 (drop 12 (r_ranking r))) /\
  NoDup (r_top18 r) /\
  Forall (fun n => 1 <= n <= 45) (r_top18 r) /\
  forall a b, a ∈ take 6 (r_ranking r) -> b ∈ drop 6 (r_ranking r) ->
              count b <= count a.
Proof.
  intros Hr. pose proof (buildRanking_tally ds flag) as Hb.
  rewrite Hr in Hb. destruct Hb as (_ & Hc & Hrk & -> & -> & -> & _).
  assert (Hp : r_ranking r ≡ₚ r_counts r) by (rewrite Hrk; apply sort_items_perm).
  assert (Hs : StronglySorted ranks_before (r_ranking r))
    by (rewrite Hrk; apply sort_items_sorted).
  assert (Hlen : length (r_ranking r) = 45%nat)
    by (by rewrite Hp, Hc, table_length).
  assert (Hnd : NoDup (map num (r_ranking r))).
  { rewrite Hp, Hc. apply table_NoDup. }
  rewrite !length_map, !length_take, !length_drop, Hlen.
  split_and!; try done.
  - rewrite <- !map_app. f_equal.
    rewrite <- (drop_drop _ 6 6), take_take_drop.
    by rewrite (take_take_drop _ 6 12).
  - refine (sublist_NoDup _ _ Hnd _).
    apply (fmap_sublist num). apply sublist_take.
  - apply Forall_forall. intros n (item & -> & Hin)%list_elem_of_fmap.
    apply subseteq_take in Hin. rewrite Hp, Hc in Hin.
    by apply table_elem in Hin as [? _].
  - intros a b Ha Hb. rewrite <- (take_drop 6 (r_ranking r)) in Hs.
    pose proof (StronglySorted_app_1_elem_of _ _ _ _ _ Hs Ha Hb) as Hab.
    unfold ranks_before in Hab. lia.
Qed.

(** X15.  [hasData] says whether anything was tallied: it is true exactly
    when some draw has a number, or there is a draw and the bonus is
    included.  It is then the count of the first entry of the ranking
    that is positive, and no count exceeds that one. *)
Theorem hasData_iff (ds : list Draw) (flag : bool) (r : Ranking) :
  buildRanking ds flag = Returned r ->
  (r_hasData r = true <->
   exists d, d ∈ ds /\ (numbers d <> [] \/ flag = true)) /\
  exists top rest,
    r_ranking r = top :: rest /\
    (r_hasData r = true <-> 0 < count top) /\
    forall item, item ∈ r_counts r -> count item <= count top.
Proof.
  intros Hr. pose proof (buildRanking_tally ds flag) as Hb.
  rewrite Hr in Hb. destruct Hb as (Hall & Hc & Hrk & _ & _ & _ & Hd).
  assert (Hp : r_ranking r ≡ₚ r_counts r) by (rewrite Hrk; apply sort_items_perm).
  assert (Hs : StronglySorted ranks_before (r_ranking r))
    by (rewrite Hrk; apply sort_items_sorted).
  assert (Hlen : length (r_ranking r) = 45%nat)
    by (by rewrite Hp, Hc, table_length).
  destruct (r_ranking r) as [|top rest] eqn:Ek; [done|].
  apply StronglySorted_inv in Hs as [_ Htop].
  assert (Hmax : forall item, item ∈ r_counts r -> count item <= count top).
  { intros item Hin. rewrite <- Hp in Hin.
    apply elem_of_cons in Hin as [->|Hin]; [lia|].
    eapply Forall_forall in Htop; [|exact Hin].
    unfold ranks_before in Htop. lia. }
  assert (Hpos : r_hasData r = true <-> 0 < count top).
  { rewrite Hd. apply Z.ltb_lt. }
  split; [|by exists top, rest].
  rewrite Hpos. split.
  - intros Htopc. apply tallied_some. intros Hnil.
    assert (Hin : top ∈ r_counts r) by (rewrite <- Hp; left).
    rewrite Hc in Hin. apply table_elem in Hin as [_ Hcount].
    rewrite Hnil in Hcount. unfold occurrences in Hcount. simpl in Hcount. lia.
  - intros Hsome%tallied_some.
    destruct (tallied flag ds) as [|x ns] eqn:Et; [done|].
    apply Forall_cons in Hall as [(z & -> & Hz) _].
    assert (Hitem : {| num := z; count := occurrences z (Int z :: ns) |}
                    ∈ r_counts r).
    { rewrite Hc. apply table_elem. by split. }
    apply Hmax in Hitem. simpl in Hitem.
    pose proof (occurrences_pos z (Int z :: ns)) as Ho.
    assert (0 < occurrences z (Int z :: ns)) by (apply Ho; left). lia.
Qed.

(** ** The page *)

Lemma insert_number_perm x l : insert_number x l ≡ₚ x :: l.
Proof.
  induction l as [|y l IH]; [done|]. simpl.
  destruct (_ <=? 0); [done|]. rewrite IH. apply Permutation_swap.
Qed.

Lemma sort_numbers_perm l : sort_numbers l ≡ₚ l.
Proof.
  induction l as [|x l IH]; [done|]. unfold sort_numbers in *. simpl.
  by rewrite insert_number_perm, IH.
Qed.

Lemma insert_number_sorted x l :
  StronglySorted Z.le l -> StronglySorted Z.le (insert_number x l).
Proof.
  induction 1 as [|y l Hs IH Hy]; simpl; [repeat constructor|].
  unfold compare_numbers. destruct (x - y <=? 0) eqn:E.
  - apply Z.leb_le in E. constructor; [by constructor|].
    constructor; [lia|]. eapply Forall_impl; [exact Hy|]. intros z Hz. lia.
  - apply Z.leb_gt in E. constructor; [done|].
    rewrite insert_number_perm. constructor; [lia|done].
Qed.

Lemma sort_numbers_sorted l : StronglySorted Z.le (sort_numbers l).
Proof.
  induction l as [|x l IH]; [constructor|]. by apply insert_number_sorted.
Qed.

Lemma sorted_strict l :
  NoDup l -> StronglySorted Z.le l -> StronglySorted Z.lt l.
Proof.
  induction 2 as [|x l Hs IH Hx]; [constructor|].
  apply NoDup_cons in H as [Hni Hnd]. constructor; [by apply IH|].
  apply Forall_forall. intros y Hy.
  eapply Forall_forall in Hx; [|exact Hy].
  assert (x <> y) by (by intros ->). lia.
Qed.

Lemma swap_perm {A} i j (data : list A) : swap i j data ≡ₚ data.
Proof.
  unfold swap. destruct (data !! i) as [x|] eqn:Hi; [|done].
  destruct (data !! j) as [y|] eqn:Hj; [|done].
  by apply Permutation_insert_swap.
Qed.

Lemma swap_defined {A} i j (data : list A) :
  (j <= i < length data)%nat ->
  exists x y, data !! i = Some x /\ data !! j = Some y /\
    swap i j data = <[j := x]> (<[i := y]> data).
Proof.
  intros Hij.
  destruct (lookup_lt_is_Some_2 data i) as [x Hx]; [lia|].
  destruct (lookup_lt_is_Some_2 data j) as [y Hy]; [lia|].
  exists x, y. unfold swap. by rewrite Hx, Hy.
Qed.

Section PageFacts.
Context `{Doubles}.

Lemma shuffle_loop_spec {A} i : forall (data : list A) k,
  (shuffle_loop i data k).1 ≡ₚ data /\
  (shuffle_loop i data k).2 = (k + i)%nat.
Proof.
  induction i as [|i IH]; intros data k.
  - simpl. split; [done|lia].
  - cbn [shuffle_loop]. destruct (IH (swap (S i) (Z.to_nat
      (dfloor (dmul (Math_random k) (of_int (Z.of_nat (S i) + 1))))) data) (S k))
      as [Hp Hk].
    split; [by rewrite Hp, swap_perm|]. rewrite Hk. lia.
Qed.

(** Every swap of the loop exchanges two elements of the array. *)
Lemma shuffle_index_in_range (i k : nat) :
  (Z.to_nat (dfloor (dmul (Math_random k) (of_int (Z.of_nat i + 1)))) <= i)%nat.
Proof.
  pose proof (random_index k (Z.of_nat i + 1)). lia.
Qed.

Lemma pick_loop_spec n : forall local picked k,
  let result := pick_loop n local picked k in
  exists chosen,
    result.1 = picked ++ chosen /\
    chosen ⊆+ map w_num local /\
    length chosen = Nat.min n (length local) /\
    result.2 = (k + length chosen)%nat.
Proof.
  induction n as [|n IH]; intros local picked k result.
  - exists []. unfold result. simpl. rewrite app_nil_r.
    split_and!; try done. apply submseteq_nil_l.
  - destruct local as [|first rest].
    { exists []. unfold result. simpl. rewrite app_nil_r.
      split_and!; try done. }
    unfold result. cbn [pick_loop].
    set (local := first :: rest).
    set (at_ := Nat.min _ (length local - 1)).
    assert (Hlt : (at_ < length local)%nat).
    { unfold at_, local. simpl. lia. }
    destruct (lookup_lt_is_Some_2 local at_ Hlt) as [chosen Hc].
    rewrite Hc. change (default first (Some chosen)) with chosen.
    destruct (IH (delete at_ local) (picked ++ [w_num chosen]) (S k))
      as (more & Hr & Hsub & Hlen & Hk).
    exists (w_num chosen :: more). rewrite Hr, <- app_assoc.
    split; [done|]. split.
    + rewrite (delete_Permutation local at_ chosen Hc). simpl.
      by apply submseteq_skip.
    + rewrite length_delete in Hlen by (by eexists).
      assert (Hl : length local = S (length rest)) by done.
      split; [simpl; lia|]. rewrite Hk. simpl. lia.
Qed.

Lemma weightedPick_spec counts size power k :
  let result := weightedPick counts size power k in
  StronglySorted Z.le result.1 /\
  result.1 ⊆+ map num counts /\
  length result.1 = Nat.min (Z.to_nat size) (length counts) /\
  result.2 = (k + length result.1)%nat.
Proof.
  intros result. unfold result, weightedPick.
  set (pool := map _ counts).
  destruct (pick_loop_spec (Z.to_nat size) pool [] k)
    as (chosen & Hr & Hsub & Hlen & Hk).
  destruct (pick_loop _ pool [] k) as [picked k']. simpl in *. subst picked.
  assert (Hnums : map w_num pool = map num counts).
  { unfold pool. rewrite map_map. done. }
  rewrite Hnums in Hsub. unfold pool in Hlen. rewrite length_map in Hlen.
  split; [apply sort_numbers_sorted|].
  split; [by rewrite sort_numbers_perm|].
  rewrite (Permutation_length (sort_numbers_perm chosen)).
  split; [done|]. done.
Qed.
End PageFacts.

Lemma group_of_range n : 1 <= n -> 0 <= group_of n <= 4.
Proof. unfold group_of. intros Hn. Z.div_mod_to_equations. lia. Qed.

Lemma group_of_negative n : n < 1 -> group_of n < 0.
Proof. unfold group_of. intros Hn. Z.div_mod_to_equations. lia. Qed.

Section BalancedFacts.
Context `{Doubles}.

Lemma fill_groups_spec counts : forall gs,
  length gs = 5%nat ->
  match fill_groups gs counts with
  | Returned gs' =>
      Forall (fun item => 1 <= num item) counts /\ length gs' = 5%nat /\
      forall g old, gs !! g = Some old ->
        gs' !! g = Some (old ++ filter (fun n => group_of n = Z.of_nat g)
                                       (map num counts))
  | Thrown e =>
      e = TypeError /\ ~ Forall (fun item => 1 <= num item) counts
  end.
Proof.
  induction counts as [|item rest IH]; intros gs Hlen.
  - simpl. split; [done|]. split; [done|]. intros g old Hg.
    by rewrite filter_nil, app_nil_r.
  - cbn [fill_groups]. fold (group_of (num item)).
    destruct (group_of (num item) <? 0) eqn:Hneg.
    { apply Z.ltb_lt in Hneg. split; [done|]. intros Hall.
      apply Forall_cons in Hall as [Hn _].
      pose proof (group_of_range _ Hn). lia. }
    apply Z.ltb_ge in Hneg.
    assert (Hn : 1 <= num item).
    { destruct (Z.le_gt_cases 1 (num item)) as [|Hlt]; [done|].
      pose proof (group_of_negative (num item)). lia. }
    pose proof (group_of_range _ Hn) as Hg.
    destruct (lookup_lt_is_Some_2 gs (Z.to_nat (group_of (num item))))
      as [group Hgroup]; [lia|].
    rewrite Hgroup.
    specialize (IH (<[Z.to_nat (group_of (num item)) := group ++ [num item]]> gs)).
    rewrite length_insert in IH. specialize (IH Hlen).
    destruct (fill_groups _ rest) as [gs'|e].
    + destruct IH as (Hall & Hlen' & Hgs). split; [by constructor|].
      split; [done|]. intros g old Hold. cbn [map]. rewrite filter_cons.
      destruct (decide (g = Z.to_nat (group_of (num item)))) as [->|Hne].
      * rewrite decide_True by lia.
        rewrite (Hgs _ (group ++ [num item])).
        -- rewrite Hgroup in Hold. injection Hold as <-.
           by rewrite <- app_assoc.
        -- apply list_lookup_insert_eq. lia.
      * rewrite decide_False by lia. apply Hgs.
        by rewrite list_lookup_insert_ne.
    + destruct IH as [-> Hno]. split; [done|]. intros Hall. apply Hno.
      by apply Forall_cons in Hall as [_ ?].
Qed.

Lemma draw_groups_spec targets : forall idx groups result k,
  match draw_groups targets idx groups result k with
  | Returned (result', k') =>
      (idx + length targets <= length groups \/ targets = [])%nat /\
      exists slices,
        result' = result ++ concat slices /\
        Forall2 (fun s gt => exists sh, sh ≡ₚ gt.1 /\ s = slice0 gt.2 sh)
                slices (zip (drop idx groups) targets) /\
        k' = (k + sum_list (map (fun g => length g - 1)%nat
                              (take (length targets) (drop idx groups))))%nat
  | Thrown e => e = TypeError /\ (length groups < idx + length targets)%nat
  end.
Proof.
  induction targets as [|size rest IH]; intros idx groups result k.
  - simpl. split; [by right|]. exists []. rewrite app_nil_r.
    split; [done|]. split; [|lia].
    destruct (drop idx groups); constructor.
  - cbn [draw_groups]. destruct (groups !! idx) as [group|] eqn:Hg.
    + pose proof (shuffle_loop_spec (length group - 1) group k) as [Hp Hk].
      fold (shuffle group k) in Hp, Hk.
      destruct (shuffle group k) as [shuffled k1]. simpl in Hp, Hk.
      specialize (IH (S idx) groups (result ++ slice0 size shuffled) k1).
      destruct (draw_groups rest _ _ _ _) as [[result' k']|e].
      * destruct IH as (Hlen & slices & -> & Hall & ->).
        pose proof (lookup_lt_Some _ _ _ Hg) as Hlt.
        split.
        { left. destruct Hlen as [?| ->]; simpl; lia. }
        exists (slice0 size shuffled :: slices).
        rewrite (drop_S _ _ _ Hg). simpl. rewrite <- app_assoc.
        split; [done|]. split; [|lia].
        constructor; [|done]. by exists shuffled.
      * destruct IH as [-> Hlen]. split; [done|]. simpl. lia.
    + apply lookup_ge_None in Hg. split; [done|]. simpl. lia.
Qed.
End BalancedFacts.

Lemma slice0_sublist {A} size (l : list A) : slice0 size l `sublist_of` l.
Proof. unfold slice0. destruct (size <? 0); apply sublist_take. Qed.

Lemma slice0_length {A} size (l : list A) :
  0 <= size -> length (slice0 size l) = Nat.min (Z.to_nat size) (length l).
Proof.
  intros Hs. unfold slice0. destruct (size <? 0) eqn:E;
    [apply Z.ltb_lt in E; lia|]. apply length_take.
Qed.

Lemma sort_numbers_length l : length (sort_numbers l) = length l.
Proof. apply Permutation_length, sort_numbers_perm. Qed.

Lemma sorted_take n l : StronglySorted Z.le l -> StronglySorted Z.le (take n l).
Proof.
  intros Hs. rewrite <- (take_drop n l) in Hs.
  by apply StronglySorted_app_1_l in Hs.
Qed.

Section BalancedPick.
Context `{Doubles}.

Lemma five_groups (gs : list (list Z)) :
  length gs = 5%nat ->
  exists g0 g1 g2 g3 g4, gs = [g0; g1; g2; g3; g4].
Proof.
  intros Hlen. destruct gs as [|g0 [|g1 [|g2 [|g3 [|g4 [|]]]]]]; try done.
  by exists g0, g1, g2, g3, g4.
Qed.

Lemma slices_from_groups slices : forall (gs : list (list Z)) ts,
  Forall2 (fun s gt => exists sh, sh ≡ₚ gt.1 /\ s = slice0 gt.2 sh)
          slices (zip gs ts) ->
  forall n, n ∈ concat slices -> n ∈ concat gs.
Proof.
  induction slices as [|s slices IH]; intros gs ts Hall n Hn.
  - by apply elem_of_nil in Hn.
  - destruct gs as [|g gs]; [by inversion Hall|].
    destruct ts as [|t ts]; [by inversion Hall|].
    apply Forall2_cons in Hall as [(sh & Hp & ->) Hall]. simpl in *.
    apply elem_of_app in Hn as [Hn|Hn]; apply elem_of_app.
    + left. rewrite <- Hp. eapply elem_of_sublist; [exact Hn|].
      apply slice0_sublist.
    + right. by eapply IH.
Qed.

Lemma balancedPick_spec counts targets k :
  let sound :=
    Forall (fun item => 1 <= num item) counts /\ (length targets <= 5)%nat in
  match balancedPick counts targets k with
  | Returned (pick, k') =>
      sound /\ StronglySorted Z.le pick /\ (length pick <= 6)%nat /\
      (forall n, n ∈ pick -> n ∈ map num counts) /\ (k <= k')%nat
  | Thrown e => e = TypeError /\ ~ sound
  end.
Proof.
  intros sound. unfold balancedPick.
  pose proof (fill_groups_spec counts [[]; []; []; []; []] eq_refl) as Hf.
  destruct (fill_groups _ counts) as [gs|e]; [|by destruct Hf as [-> Hno]; split;
    [|intros [? _]]].
  destruct Hf as (Hall & Hlen & Hgs).
  pose proof (draw_groups_spec targets 0 gs [] k) as Hd.
  destruct (draw_groups targets 0 gs [] k) as [[result k']|e].
  - destruct Hd as (Hfit & slices & -> & Hsl & ->).
    split; [split; [done|]; destruct Hfit as [?| ->]; simpl; lia|].
    split; [apply sorted_take, sort_numbers_sorted|].
    split; [rewrite length_take; lia|]. split; [|lia].
    intros n Hn%subseteq_take. rewrite sort_numbers_perm in Hn. simpl in Hn.
    apply (slices_from_groups _ _ _ Hsl) in Hn.
    destruct (five_groups gs Hlen) as (g0 & g1 & g2 & g3 & g4 & ->).
    pose proof (Hgs 0%nat [] eq_refl) as H0. pose proof (Hgs 1%nat [] eq_refl) as H1.
    pose proof (Hgs 2%nat [] eq_refl) as H2. pose proof (Hgs 3%nat [] eq_refl) as H3.
    pose proof (Hgs 4%nat [] eq_refl) as H4.
    simpl in H0, H1, H2, H3, H4.
    injection H0 as ->. injection H1 as ->. injection H2 as ->.
    injection H3 as ->. injection H4 as ->.
    simpl in Hn. rewrite app_nil_r in Hn.
    repeat (apply elem_of_app in Hn as [Hn|Hn]);
      by apply list_elem_of_filter in Hn as [_ ?].
  - destruct Hd as [-> Hlong]. split; [done|]. intros [_ ?]. simpl in Hlong. lia.
Qed.
End BalancedPick.

Lemma take_one_of {A} (sh l : list A) :
  sh ≡ₚ l -> (1 <= length l)%nat ->
  exists a, take 1 sh = [a] /\ a ∈ l.
Proof.
  intros Hp Hlen. rewrite <- (Permutation_length Hp) in Hlen.
  destruct sh as [|a sh]; [simpl in Hlen; lia|].
  exists a. split; [done|]. rewrite <- Hp. left.
Qed.

Lemma take_two_of {A} (sh l : list A) :
  sh ≡ₚ l -> NoDup l -> (2 <= length l)%nat ->
  exists a b, take 2 sh = [a; b] /\ a ∈ l /\ b ∈ l /\ a <> b.
Proof.
  intros Hp Hnd Hlen. rewrite <- (Permutation_length Hp) in Hlen.
  rewrite <- Hp in Hnd.
  destruct sh as [|a [|b sh]]; [simpl in Hlen; lia..|].
  exists a, b. split; [done|]. rewrite <- Hp.
  split; [left|]. split; [right; left|].
  apply NoDup_cons in Hnd as [Hni _]. intros ->. apply Hni. left.
Qed.

Lemma sort_six a b c d e f :
  a < b -> b < c -> c < d -> d < e -> d < f -> e <> f ->
  sort_numbers [a; b; c; d; e; f]
  = [a; b; c; d; Z.min e f; Z.max e f].
Proof.
  intros. unfold sort_numbers. simpl. unfold compare_numbers.
  destruct (e - f <=? 0) eqn:E;
    [apply Z.leb_le in E|apply Z.leb_gt in E]; simpl; unfold compare_numbers.
  - replace (d - e <=? 0) with true by (symmetry; apply Z.leb_le; lia).
    simpl. unfold compare_numbers.
    replace (c - d <=? 0) with true by (symmetry; apply Z.leb_le; lia).
    simpl. unfold compare_numbers.
    replace (b - c <=? 0) with true by (symmetry; apply Z.leb_le; lia).
    simpl. unfold compare_numbers.
    replace (a - b <=? 0) with true by (symmetry; apply Z.leb_le; lia).
    by rewrite Z.min_l, Z.max_r by lia.
  - replace (d - f <=? 0) with true by (symmetry; apply Z.leb_le; lia).
    simpl. unfold compare_numbers.
    replace (c - d <=? 0) with true by (symmetry; apply Z.leb_le; lia).
    simpl. unfold compare_numbers.
    replace (b - c <=? 0) with true by (symmetry; apply Z.leb_le; lia).
    simpl. unfold compare_numbers.
    replace (a - b <=? 0) with true by (symmetry; apply Z.leb_le; lia).
    by rewrite Z.min_r, Z.max_l by lia.
Qed.

Lemma slice0_take {A} size (l : list A) :
  0 <= size -> slice0 size l = take (Z.to_nat size) l.
Proof.
  intros Hs. unfold slice0. destruct (size <? 0) eqn:E; [|done].
  apply Z.ltb_lt in E. lia.
Qed.

Section Spread.
Context `{Doubles}.

Lemma balancedPick_decades counts k :
  map num counts ≡ₚ seqZ 1 45 ->
  exists a b c d e f,
    balancedPick counts default_targets k
      = Returned ([a; b; c; d; e; f], (k + 40)%nat) /\
    1 <= a <= 10 /\ 11 <= b <= 20 /\ 21 <= c <= 30 /\ 31 <= d <= 40 /\
    41 <= e /\ e < f /\ f <= 45.
Proof.
  intros Hp. unfold balancedPick.
  pose proof (fill_groups_spec counts [[]; []; []; []; []] eq_refl) as Hf.
  assert (Hall : Forall (fun item => 1 <= num item) counts).
  { apply Forall_forall. intros item Hin.
    assert (Hn : num item ∈ map num counts)
      by (apply list_elem_of_fmap; by exists item).
    rewrite Hp in Hn. apply elem_of_seqZ in Hn. lia. }
  destruct (fill_groups _ counts) as [gs|e]; [|by destruct Hf as [_ Hno]].
  destruct Hf as (_ & Hlen & Hgs).
  destruct (five_groups gs Hlen) as (g0 & g1 & g2 & g3 & g4 & ->).
  pose proof (Hgs 0%nat [] eq_refl) as H0. pose proof (Hgs 1%nat [] eq_refl) as H1.
  pose proof (Hgs 2%nat [] eq_refl) as H2. pose proof (Hgs 3%nat [] eq_refl) as H3.
  pose proof (Hgs 4%nat [] eq_refl) as H4.
  simpl in H0, H1, H2, H3, H4.
  injection H0 as H0. injection H1 as H1. injection H2 as H2.
  injection H3 as H3. injection H4 as H4.
  assert (P0 : g0 ≡ₚ seqZ 1 10) by (by rewrite H0, Hp).
  assert (P1 : g1 ≡ₚ seqZ 11 10) by (by rewrite H1, Hp).
  assert (P2 : g2 ≡ₚ seqZ 21 10) by (by rewrite H2, Hp).
  assert (P3 : g3 ≡ₚ seqZ 31 10) by (by rewrite H3, Hp).
  assert (P4 : g4 ≡ₚ seqZ 41 5) by (by rewrite H4, Hp).
  clear H0 H1 H2 H3 H4 Hgs.
  pose proof (draw_groups_spec default_targets 0 [g0; g1; g2; g3; g4] [] k) as Hd.
  destruct (draw_groups _ _ _ _ _) as [[result k']|e];
    [|destruct Hd as [_ Hd]; simpl in Hd; lia].
  destruct Hd as (_ & slices & -> & Hsl & ->).
  simpl in Hsl.
  apply Forall2_cons_inv_r in Hsl as (s0 & sl & (sh0 & Q0 & ->) & Hsl & ->).
  apply Forall2_cons_inv_r in Hsl as (s1 & sl1 & (sh1 & Q1 & ->) & Hsl & ->).
  apply Forall2_cons_inv_r in Hsl as (s2 & sl2 & (sh2 & Q2 & ->) & Hsl & ->).
  apply Forall2_cons_inv_r in Hsl as (s3 & sl3 & (sh3 & Q3 & ->) & Hsl & ->).
  apply Forall2_cons_inv_r in Hsl as (s4 & sl4 & (sh4 & Q4 & ->) & Hsl & ->).
  apply Forall2_nil_inv_r in Hsl as ->.
  simpl in Q0, Q1, Q2, Q3, Q4. cbn [fst snd].
  rewrite !slice0_take by lia.
  change (Z.to_nat 1) with 1%nat. change (Z.to_nat 2) with 2%nat.
  destruct (take_one_of sh0 (seqZ 1 10)) as (a & -> & Ha%elem_of_seqZ);
    [by rewrite Q0|simpl; lia|].
  destruct (take_one_of sh1 (seqZ 11 10)) as (b & -> & Hb%elem_of_seqZ);
    [by rewrite Q1|simpl; lia|].
  destruct (take_one_of sh2 (seqZ 21 10)) as (c & -> & Hc%elem_of_seqZ);
    [by rewrite Q2|simpl; lia|].
  destruct (take_one_of sh3 (seqZ 31 10)) as (d & -> & Hd%elem_of_seqZ);
    [by rewrite Q3|simpl; lia|].
  destruct (take_two_of sh4 (seqZ 41 5))
    as (e & f & -> & He%elem_of_seqZ & Hf%elem_of_seqZ & Hef);
    [by rewrite Q4|apply NoDup_seqZ|simpl; lia|].
  exists a, b, c, d, (Z.min e f), (Z.max e f).
  cbn [app concat]. rewrite sort_six by lia. cbn [take].
  assert (Hsum : sum_list (map (fun g : list Z => (length g - 1)%nat)
                   (take (length default_targets)
                      (drop 0 [g0; g1; g2; g3; g4]))) = 40%nat).
  { simpl. by rewrite (Permutation_length P0), (Permutation_length P1),
      (Permutation_length P2), (Permutation_length P3),
      (Permutation_length P4). }
  rewrite Hsum. split; [reflexivity|]. lia.
Qed.
End Spread.

Lemma fullCounts_table counts :
  l_counts (buildRankingFromCounts counts) = table (first_count counts).
Proof. reflexivity. Qed.

Lemma listing_ranking counts :
  l_ranking (buildRankingFromCounts counts)
  = sort_items (table (first_count counts)).
Proof. reflexivity. Qed.

Lemma listing_hasData counts :
  l_hasData (buildRankingFromCounts counts)
  = (0 <? match sort_items (table (first_count counts)) with
          | item :: _ => count item
          | [] => 0
          end).
Proof. reflexivity. Qed.

(** The first entry of a sorted list has the highest count. *)
Lemma sort_items_head cs :
  match sort_items cs with
  | top :: _ => top ∈ cs /\ forall item, item ∈ cs -> count item <= count top
  | [] => cs = []
  end.
Proof.
  pose proof (sort_items_perm cs) as Hp.
  pose proof (sort_items_sorted cs) as Hs.
  destruct (sort_items cs) as [|top rest].
  - by apply Permutation_nil_l in Hp.
  - apply StronglySorted_inv in Hs as [_ Htop]. split.
    + rewrite <- Hp. left.
    + intros item Hin. rewrite <- Hp in Hin.
      apply elem_of_cons in Hin as [->|Hin]; [lia|].
      eapply Forall_forall in Htop; [|exact Hin].
      unfold ranks_before in Htop. lia.
Qed.

Lemma first_count_here before item after :
  Forall (fun x => num x <> num item) before ->
  first_count (before ++ item :: after) (num item) = count item.
Proof.
  intros Hb. unfold first_count. induction Hb as [|x before Hx Hb IH]; simpl.
  - by rewrite Z.eqb_refl.
  - apply Z.eqb_neq in Hx. by rewrite Hx.
Qed.

Lemma first_count_none counts n :
  Forall (fun x => num x <> n) counts -> first_count counts n = 0.
Proof.
  intros Hb. unfold first_count. induction Hb as [|x before Hx Hb IH]; simpl.
  - done.
  - apply Z.eqb_neq in Hx. by rewrite Hx.
Qed.

(** In a list with one entry per number, the count found for a number
    is the count of its entry. *)
Lemma first_count_unique counts item :
  NoDup (map num counts) -> item ∈ counts ->
  first_count counts (num item) = count item.
Proof.
  intros Hnd (before & after & ->)%list_elem_of_split.
  apply first_count_here. apply Forall_forall. intros x Hx Heq.
  rewrite map_app in Hnd. apply NoDup_app in Hnd as (_ & Hdis & _).
  apply (Hdis (num x)).
  - apply list_elem_of_fmap. by exists x.
  - simpl. rewrite Heq. left.
Qed.

Lemma first_count_table counts f :
  counts ≡ₚ table f -> forall n, 1 <= n <= 45 -> first_count counts n = f n.
Proof.
  intros Hp n Hn.
  assert (Hin : {| num := n; count := f n |} ∈ counts).
  { rewrite Hp. by apply table_elem. }
  assert (Hnd : NoDup (map num counts)).
  { rewrite Hp. apply table_NoDup. }
  apply (first_count_unique _ _ Hnd Hin).
Qed.

Lemma submseteq_NoDup_l {A} (l k : list A) : l ⊆+ k -> NoDup k -> NoDup l.
Proof.
  intros [k' Hk]%submseteq_Permutation Hnd. rewrite Hk in Hnd.
  by apply NoDup_app in Hnd as [? _].
Qed.

Lemma baseRanking_nums : map num baseRanking ≡ₚ seqZ 1 45.
Proof.
  unfold baseRanking. rewrite listing_ranking.
  rewrite (sort_items_perm (table _)). by rewrite table_nums.
Qed.

Section FilteredFacts.
Context `{Doubles}.

Lemma weightedPick_six counts power k :
  let result := weightedPick counts 6 power k in
  let m := Nat.min 6 (length counts) in
  StronglySorted Z.le result.1 /\ result.1 ⊆+ map num counts /\
  length result.1 = m /\ result.2 = (k + m)%nat.
Proof.
  intros result m.
  destruct (weightedPick_spec counts 6 power k) as (Hs & Hsub & Hlen & Hk).
  fold result in Hs, Hsub, Hlen, Hk.
  change (Z.to_nat 6) with 6%nat in Hlen. fold m in Hlen.
  split_and!; try done. by rewrite Hk, Hlen.
Qed.

Lemma filtered_loop_spec n counts : forall k,
  let m := Nat.min 6 (length counts) in
  let result := filtered_loop n counts k in
  (exists a, (a < n)%nat /\ passes_filter result.1 = true /\
     result = weightedPick counts 6 (decimal 12 1) (k + a * m) /\
     forall b, (b < a)%nat ->
       passes_filter (weightedPick counts 6 (decimal 12 1) (k + b * m)).1
       = false) \/
  (result = weightedPick counts 6 (decimal 11 1) (k + n * m) /\
   forall b, (b < n)%nat ->
     passes_filter (weightedPick counts 6 (decimal 12 1) (k + b * m)).1
     = false).
Proof.
  induction n as [|n IH]; intros k m result.
  - right. unfold result. simpl. rewrite Nat.add_0_r. split; [done|]. lia.
  - unfold result. cbn [filtered_loop].
    destruct (weightedPick_six counts (decimal 12 1) k) as (_ & _ & _ & Hk).
    fold m in Hk.
    destruct (weightedPick counts 6 (decimal 12 1) k) as [pick k1] eqn:Ew.
    simpl in Hk. subst k1.
    destruct (passes_filter pick) eqn:Hpass.
    + left. exists 0%nat. simpl. rewrite Nat.add_0_r, Ew.
      split; [lia|]. split; [done|]. split; [done|]. lia.
    + destruct (IH (k + m)%nat) as [(a & Ha & Hp & Hr & Hb)|[Hr Hb]].
      * left. exists (S a). split; [lia|]. split; [done|].
        fold m in Hr. rewrite Hr.
        replace (k + m + a * m)%nat with (k + S a * m)%nat by lia.
        split; [done|]. intros b Hlt. destruct b as [|b].
        -- simpl. by rewrite Nat.add_0_r, Ew.
        -- replace (k + S b * m)%nat with (k + m + b * m)%nat by lia.
           apply Hb. lia.
      * right. fold m in Hr. rewrite Hr.
        replace (k + m + n * m)%nat with (k + S n * m)%nat by lia.
        split; [done|]. intros b Hlt. destruct b as [|b].
        -- simpl. by rewrite Nat.add_0_r, Ew.
        -- replace (k + S b * m)%nat with (k + m + b * m)%nat by lia.
           apply Hb. lia.
Qed.
End FilteredFacts.

(** X16.  [shuffle] returns a permutation of its argument, whatever
    [Math.random] returns, and draws one random value for every element
    but the first.  The index drawn for position [i] lies between 0 and
    [i], so every step exchanges two elements of the array. *)
Theorem shuffle_permutation `{Doubles} {A} (items : list A) (k : nat) :
  (shuffle items k).1 ≡ₚ items /\
  (shuffle items k).2 = (k + (length items - 1))%nat /\
  forall i k', (i < length items)%nat ->
    let j := Z.to_nat (dfloor (dmul (Math_random k')
                                    (of_int (Z.of_nat i + 1)))) in
    (j <= i)%nat /\ is_Some (items !! i) /\ is_Some (items !! j).
Proof.
  destruct (shuffle_loop_spec (length items - 1) items k) as [Hp Hk].
  split; [exact Hp|]. split; [exact Hk|].
  intros i k' Hi j. pose proof (shuffle_index_in_range i k') as Hj.
  fold j in Hj. split; [done|].
  split; apply lookup_lt_is_Some_2; lia.
Qed.

(** X17.  [weightedPick] returns [size] numbers, or as many as there are
    entries when there are fewer, in ascending order.  They are numbers
    of the entries, none taken more often than it is listed, so they are
    distinct when the entries are.  This holds for every weight and every
    random value: the weights only decide which entries are taken.  One
    random value is drawn per number. *)
Theorem weightedPick_draws_entries `{Doubles}
    (counts : list RankingItem) (size : Z) (power : double) (k : nat) :
  let result := weightedPick counts size power k in
  length result.1 = Nat.min (Z.to_nat size) (length counts) /\
  StronglySorted Z.le result.1 /\
  result.1 ⊆+ map num counts /\
  (NoDup (map num counts) -> StronglySorted Z.lt result.1) /\
  result.2 = (k + length result.1)%nat.
Proof.
  intros result.
  destruct (weightedPick_spec counts size power k) as (Hs & Hsub & Hlen & Hk).
  fold result in Hs, Hsub, Hlen, Hk. split_and!; try done.
  intros Hnd. apply sorted_strict; [|done]. by eapply submseteq_NoDup_l.
Qed.

(** X18.  [balancedPick] returns exactly when every entry has a number of
    at least 1 and there are at most five group targets; otherwise it
    throws a TypeError, on the group that does not exist.  What it
    returns is in ascending order, has at most six numbers, and holds
    numbers of the entries only. *)
Theorem balancedPick_returns_iff `{Doubles}
    (counts : list RankingItem) (groupTargets : list Z) (k : nat) :
  let sound :=
    Forall (fun item => 1 <= num item) counts /\
    (length groupTargets <= 5)%nat in
  match balancedPick counts groupTargets k with
  | Returned (pick, k') =>
      sound /\ StronglySorted Z.le pick /\ (length pick <= 6)%nat /\
      (forall n, n ∈ pick -> n ∈ map num counts) /\ (k <= k')%nat
  | Thrown e => e = TypeError /\ ~ sound
  end.
Proof. apply balancedPick_spec. Qed.

(** X19.  On entries for the numbers 1 to 45, one each and in any order,
    [balancedPick] with its default targets returns six numbers in
    strictly ascending order: one of 1..10, one of 11..20, one of 21..30,
    one of 31..40 and two of 41..45.  It draws 40 random values. *)
Theorem balancedPick_one_per_decade `{Doubles}
    (counts : list RankingItem) (k : nat) :
  map num counts ≡ₚ seqZ 1 45 ->
  exists a b c d e f,
    balancedPick counts default_targets k
      = Returned ([a; b; c; d; e; f], (k + 40)%nat) /\
    1 <= a <= 10 /\ 11 <= b <= 20 /\ 21 <= c <= 30 /\ 31 <= d <= 40 /\
    41 <= e /\ e < f /\ f <= 45.
Proof. apply balancedPick_decades. Qed.

(** X20.  [filteredPick] returns the first of 200 weighted picks (power
    1.2) that has three odd numbers and a sum between 90 and 180; when
    all 200 fail it returns one more weighted pick (power 1.1), which
    need not pass.  Either way the result has six numbers, or as many as
    there are entries, in ascending order and taken from the entries. *)
Theorem filteredPick_first_passing `{Doubles}
    (counts : list RankingItem) (k : nat) :
  let m := Nat.min 6 (length counts) in
  let result := filteredPick counts k in
  let attempt_ a := weightedPick counts 6 (decimal 12 1) (k + a * m) in
  length result.1 = m /\ StronglySorted Z.le result.1 /\
  result.1 ⊆+ map num counts /\
  ((exists a, (a < 200)%nat /\ result = attempt_ a /\
      passes_filter result.1 = true /\
      forall b, (b < a)%nat -> passes_filter (attempt_ b).1 = false) \/
   (result = weightedPick counts 6 (decimal 11 1) (k + 200 * m) /\
    forall b, (b < 200)%nat -> passes_filter (attempt_ b).1 = false)).
Proof.
  intros m result attempt_. unfold result, attempt_, filteredPick.
  destruct (filtered_loop_spec 200 counts k) as [(a & Ha & Hp & Hr & Hb)|[Hr Hb]];
    fold m in Hr, Hb.
  - destruct (weightedPick_six counts (decimal 12 1) (k + a * m))
      as (Hs & Hsub & Hlen & _).
    rewrite <- Hr in Hs, Hsub, Hlen. split_and!; try done.
    left. by exists a.
  - destruct (weightedPick_six counts (decimal 11 1) (k + 200 * m))
      as (Hs & Hsub & Hlen & _).
    rewrite <- Hr in Hs, Hsub, Hlen. split_and!; try done. by right.
Qed.

(** X21.  [buildRankingFromCounts] returns 45 counts, for the numbers 1 to
    45 in ascending order.  The count of a number is that of the first
    entry given for it, and 0 when none is given; entries for other
    numbers are ignored.  The ranking is these counts sorted by count,
    higher first, and by number, lower first; [hasData] says whether one
    of the counts is positive. *)
Theorem buildRankingFromCounts_spec (counts : list RankingItem) :
  let r := buildRankingFromCounts counts in
  l_counts r
    = map (fun n => {| num := n; count := first_count counts n |})
          (seqZ 1 45) /\
  (forall before item after,
     counts = before ++ item :: after ->
     Forall (fun x => num x <> num item) before ->
     first_count counts (num item) = count item) /\
  (forall n, Forall (fun x => num x <> n) counts -> first_count counts n = 0) /\
  l_ranking r ≡ₚ l_counts r /\
  StronglySorted ranks_before (l_ranking r) /\
  (l_hasData r = true <->
   exists n, 1 <= n <= 45 /\ 0 < first_count counts n).
Proof.
  intros r. unfold r.
  rewrite fullCounts_table, listing_ranking, listing_hasData.
  split; [done|]. split.
  { intros before item after -> Hb. by apply first_count_here. }
  split; [apply first_count_none|].
  split; [apply sort_items_perm|]. split; [apply sort_items_sorted|].
  pose proof (sort_items_head (table (first_count counts))) as Hh.
  destruct (sort_items _) as [|top rest].
  { by pose proof (table_length (first_count counts)) as Hl; rewrite Hh in Hl. }
  destruct Hh as [Hin Hmax]. apply table_elem in Hin as [Hn Hc].
  rewrite Z.ltb_lt. split.
  - intros Hpos. exists (num top). split; [done|]. by rewrite <- Hc.
  - intros (n & Hn' & Hpos).
    assert (Hitem : {| num := n; count := first_count counts n |}
                    ∈ table (first_count counts)) by (by apply table_elem).
    apply Hmax in Hitem. simpl in Hitem. lia.
Qed.

(** X22.  The page's ranking agrees with the route's: given the ranking
    (or the counts) of a response, [buildRankingFromCounts] returns the
    counts, the ranking and [hasData] of that response. *)
Theorem client_rebuilds_server_ranking
    (ds : list Draw) (flag : bool) (r : Ranking) :
  buildRanking ds flag = Returned r ->
  let same := {| l_counts := r_counts r; l_ranking := r_ranking r;
                 l_hasData := r_hasData r |} in
  buildRankingFromCounts (r_ranking r) = same /\
  buildRankingFromCounts (r_counts r) = same.
Proof.
  intros Hr same. pose proof (buildRanking_tally ds flag) as Hb.
  rewrite Hr in Hb. destruct Hb as (_ & Hc & Hrk & _ & _ & _ & Hd).
  assert (Hfrom : forall cs, cs ≡ₚ r_counts r -> buildRankingFromCounts cs = same).
  { intros cs Hp. rewrite Hc in Hp.
    assert (Ht : table (first_count cs) = r_counts r).
    { rewrite Hc. apply table_ext. intros n Hn.
      by apply (first_count_table _ _ Hp). }
    assert (Hl : l_counts (buildRankingFromCounts cs) = r_counts r)
      by (by rewrite fullCounts_table).
    assert (Hk : l_ranking (buildRankingFromCounts cs) = r_ranking r)
      by (by rewrite listing_ranking, Ht, Hrk).
    assert (Hh : l_hasData (buildRankingFromCounts cs) = r_hasData r)
      by (by rewrite listing_hasData, Ht, <- Hrk, Hd).
    destruct (buildRankingFromCounts cs). simpl in *. unfold same. congruence. }
  split; apply Hfrom; [|done]. rewrite Hrk. apply sort_items_perm.
Qed.

(** X23.  The colour of a ball follows the decade [balancedPick] groups
    its number into: for every number from 1 on, [getBallClass] returns
    the class of the group of that number. *)
Theorem getBallClass_matches_group (n : Z) :
  1 <= n -> class_index (getBallClass n) = group_of n.
Proof.
  intros Hn. unfold getBallClass, group_of.
  repeat (case Z.leb_spec; intros ?); simpl;
    Z.div_mod_to_equations; lia.
Qed.

(** X24.  Whatever the mode and whatever [Math.random] returns, the pick
    the page shows is six numbers between 1 and 45 in strictly ascending
    order; the balanced mode never throws on the page's own table. *)
Theorem buildAlgoPick_six_numbers `{Doubles} (algoMode : AlgoMode) (k : nat) :
  exists pick k',
    buildAlgoPick algoMode k = Returned (pick, k') /\
    length pick = 6%nat /\ StronglySorted Z.lt pick /\
    Forall (fun n => 1 <= n <= 45) pick.
Proof.
  pose proof baseRanking_nums as Hp.
  assert (Hnd : NoDup (map num baseRanking)) by (rewrite Hp; apply NoDup_seqZ).
  assert (Hlen : length baseRanking = 45%nat).
  { by rewrite <- (length_map num), Hp. }
  assert (Hrange : forall pick, pick ⊆+ map num baseRanking ->
                     Forall (fun n => 1 <= n <= 45) pick).
  { intros pick Hsub. apply Forall_forall. intros n Hn.
    assert (Hin : n ∈ map num baseRanking).
    { eapply elem_of_submseteq; [exact Hn|done]. }
    rewrite Hp in Hin. apply elem_of_seqZ in Hin. lia. }
  assert (Hw : forall power j,
    let result := weightedPick baseRanking 6 power j in
    length result.1 = 6%nat /\ StronglySorted Z.lt result.1 /\
    Forall (fun n => 1 <= n <= 45) result.1).
  { intros power j result.
    destruct (weightedPick_six baseRanking power j) as (Hs & Hsub & Hl & _).
    fold result in Hs, Hsub, Hl. rewrite Hlen in Hl.
    split; [done|]. split; [|by apply Hrange].
    apply sorted_strict; [|done]. by eapply submseteq_NoDup_l. }
  destruct algoMode; unfold buildAlgoPick.
  - specialize (Hw (decimal 14 1) k).
    destruct (weightedPick _ _ _ _) as [pick k']. by exists pick, k'.
  - destruct (balancedPick_decades baseRanking k Hp)
      as (a & b & c & d & e & f & -> & Ha & Hb & Hc & Hd & He & Hef & Hf).
    eexists _, _. split; [done|]. split; [done|]. split.
    + repeat (constructor; [|repeat (constructor; try lia)]). constructor.
    + repeat (constructor; [lia|]). constructor.
  - destruct (filtered_loop_spec 200 baseRanking k)
      as [(a & _ & _ & Hr & _)|[Hr _]];
      fold (filteredPick baseRanking k) in Hr; rewrite Hr.
    + specialize (Hw (decimal 12 1) (k + a * Nat.min 6 (length baseRanking))%nat).
      destruct (weightedPick _ _ _ _) as [pick k']. by exists pick, k'.
    + specialize (Hw (decimal 11 1) (k + 200 * Nat.min 6 (length baseRanking))%nat).
      destruct (weightedPick _ _ _ _) as [pick k']. by exists pick, k'.
  - specialize (Hw (decimal 10 1) k). unfold probabilisticPick.
    destruct (weightedPick _ _ _ _) as [pick k']. by exists pick, k'.
Qed.

(** ** Further worked examples *)

(** The first locator run of a process, 500 draws upstream. *)
Lemma findLatestDraw_budget_witness :
  exists more,
    log (@findLatestDraw sample_builtins (upto 500) (boot t0)).2
      = more ++ [Locate] /\
    (requests more <= 87)%nat.
Proof.
  destruct (@findLatestDraw_budget sample_builtins (upto 500) (boot t0))
    as (more & Hl & Hr & _).
  - vm_compute. discriminate.
  - exists more. split; [exact Hl|exact Hr].
Defined.

(** The first sync of a process, three draws upstream. *)
Lemma updateCache_budget_witness :
  exists more,
    log (@updateCache sample_builtins (upto 3) (boot t0)).2
      = more ++ [SyncStart] /\
    (requests more <= 96)%nat.
Proof.
  destruct (@updateCache_budget sample_builtins (upto 3) (boot t0))
    as (more & Hl & _ & _ & _ & _ & Hc).
  - reflexivity.
  - vm_compute. discriminate.
  - exists more. split; [exact Hl|].
    assert (Hd : (@updateCache sample_builtins (upto 3) (boot t0)).1
                 = Returned (Done (theCache
                     (@updateCache sample_builtins (upto 3) (boot t0)).2)))
      by (vm_compute; reflexivity).
    exact (Hc _ Hd).
Defined.

(** The range fetch of the first sync meets the interstitial page. *)
Lemma updateCache_rejects_html_only_witness :
  let result := @updateCache sample_builtins (upto_except 3 1 ok_html) (boot t0) in
  result.1 = Thrown HtmlResponseError /\
  blockedUntil (theCache result.2) = None /\
  updatedAt (theCache result.2) = 0.
Proof.
  intros result.
  destruct (@updateCache_rejects_html_only sample_builtins
              (upto_except 3 1 ok_html) (boot t0) result.2 HtmlResponseError)
    as (_ & _ & _ & Hu & Hb & _).
  - vm_compute. reflexivity.
  - split; [vm_compute; reflexivity|]. split; [exact Hb|exact Hu].
Defined.

(** A draw with the number 99 was stored. *)
Lemma GET_rejections_witness :
  let served := @GET sample_builtins (odd_upto 2) true (boot t0) in
  exists e, served.1 = Thrown e /\ (e = HtmlResponseError \/ e = TypeError).
Proof.
  intros served. exists TypeError. split; [vm_compute; reflexivity|].
  apply (@GET_rejections sample_builtins (odd_upto 2) true (boot t0) served.2).
  vm_compute. reflexivity.
Defined.

(** A first sync is rejected on draw 3 and leaves workers behind.  Twelve
    hours later the locator of the next sync meets the interstitial page:
    the sync records a block and completes with two draws.  The leftover
    workers then ask for draws 4 to 6 and store them, and the request
    that follows an hour later is served five draws. *)
Lemma GET_after_sync_is_silent_witness :
  let first := @GET sample_builtins interrupted true (boot t0) in
  let sync :=
    @updateCache sample_builtins interrupted
      (at_time (now first.2 + CACHE_TTL_MS) first.2) in
  let later :=
    at_time (now sync.2 + 3600000)
      (@idle_run sample_builtins interrupted
         (replicate 6 (0%nat, 0%nat)) sync.2) in
  let served := @GET sample_builtins interrupted true later in
  log served.2 = log later /\ theCache served.2 = theCache later /\
  is_Some (blockedUntil (theCache sync.2)) /\
  size (draws (theCache sync.2)) = 2%nat /\
  size (draws (theCache later)) = 5%nat /\
  requests (log later) = (requests (log sync.2) + 3)%nat.
Proof.
  intros first sync later served.
  destruct (@GET_after_sync_is_silent sample_builtins interrupted
              (at_time (now first.2 + CACHE_TTL_MS) first.2) sync.2
              (theCache sync.2) (replicate 6 (0%nat, 0%nat)) true
              (now sync.2 + 3600000))
    as (_ & _ & Hl & Hc & _).
  - vm_compute. reflexivity.
  - vm_compute. reflexivity.
  - split; [exact Hl|]. split; [exact Hc|].
    split; [vm_compute; by eexists|]. split_and!; vm_compute; reflexivity.
Defined.

(** After a first request rejected on draw 3, the workers it leaves
    behind store draws 4 to 6 while [latest] stays 0. *)
Lemma leftover_workers_only_add_draws_witness :
  let first := @GET sample_builtins relapsing true (boot t0) in
  let rest :=
    @idle_run sample_builtins relapsing (replicate 6 (0%nat, 0%nat)) first.2 in
  dom (draws (theCache first.2)) ⊆ dom (draws (theCache rest)) /\
  latest (theCache rest) = 0 /\
  size (draws (theCache first.2)) = 2%nat /\
  size (draws (theCache rest)) = 5%nat /\
  strays rest = [].
Proof.
  intros first rest.
  destruct (@leftover_workers_only_add_draws sample_builtins relapsing
              (replicate 6 (0%nat, 0%nat)) first.2)
    as ((Hl & _) & Hd & _).
  split; [exact Hd|]. split; [exact (eq_trans Hl eq_refl)|].
  split_and!; vm_compute; reflexivity.
Defined.

(** The first request of a process. *)
Lemma GET_keeps_latest_in_range_witness :
  0 <= latest (theCache (@GET sample_builtins (upto 3) false (boot t0)).2)
    <= MAX_DRAW_GUESS.
Proof.
  apply (@GET_keeps_latest_in_range sample_builtins (upto 3) false (boot t0)).
  vm_compute. split; discriminate.
Defined.

(** Two draws, bonus included: 10 was drawn once and was the bonus
    once. *)
Lemma buildRanking_counts_witness :
  exists r,
    buildRanking [first_draw; second_draw] true = Returned r /\
    r_counts r !! 9%nat = Some {| num := 10; count := 2 |}.
Proof.
  destruct (buildRanking [first_draw; second_draw] true) as [r|e] eqn:Hr;
    [|by vm_compute in Hr].
  exists r. split; [reflexivity|].
  refine (proj2 (proj2 (buildRanking_counts _ _ _ Hr)) 10 _). lia.
Defined.

Lemma bonus_adds_to_counts_witness :
  exists r r0,
    buildRanking [first_draw; second_draw] true = Returned r /\
    buildRanking [first_draw; second_draw] false = Returned r0 /\
    r_counts r !! 9%nat = Some {| num := 10; count := 2 |} /\
    r_counts r0 !! 9%nat = Some {| num := 10; count := 1 |}.
Proof.
  destruct (buildRanking [first_draw; second_draw] true) as [r|e] eqn:Hr;
    [|by vm_compute in Hr].
  destruct (bonus_adds_to_counts _ _ Hr) as (r0 & Hr0 & Hc).
  exists r, r0. split; [reflexivity|]. split; [exact Hr0|].
  assert (Hten : r_counts r !! 9%nat = Some {| num := 10; count := 2 |}).
  { vm_compute in Hr. injection Hr as <-. reflexivity. }
  split; [exact Hten|].
  destruct (Hc 10 _ ltac:(lia) Hten) as (item0 & Hi & _ & Hn & Hcount).
  change (Z.to_nat (10 - 1)) with 9%nat in Hi.
  rewrite Hi. destruct item0 as [n0 c0]. cbn [num count] in Hn, Hcount.
  subst n0.
  change (occurrences 10 (map bonus [first_draw; second_draw])) with 1 in Hcount.
  f_equal. f_equal. lia.
Defined.

Lemma ranking_is_sorted_counts_witness :
  exists r,
    buildRanking [first_draw; second_draw] true = Returned r /\
    r_ranking r ≡ₚ r_counts r /\
    StronglySorted ranks_before (r_ranking r).
Proof.
  destruct (buildRanking [first_draw; second_draw] true) as [r|e] eqn:Hr;
    [|by vm_compute in Hr].
  exists r. split; [reflexivity|].
  destruct (ranking_is_sorted_counts _ _ _ Hr) as (Hp & Hs & _).
  split; [exact Hp|exact Hs].
Defined.

Lemma ranking_slices_witness :
  exists r,
    buildRanking [first_draw; second_draw] true = Returned r /\
    length (r_top6 r) = 6%nat /\ NoDup (r_top18 r).
Proof.
  destruct (buildRanking [first_draw; second_draw] true) as [r|e] eqn:Hr;
    [|by vm_compute in Hr].
  exists r. split; [reflexivity|].
  destruct (ranking_slices _ _ _ Hr) as (H6 & _ & _ & _ & Hnd & _).
  split; [exact H6|exact Hnd].
Defined.

Lemma hasData_iff_witness :
  exists r,
    buildRanking [first_draw; second_draw] false = Returned r /\
    r_hasData r = true.
Proof.
  destruct (buildRanking [first_draw; second_draw] false) as [r|e] eqn:Hr;
    [|by vm_compute in Hr].
  exists r. split; [reflexivity|].
  apply (proj1 (hasData_iff _ _ _ Hr)).
  exists first_draw. split; [left|]. left. discriminate.
Defined.

Lemma client_rebuilds_server_ranking_witness :
  exists r,
    buildRanking [first_draw; second_draw] true = Returned r /\
    l_ranking (buildRankingFromCounts (r_ranking r)) = r_ranking r.
Proof.
  destruct (buildRanking [first_draw; second_draw] true) as [r|e] eqn:Hr;
    [|by vm_compute in Hr].
  exists r. split; [reflexivity|].
  destruct (client_rebuilds_server_ranking _ _ _ Hr) as [Hk _].
  by rewrite Hk.
Defined.

Lemma getBallClass_matches_group_witness :
  getBallClass 45 = styles_c5 /\ group_of 45 = 4.
Proof.
  pose proof (getBallClass_matches_group 45 ltac:(lia)) as Hg.
  split; [reflexivity|]. rewrite <- Hg. reflexivity.
Defined.

(** The balanced pick of the page, with the sample source of chance. *)
Lemma balancedPick_one_per_decade_witness :
  exists pick,
    @balancedPick fixed_point baseRanking default_targets 0
      = Returned (pick, 40%nat) /\
    length pick = 6%nat.
Proof.
  destruct (@balancedPick_one_per_decade fixed_point baseRanking 0)
    as (a & b & c & d & e & f & Hb & _).
  - apply (bool_decide_unpack _). vm_compute. reflexivity.
  - exists [a; b; c; d; e; f]. split; [exact Hb|reflexivity].
Defined.

(** Five numbers shuffled with the sample source of chance. *)
Lemma shuffle_permutation_witness :
  (@shuffle fixed_point Z [1; 2; 3; 4; 5] 0).1 ≡ₚ [1; 2; 3; 4; 5] /\
  (@shuffle fixed_point Z [1; 2; 3; 4; 5] 0).2 = 4%nat.
Proof.
  destruct (@shuffle_permutation fixed_point Z [1; 2; 3; 4; 5] 0%nat)
    as (Hp & Hk & _).
  split; [exact Hp|exact Hk].
Defined.

Lemma weightedPick_draws_entries_witness :
  let result := @weightedPick fixed_point baseRanking 6 (@decimal fixed_point 14 1) 0 in
  length result.1 = 6%nat /\ StronglySorted Z.le result.1.
Proof.
  intros result.
  destruct (@weightedPick_draws_entries fixed_point baseRanking 6
              (@decimal fixed_point 14 1) 0%nat) as (Hl & Hs & _).
  split; [exact Hl|exact Hs].
Defined.

(** An entry for the number 0 has no group. *)
Lemma balancedPick_returns_iff_witness :
  @balancedPick fixed_point [{| num := 0; count := 3 |}] default_targets 0
  = Thrown TypeError.
Proof.
  pose proof (@balancedPick_returns_iff fixed_point
                [{| num := 0; count := 3 |}] default_targets 0%nat) as Hb.
  destruct (@balancedPick fixed_point _ default_targets 0) as [[pick k']|e].
  - destruct Hb as [[Hall _] _]. apply Forall_cons in Hall as [Hn _].
    simpl in Hn. lia.
  - destruct Hb as [-> _]. reflexivity.
Defined.

Lemma filteredPick_first_passing_witness :
  let result := @filteredPick fixed_point baseRanking 0 in
  length result.1 = 6%nat /\ StronglySorted Z.le result.1.
Proof.
  intros result.
  destruct (@filteredPick_first_passing fixed_point baseRanking 0%nat)
    as (Hl & Hs & _).
  split; [exact Hl|exact Hs].
Defined.

Lemma buildAlgoPick_six_numbers_witness :
  exists pick k',
    @buildAlgoPick fixed_point probabilistic 0 = Returned (pick, k') /\
    length pick = 6%nat.
Proof.
  destruct (@buildAlgoPick_six_numbers fixed_point probabilistic 0%nat)
    as (pick & k' & Hb & Hl & _).
  exists pick, k'. split; [exact Hb|exact Hl].
Defined.
